(** * Rugged commit, object, walker and commit-stats bindings

    A shallow embedding of [ext/rugged/rugged_object.c],
    [ext/rugged/rugged_commit.c], [ext/rugged/rugged_commit_stats.c] and
    [ext/rugged/rugged_revwalk.c].  The C functions become Rocq functions of
    the same name; libgit2 calls return a [git_result] instead of an [int]
    error code with an out-parameter, and a Ruby method returns an
    [rb_result]: a value, or the exception it raises. *)

From Stdlib Require Import ZArith String Ascii List Lia Bool.
From Stdlib Require DecimalString.
From stdpp Require Import base option list gmap strings.

Local Open Scope Z_scope.

(** ** Machine integers *)

(** [int] is 32 bits wide and two's complement, [size_t], [unsigned long] and
    [uint64_t] are 64 bits wide (LP64). *)
Definition INT_MAX : Z := 2 ^ 31 - 1.
Definition UINT64_MAX : Z := 2 ^ 64 - 1.

Definition to_int (z : Z) : Z := (z + 2 ^ 31) mod 2 ^ 32 - 2 ^ 31.
Definition to_uint64 (z : Z) : Z := z mod 2 ^ 64.
Definition to_size_t (z : Z) : Z := to_uint64 z.

(** ** libgit2: error codes and error state *)

Definition GIT_OK : Z := 0.
Definition GIT_ERROR : Z := -1.
Definition GIT_ENOTFOUND : Z := -3.
Definition GIT_EAMBIGUOUS : Z := -5.
Definition GIT_ITEROVER : Z := -31.

(** The error classes [giterr_set] records beside the message. *)
Inductive git_error_t : Type :=
| GITERR_NONE
| GITERR_OS
| GITERR_INVALID
| GITERR_REFERENCE
| GITERR_ODB
| GITERR_OBJECT
| GITERR_MERGE
| GITERR_REVWALK.

(** A failed libgit2 call: the code it returns and what [giterr_last]
    holds afterwards. *)
Record git_error : Type := mk_git_error {
  error_code : Z;
  klass : git_error_t;
  message : string
}.

Inductive git_result (A : Type) : Type :=
| git_ok (a : A)
| git_fail (e : git_error).
Arguments git_ok {A} a.
Arguments git_fail {A} e.

(** ** libgit2: objects *)

(** A [git_oid] is 20 raw bytes; it is kept as the 160-bit number those
    bytes spell, most significant byte first. *)
Definition git_oid : Type := Z.
Definition GIT_OID_RAWSZ : Z := 20.
Definition GIT_OID_HEXSZ : Z := 40.
Definition GIT_OID_MINPREFIXLEN : Z := 4.

Inductive git_otype : Type :=
| GIT_OBJ_ANY
| GIT_OBJ_BAD
| GIT_OBJ_COMMIT
| GIT_OBJ_TREE
| GIT_OBJ_BLOB
| GIT_OBJ_TAG.

#[global] Instance git_otype_eq_dec : EqDecision git_otype.
Proof. solve_decision. Defined.

Record git_signature : Type := mk_signature {
  sig_name : string;
  sig_email : string;
  sig_time : Z;
  sig_offset : Z
}.

Record git_commit : Type := mk_commit {
  commit_id : git_oid;
  commit_tree_id : git_oid;
  commit_parent_ids : list git_oid;
  commit_author : git_signature;
  commit_committer : git_signature;
  commit_message : string
}.

(** A tree is a directory snapshot: the files below it, each with its path
    and its lines. *)
Record git_tree : Type := mk_tree {
  tree_id : git_oid;
  tree_files : list (string * list string)
}.

Record git_tag : Type := mk_tag {
  tag_id : git_oid;
  tag_target_id : git_oid;
  tag_name : string
}.

Record git_blob : Type := mk_blob {
  blob_id : git_oid;
  blob_lines : list string
}.

Inductive git_object : Type :=
| ObjCommit (c : git_commit)
| ObjTree (t : git_tree)
| ObjTag (t : git_tag)
| ObjBlob (b : git_blob).

Definition git_object_type (o : git_object) : git_otype :=
  match o with
  | ObjCommit _ => GIT_OBJ_COMMIT
  | ObjTree _ => GIT_OBJ_TREE
  | ObjTag _ => GIT_OBJ_TAG
  | ObjBlob _ => GIT_OBJ_BLOB
  end.

Definition git_object_id (o : git_object) : git_oid :=
  match o with
  | ObjCommit c => commit_id c
  | ObjTree t => tree_id t
  | ObjTag t => tag_id t
  | ObjBlob b => blob_id b
  end.

(** The object database of a repository, keyed by object id. *)
Record git_repository : Type := mk_repository {
  repo_odb : gmap Z git_object
}.

Definition git_odb : Type := gmap Z git_object.
Definition git_repository_odb (repo : git_repository) : git_odb := repo_odb repo.

Definition git_odb_exists (odb : git_odb) (id : git_oid) : bool :=
  bool_decide (is_Some (odb !! id)).

Definition err_not_found : git_error :=
  mk_git_error GIT_ENOTFOUND GITERR_ODB "Object not found".
Definition err_type_mismatch : git_error :=
  mk_git_error GIT_ENOTFOUND GITERR_INVALID
    "The requested type does not match the type in ODB".
Definition err_no_parent : git_error :=
  mk_git_error GIT_ENOTFOUND GITERR_INVALID "Parent does not exist".
Definition err_iterover : git_error := mk_git_error GIT_ITEROVER GITERR_NONE "".

Definition git_object_lookup (repo : git_repository) (id : git_oid)
    (type : git_otype) : git_result git_object :=
  match repo_odb repo !! id with
  | None => git_fail err_not_found
  | Some o =>
      if bool_decide (type = GIT_OBJ_ANY) || bool_decide (git_object_type o = type)
      then git_ok o
      else git_fail err_type_mismatch
  end.

Definition git_commit_lookup (repo : git_repository) (id : git_oid)
    : git_result git_commit :=
  match git_object_lookup repo id GIT_OBJ_COMMIT with
  | git_ok (ObjCommit c) => git_ok c
  | git_ok _ => git_fail err_type_mismatch
  | git_fail e => git_fail e
  end.

Definition git_tree_lookup (repo : git_repository) (id : git_oid)
    : git_result git_tree :=
  match git_object_lookup repo id GIT_OBJ_TREE with
  | git_ok (ObjTree t) => git_ok t
  | git_ok _ => git_fail err_type_mismatch
  | git_fail e => git_fail e
  end.

(** Accessors of a commit.  A [git_commit] knows the repository that owns
    it; here the owner is passed beside the commit. *)
Definition git_commit_id (c : git_commit) : git_oid := commit_id c.
Definition git_commit_author (c : git_commit) : git_signature := commit_author c.
Definition git_commit_committer (c : git_commit) : git_signature := commit_committer c.
Definition git_commit_parentcount (c : git_commit) : Z :=
  Z.of_nat (length (commit_parent_ids c)).
Definition git_commit_parent_id (c : git_commit) (n : Z) : option git_oid :=
  if n <? 0 then None else commit_parent_ids c !! Z.to_nat n.

Definition git_commit_parent (owner : git_repository) (c : git_commit) (n : Z)
    : git_result git_commit :=
  match git_commit_parent_id c n with
  | None => git_fail err_no_parent
  | Some id => git_commit_lookup owner id
  end.

Definition git_commit_tree (owner : git_repository) (c : git_commit)
    : git_result git_tree :=
  git_tree_lookup owner (commit_tree_id c).

(** ** libgit2: object ids from hex, lookup by prefix *)

(** [git__fromhex]: the value of a hex digit, -1 for any other character. *)
Definition git__fromhex (c : ascii) : Z :=
  let n := Z.of_N (N_of_ascii c) in
  if (48 <=? n) && (n <=? 57) then n - 48
  else if (97 <=? n) && (n <=? 102) then n - 97 + 10
  else if (65 <=? n) && (n <=? 70) then n - 65 + 10
  else -1.

Definition oid_error_invalid (msg : string) : git_error :=
  mk_git_error GIT_ERROR GITERR_INVALID msg.

(** The loop of [git_oid_fromstrn]: character [p] fills nibble [p] of the
    id, counted from the most significant one. *)
Fixpoint oid_fromstrn_loop (chars : list ascii) (p : Z) (out : git_oid)
    : git_result git_oid :=
  match chars with
  | [] => git_ok out
  | c :: rest =>
      let v := git__fromhex c in
      if v <? 0 then git_fail (oid_error_invalid "contains invalid characters")
      else oid_fromstrn_loop rest (p + 1) (Z.lor out (Z.shiftl v (4 * (39 - p))))
  end.

(** [git_oid_fromstrn str length] reads [length] characters of [str]; a
    string that ends before that has its terminating NUL read, which is no
    hex digit. *)
Definition git_oid_fromstrn (str : string) (length : Z) : git_result git_oid :=
  if length =? 0 then git_fail (oid_error_invalid "too short")
  else if GIT_OID_HEXSZ <? length then git_fail (oid_error_invalid "too long")
  else
    let chars := list_ascii_of_string str in
    if Z.of_nat (List.length chars) <? length
    then git_fail (oid_error_invalid "contains invalid characters")
    else oid_fromstrn_loop (take (Z.to_nat length) chars) 0 0.

Definition git_oid_fromstr (str : string) : git_result git_oid :=
  git_oid_fromstrn str GIT_OID_HEXSZ.

(** The leading [len] hex digits of an id. *)
Definition oid_prefix (id : git_oid) (len : Z) : Z :=
  Z.shiftr id (4 * (GIT_OID_HEXSZ - len)).

(** The objects of the database whose id starts with the first [len] digits
    of [short]. *)
Definition odb_prefix_matches (odb : git_odb) (short : git_oid) (len : Z)
    : list (git_oid * git_object) :=
  filter (fun kv => oid_prefix kv.1 len = oid_prefix short len) (map_to_list odb).

Definition err_prefix_too_short : git_error :=
  mk_git_error GIT_EAMBIGUOUS GITERR_OBJECT "Ambiguous lookup - OID prefix is too short".
Definition err_ambiguous : git_error :=
  mk_git_error GIT_EAMBIGUOUS GITERR_ODB "Multiple ODB matches for prefix".

Definition object_of_type (o : git_object) (type : git_otype) : git_result git_object :=
  if bool_decide (type = GIT_OBJ_ANY) || bool_decide (git_object_type o = type)
  then git_ok o
  else git_fail err_type_mismatch.

Definition git_object_lookup_prefix (repo : git_repository) (id : git_oid)
    (len : Z) (type : git_otype) : git_result git_object :=
  if len <? GIT_OID_MINPREFIXLEN then git_fail err_prefix_too_short
  else
    let len := if GIT_OID_HEXSZ <? len then GIT_OID_HEXSZ else len in
    if len =? GIT_OID_HEXSZ then git_object_lookup repo id type
    else
      match odb_prefix_matches (repo_odb repo) id len with
      | [] => git_fail err_not_found
      | [(_, o)] => object_of_type o type
      | _ => git_fail err_ambiguous
      end.

(** ** libgit2: diffs and revision walks *)

Inductive git_diff_line_t : Type :=
| GIT_DIFF_LINE_CONTEXT
| GIT_DIFF_LINE_ADDITION
| GIT_DIFF_LINE_DELETION
| GIT_DIFF_LINE_CONTEXT_EOFNL
| GIT_DIFF_LINE_ADD_EOFNL
| GIT_DIFF_LINE_DEL_EOFNL
| GIT_DIFF_LINE_FILE_HDR
| GIT_DIFF_LINE_HUNK_HDR
| GIT_DIFF_LINE_BINARY.

Record git_diff_file : Type := mk_diff_file { path : string }.
Record git_diff_delta : Type := mk_delta {
  old_file : git_diff_file;
  new_file : git_diff_file
}.
Record git_diff_hunk : Type := mk_hunk { old_start : Z; new_start : Z }.
Record git_diff_line : Type := mk_line { origin : git_diff_line_t; content : string }.

(** A diff, as [git_diff_foreach] walks it with a line callback alone: the
    lines of every hunk of every delta in order, and the error (a blob that
    cannot be loaded) that may end the walk after them. *)
Record git_diff : Type := mk_diff {
  diff_lines : list (git_diff_delta * git_diff_hunk * git_diff_line);
  diff_error : option git_error
}.

Definition err_user_callback (code : Z) : git_error :=
  mk_git_error code GITERR_NONE "callback returned an error".

(** [git_diff_foreach diff NULL NULL NULL line_cb payload]: a callback that
    returns non-zero stops the walk. *)
Fixpoint diff_foreach_lines {P : Type}
    (line_cb : git_diff_delta -> git_diff_hunk -> git_diff_line -> P -> Z * P)
    (lines : list (git_diff_delta * git_diff_hunk * git_diff_line))
    (payload : P) : option git_error * P :=
  match lines with
  | [] => (None, payload)
  | (delta, hunk, line) :: rest =>
      let '(code, payload') := line_cb delta hunk line payload in
      if code =? GIT_OK then diff_foreach_lines line_cb rest payload'
      else (Some (err_user_callback code), payload')
  end.

Definition git_diff_foreach {P : Type}
    (diff : git_diff)
    (line_cb : git_diff_delta -> git_diff_hunk -> git_diff_line -> P -> Z * P)
    (payload : P) : option git_error * P :=
  match diff_foreach_lines line_cb (diff_lines diff) payload with
  | (None, payload') => (diff_error diff, payload')
  | stopped => stopped
  end.

Definition GIT_SORT_NONE : Z := 0.
Definition GIT_SORT_TOPOLOGICAL : Z := 1.
Definition GIT_SORT_TIME : Z := 2.
Definition GIT_SORT_REVERSE : Z := 4.

(** The state a [git_revwalk] is configured with. *)
Record git_revwalk : Type := mk_revwalk {
  walk_repo : git_repository;
  walk_sorting : Z;
  walk_pushed : list git_oid;
  walk_hidden : list git_oid;
  walk_first_parent : bool
}.

(** The parts of libgit2 the bindings call and whose algorithms are its own:
    revision parsing, references, the tree diff, merge bases, the order a
    walk yields its commits in, and the number of CPUs. *)
Class Libgit2 : Type := {
  git_revparse_single : git_repository -> string -> git_result git_object;
  git_reference_name_to_id : git_repository -> string -> git_result git_oid;
  git_diff_tree_to_tree :
    git_repository -> option git_tree -> option git_tree -> git_result git_diff;
  (** the bases of the given commits, best first; never an empty success *)
  git_merge_bases_many :
    git_repository -> list git_oid -> git_result (git_oid * list git_oid);
  (** [git_revwalk_push] and [git_revwalk_hide] refuse an id that is no
      commit of the repository *)
  revwalk_push_error : git_repository -> git_oid -> option git_error;
  (** what [git_revwalk_next] yields, call after call, and the error that
      ends the walk ([GIT_ITEROVER] when it is complete) *)
  revwalk_commits : git_revwalk -> list git_oid * git_error;
  git_online_cpus : Z;
  (** libgit2 reports a failure by a negative code *)
  git_diff_tree_to_tree_fails : forall repo old new e,
    git_diff_tree_to_tree repo old new = git_fail e -> error_code e < 0;
  git_diff_foreach_fails : forall repo old new diff e,
    git_diff_tree_to_tree repo old new = git_ok diff ->
    diff_error diff = Some e -> error_code e < 0
}.

Definition git_revwalk_new (repo : git_repository) : git_revwalk :=
  mk_revwalk repo GIT_SORT_NONE [] [] false.

Definition git_revwalk_sorting (walk : git_revwalk) (sort_mode : Z) : git_revwalk :=
  mk_revwalk (walk_repo walk) sort_mode (walk_pushed walk) (walk_hidden walk)
    (walk_first_parent walk).

Definition git_revwalk_simplify_first_parent (walk : git_revwalk) : git_revwalk :=
  mk_revwalk (walk_repo walk) (walk_sorting walk) (walk_pushed walk)
    (walk_hidden walk) true.

Definition git_revwalk_push `{Libgit2} (walk : git_revwalk) (id : git_oid)
    : git_result git_revwalk :=
  match revwalk_push_error (walk_repo walk) id with
  | Some e => git_fail e
  | None =>
      git_ok (mk_revwalk (walk_repo walk) (walk_sorting walk)
                (walk_pushed walk ++ [id]) (walk_hidden walk) (walk_first_parent walk))
  end.

Definition git_revwalk_hide `{Libgit2} (walk : git_revwalk) (id : git_oid)
    : git_result git_revwalk :=
  match revwalk_push_error (walk_repo walk) id with
  | Some e => git_fail e
  | None =>
      git_ok (mk_revwalk (walk_repo walk) (walk_sorting walk)
                (walk_pushed walk) (walk_hidden walk ++ [id]) (walk_first_parent walk))
  end.

(** ** Ruby values and exceptions *)

(** [struct commit_stats] of rugged_revwalk.c: two [size_t] counters, the
    two signatures (pointers, NULL after a [memset]) and the commit id. *)
Record commit_stats : Type := mk_commit_stats {
  adds : Z;
  dels : Z;
  committer : option git_signature;
  author : option git_signature;
  oid : git_oid
}.

#[warnings="-register-all"]
Inductive VALUE : Type :=
| Qnil
| Qtrue
| Qfalse
| rb_fixnum (n : Z)
| rb_str (s : string)
| rb_repo (repo : git_repository)
| rb_object (owner : git_repository) (o : git_object)
| rb_commit_stats (s : commit_stats)
| rb_ary (l : list VALUE).

Inductive rb_exception : Type :=
| rb_eRuggedError (e : git_error)
| rb_eTypeError (msg : string)
| rb_eArgError (msg : string)
| rb_eRangeError (msg : string)
| rb_eSystemCallError (errno : Z).

Inductive rb_result (A : Type) : Type :=
| rb_return (v : A)
| rb_raise (e : rb_exception).
Arguments rb_return {A} v.
Arguments rb_raise {A} e.

Definition rb_bind {A B : Type} (m : rb_result A) (k : A -> rb_result B)
    : rb_result B :=
  match m with
  | rb_return v => k v
  | rb_raise e => rb_raise e
  end.

(** [rugged_exception_check]: a failed libgit2 call is raised as the Rugged
    error of the class [giterr_last] holds. *)
Definition rugged_exception_check {A : Type} (r : git_result A) : rb_result A :=
  match r with
  | git_ok a => rb_return a
  | git_fail e => rb_raise (rb_eRuggedError e)
  end.

#[global] Instance rb_result_ret : MRet rb_result := @rb_return.
#[global] Instance rb_result_bind : MBind rb_result :=
  fun A B k m => rb_bind m k.

Definition RTEST (v : VALUE) : bool :=
  match v with
  | Qnil | Qfalse => false
  | _ => true
  end.

Definition rugged_object_new (owner : git_repository) (o : git_object) : VALUE :=
  rb_object owner o.

(** ** rugged_commit.c: parents and parent *)

(** The loop of [rb_git_commit_parents_GET]: [remaining] iterations are left,
    the next index is [n]. *)
Fixpoint parents_GET_loop (owner : git_repository) (commit : git_commit)
    (remaining : nat) (n : Z) (ret_arr : list VALUE) : rb_result (list VALUE) :=
  match remaining with
  | O => rb_return ret_arr
  | S k =>
      parent ← rugged_exception_check (git_commit_parent owner commit n);
      parents_GET_loop owner commit k (n + 1)
        (ret_arr ++ [rugged_object_new owner (ObjCommit parent)])
  end.

Definition rb_git_commit_parents_GET (owner : git_repository)
    (commit : git_commit) : rb_result VALUE :=
  let parent_count := git_commit_parentcount commit in
  ret_arr ← parents_GET_loop owner commit (Z.to_nat parent_count) 0 [];
  rb_return (rb_ary ret_arr).

Definition rb_git_commit_parent_GET (owner : git_repository)
    (commit : git_commit) : rb_result VALUE :=
  if 0 <? git_commit_parentcount commit then
    parent ← rugged_exception_check (git_commit_parent owner commit 0);
    rb_return (rugged_object_new owner (ObjCommit parent))
  else
    rb_return Qnil.

(** The loop of [rb_git_commit_parent_ids_GET]. *)
Fixpoint parent_ids_GET_loop (commit : git_commit) (remaining : nat) (n : Z)
    (ret_arr : list git_oid) : list git_oid :=
  match remaining with
  | O => ret_arr
  | S k =>
      match git_commit_parent_id commit n with
      | Some parent_id => parent_ids_GET_loop commit k (n + 1) (ret_arr ++ [parent_id])
      | None => parent_ids_GET_loop commit k (n + 1) ret_arr
      end
  end.

Definition rb_git_commit_parent_ids_GET (commit : git_commit) : list git_oid :=
  parent_ids_GET_loop commit (Z.to_nat (git_commit_parentcount commit)) 0 [].

(** ** rugged_object.c *)

Inductive rb_class : Type :=
| rb_cRuggedObject
| rb_cRuggedCommit
| rb_cRuggedTagAnnotation
| rb_cRuggedBlob
| rb_cRuggedTree.

Definition class2otype (klass : rb_class) : git_otype :=
  match klass with
  | rb_cRuggedCommit => GIT_OBJ_COMMIT
  | rb_cRuggedTagAnnotation => GIT_OBJ_TAG
  | rb_cRuggedBlob => GIT_OBJ_BLOB
  | rb_cRuggedTree => GIT_OBJ_TREE
  | rb_cRuggedObject => GIT_OBJ_BAD
  end.

(** [Check_Type (v, T_STRING)] *)
Definition Check_Type_T_STRING (v : VALUE) : rb_result string :=
  match v with
  | rb_str s => rb_return s
  | _ => rb_raise (rb_eTypeError "wrong argument type (expected String)")
  end.

(** The Integers that are Fixnums where a [long] has 64 bits: those of 63
    bits.  An [rb_fixnum] outside of them stands for a Bignum. *)
Definition FIXNUM_MAX : Z := 2 ^ 62 - 1.
Definition FIXNUM_MIN : Z := - 2 ^ 62.
Definition FIXABLE (n : Z) : bool := (FIXNUM_MIN <=? n) && (n <=? FIXNUM_MAX).

(** [Check_Type (v, T_FIXNUM)]: a Bignum is refused like any other value
    that is no Fixnum. *)
Definition Check_Type_T_FIXNUM (v : VALUE) : rb_result Z :=
  match v with
  | rb_fixnum n =>
      if FIXABLE n then rb_return n
      else rb_raise (rb_eTypeError "wrong argument type (expected Fixnum)")
  | _ => rb_raise (rb_eTypeError "wrong argument type (expected Fixnum)")
  end.

Definition rugged_check_repo (v : VALUE) : rb_result git_repository :=
  match v with
  | rb_repo repo => rb_return repo
  | _ => rb_raise (rb_eTypeError "Expecting a Rugged Repository")
  end.

(** [RSTRING_LEN], a [long]. *)
Definition RSTRING_LEN (s : string) : Z := Z.of_nat (String.length s).

Definition rb_git_object_lookup (klass : rb_class) (rb_repo rb_hex : VALUE)
    : rb_result VALUE :=
  let type := class2otype klass in
  let type := if bool_decide (type = GIT_OBJ_BAD) then GIT_OBJ_ANY else type in
  hex ← Check_Type_T_STRING rb_hex;
  let oid_length := to_int (RSTRING_LEN hex) in
  repo ← rugged_check_repo rb_repo;
  if GIT_OID_HEXSZ <? oid_length then
    rb_raise (rb_eTypeError "The given OID is too long")
  else
    oid ← rugged_exception_check (git_oid_fromstrn hex (to_size_t oid_length));
    object ← rugged_exception_check
      (if oid_length <? GIT_OID_HEXSZ
       then git_object_lookup_prefix repo oid (to_size_t oid_length) type
       else git_object_lookup repo oid type);
    rb_return (rugged_object_new repo object).

Definition rb_git_object_exists (klass : rb_class) (rb_repo rb_hex : VALUE)
    : rb_result VALUE :=
  let type := class2otype klass in
  let type := if bool_decide (type = GIT_OBJ_BAD) then GIT_OBJ_ANY else type in
  hex ← Check_Type_T_STRING rb_hex;
  let oid_length := to_int (RSTRING_LEN hex) in
  repo ← rugged_check_repo rb_repo;
  if GIT_OID_HEXSZ <? oid_length then rb_return Qfalse
  else
    match git_oid_fromstrn hex (to_size_t oid_length) with
    | git_fail _ => rb_return Qfalse
    | git_ok oid =>
        match git_object_lookup_prefix repo oid (to_size_t oid_length) type with
        | git_fail _ => rb_return Qfalse
        | git_ok _ => rb_return Qtrue
        end
    end.

Definition hex_digit (v : Z) : ascii :=
  if v <? 10 then ascii_of_N (Z.to_N (48 + v)) else ascii_of_N (Z.to_N (97 + v - 10)).

Fixpoint oid_fmt_loop (n : nat) (id : Z) (acc : string) : string :=
  match n with
  | O => acc
  | S k => oid_fmt_loop k (Z.shiftr id 4) (String (hex_digit (Z.land id 15)) acc)
  end.

(** [git_oid_fmt]: the 40 lower-case hex digits of an id. *)
Definition git_oid_fmt (id : git_oid) : string := oid_fmt_loop 40 id "".

Definition rugged_create_oid (id : git_oid) : VALUE := rb_str (git_oid_fmt id).

Definition git_tag_target_id (tag : git_tag) : git_oid := tag_target_id tag.

(** The [while] loop of [rugged_commitish]: as long as the object is a tag,
    it is replaced by the tag's target.  [fuel] bounds the iterations;
    [None] is a loop that has not ended within them. *)
Fixpoint commitish_peel (fuel : nat) (repo : git_repository) (object : git_object)
    : option (git_result git_object) :=
  match object with
  | ObjTag tag =>
      match fuel with
      | O => None
      | S fuel' =>
          match git_object_lookup repo (git_tag_target_id tag) GIT_OBJ_ANY with
          | git_ok target => commitish_peel fuel' repo target
          | git_fail e => Some (git_fail e)
          end
      end
  | _ => Some (git_ok object)
  end.

Definition rugged_commitish `{Libgit2} (fuel : nat) (repo : git_repository)
    (spec : string) : option (git_result git_commit) :=
  match git_revparse_single repo spec with
  | git_fail e => Some (git_fail e)
  | git_ok object =>
      match commitish_peel fuel repo object with
      | None => None
      | Some (git_fail e) => Some (git_fail e)
      | Some (git_ok (ObjCommit commit)) => Some (git_ok commit)
      | Some (git_ok _) => Some (git_fail err_type_mismatch)
      end
  end.

(** [StringValueCStr] refuses a string with a NUL in it. *)
Definition StringValueCStr (s : string) : rb_result string :=
  if bool_decide (Ascii.zero ∈ list_ascii_of_string s)
  then rb_raise (rb_eArgError "string contains null byte")
  else rb_return s.

Definition rugged_commitish_or_treeish `{Libgit2} (fuel : nat)
    (rb_repo rb_spec : VALUE) (is_commit as_obj : bool)
    : option (rb_result VALUE) :=
  match (s ← Check_Type_T_STRING rb_spec;
         spec ← StringValueCStr s;
         repo ← rugged_check_repo rb_repo;
         rb_return (spec, repo)) with
  | rb_raise e => Some (rb_raise e)
  | rb_return (spec, repo) =>
      match rugged_commitish fuel repo spec with
      | None => None
      | Some r =>
          Some (commit ← rugged_exception_check r;
                object ← (if is_commit then rb_return (ObjCommit commit)
                          else tree ← rugged_exception_check (git_commit_tree repo commit);
                               rb_return (ObjTree tree));
                if as_obj then rb_return (rugged_object_new repo object)
                else rb_return (rugged_create_oid (git_object_id object)))
      end
  end.

Definition rb_git_object_commitish `{Libgit2} (fuel : nat) (rb_repo rb_spec : VALUE) :=
  rugged_commitish_or_treeish fuel rb_repo rb_spec true true.

(** ** rugged_commit_stats.c *)

(** [struct rb_git_commit_stats_cb_args]: two [int] counters and the path
    filter, NULL when there is none. *)
Record rb_git_commit_stats_cb_args : Type := mk_cb_args {
  args_adds : Z;
  args_dels : Z;
  path_only : option string
}.

(** [strcmp], which answers 0 for equal strings alone. *)
Definition strcmp (a b : string) : Z :=
  match String.compare a b with
  | Eq => 0
  | Lt => -1
  | Gt => 1
  end.

Definition git_commit_stats_cb (delta : git_diff_delta) (hunk : git_diff_hunk)
    (line : git_diff_line) (args : rb_git_commit_stats_cb_args)
    : Z * rb_git_commit_stats_cb_args :=
  let counted :=
    match path_only args with
    | None => true
    | Some p =>
        (strcmp p (path (old_file delta)) =? 0) && (strcmp p (path (new_file delta)) =? 0)
    end in
  if counted then
    match origin line with
    | GIT_DIFF_LINE_ADDITION =>
        (GIT_OK, mk_cb_args (to_int (args_adds args + 1)) (args_dels args) (path_only args))
    | GIT_DIFF_LINE_DELETION =>
        (GIT_OK, mk_cb_args (args_adds args) (to_int (args_dels args + 1)) (path_only args))
    | _ => (GIT_OK, args)
    end
  else (GIT_OK, args).

(** [git_commit_stats_of]: the error if any, and what [*adds] and [*dels]
    hold afterwards; they are written only when the diff could be made. *)
Definition git_commit_stats_of `{Libgit2} (repo : git_repository)
    (tree parent_tree : option git_tree) (path_filter : option string)
    (adds0 dels0 : Z) : option git_error * Z * Z :=
  match git_diff_tree_to_tree repo parent_tree tree with
  | git_fail e => (Some e, adds0, dels0)
  | git_ok diff =>
      let args := mk_cb_args 0 0 path_filter in
      let '(error, args) := git_diff_foreach diff git_commit_stats_cb args in
      (error, to_size_t (args_adds args), to_size_t (args_dels args))
  end.

Definition rugged_commit_stats_new (stats : commit_stats) : VALUE := rb_commit_stats stats.

(** The tree of the first parent: NULL, and no error, for a commit whose
    first parent cannot be found. *)
Definition first_parent_tree (repo : git_repository) (commit : git_commit)
    : git_result (option git_tree) :=
  match git_commit_parent repo commit 0 with
  | git_ok parent_commit =>
      match git_commit_tree repo parent_commit with
      | git_ok parent_tree => git_ok (Some parent_tree)
      | git_fail e => git_fail e
      end
  | git_fail e =>
      if error_code e =? GIT_ENOTFOUND then git_ok None else git_fail e
  end.

Definition rugged_commit_stats_of `{Libgit2} (repo : git_repository)
    (commit : git_commit) (path_filter : option string) : rb_result VALUE :=
  tree ← rugged_exception_check (git_commit_tree repo commit);
  let stats := mk_commit_stats 0 0 (Some (git_commit_committer commit))
                 (Some (git_commit_author commit)) (git_commit_id commit) in
  parent_tree ← rugged_exception_check (first_parent_tree repo commit);
  let '(error, stats_adds, stats_dels) :=
    git_commit_stats_of repo (Some tree) parent_tree path_filter (adds stats) (dels stats) in
  match error with
  | Some e => rb_raise (rb_eRuggedError e)
  | None =>
      rb_return (rugged_commit_stats_new
        (mk_commit_stats stats_adds stats_dels (committer stats) (author stats) (oid stats)))
  end.

Definition INT2FIX (n : Z) : VALUE := rb_fixnum n.

Definition rb_git_commit_stats_adds_GET (stats : commit_stats) : VALUE :=
  INT2FIX (to_int (adds stats)).
Definition rb_git_commit_stats_dels_GET (stats : commit_stats) : VALUE :=
  INT2FIX (to_int (dels stats)).
Definition rb_git_commit_stats_oid_GET (stats : commit_stats) : VALUE :=
  rugged_create_oid (oid stats).

(** ** rugged_revwalk.c *)

Definition git_revwalk_push_ref `{Libgit2} (walk : git_revwalk) (refname : string)
    : git_result git_revwalk :=
  match git_reference_name_to_id (walk_repo walk) refname with
  | git_ok id => git_revwalk_push walk id
  | git_fail e => git_fail e
  end.

Definition git_revwalk_hide_ref `{Libgit2} (walk : git_revwalk) (refname : string)
    : git_result git_revwalk :=
  match git_reference_name_to_id (walk_repo walk) refname with
  | git_ok id => git_revwalk_hide walk id
  | git_fail e => git_fail e
  end.

Definition push_commit_oid `{Libgit2} (walk : git_revwalk) (id : git_oid) (hide : bool)
    : rb_result git_revwalk :=
  rugged_exception_check
    (if hide then git_revwalk_hide walk id else git_revwalk_push walk id).

Definition push_commit_ref `{Libgit2} (walk : git_revwalk) (ref : string) (hide : bool)
    : rb_result git_revwalk :=
  rugged_exception_check
    (if hide then git_revwalk_hide_ref walk ref else git_revwalk_push_ref walk ref).

Definition push_commit_1 `{Libgit2} (walk : git_revwalk) (rb_commit : VALUE) (hide : bool)
    : rb_result git_revwalk :=
  match rb_commit with
  | rb_object _ object => push_commit_oid walk (git_object_id object) hide
  | _ =>
      s ← Check_Type_T_STRING rb_commit;
      match (if RSTRING_LEN s =? 40 then git_oid_fromstr s
             else git_fail (oid_error_invalid "")) with
      | git_ok commit_oid => push_commit_oid walk commit_oid hide
      | git_fail _ =>
          ref ← StringValueCStr s;
          push_commit_ref walk ref hide
      end
  end.

Definition push_commit `{Libgit2} (walk : git_revwalk) (rb_commit : VALUE) (hide : bool)
    : rb_result git_revwalk :=
  match rb_commit with
  | rb_ary entries =>
      foldl (fun acc entry => walk' ← acc; push_commit_1 walk' entry hide)
            (rb_return walk) entries
  | _ => push_commit_1 walk rb_commit hide
  end.

(** [struct walk_options]; [offset] and [limit] are [uint64_t], the flags
    are [int]. *)
Record walk_options : Type := mk_walk_options {
  rb_owner : git_repository;
  w_repo : git_repository;
  w_walk : git_revwalk;
  oid_only : Z;
  stats_only : Z;
  no_merges : Z;
  offset : Z;
  limit : Z
}.

Definition set_walk (w : walk_options) (walk : git_revwalk) : walk_options :=
  mk_walk_options (rb_owner w) (w_repo w) walk (oid_only w) (stats_only w)
    (no_merges w) (offset w) (limit w).
Definition set_oid_only (w : walk_options) (v : Z) : walk_options :=
  mk_walk_options (rb_owner w) (w_repo w) (w_walk w) v (stats_only w)
    (no_merges w) (offset w) (limit w).
Definition set_stats_only (w : walk_options) (v : Z) : walk_options :=
  mk_walk_options (rb_owner w) (w_repo w) (w_walk w) (oid_only w) v
    (no_merges w) (offset w) (limit w).
Definition set_no_merges (w : walk_options) (v : Z) : walk_options :=
  mk_walk_options (rb_owner w) (w_repo w) (w_walk w) (oid_only w) (stats_only w)
    v (offset w) (limit w).
Definition set_offset (w : walk_options) (v : Z) : walk_options :=
  mk_walk_options (rb_owner w) (w_repo w) (w_walk w) (oid_only w) (stats_only w)
    (no_merges w) v (limit w).
Definition set_limit (w : walk_options) (v : Z) : walk_options :=
  mk_walk_options (rb_owner w) (w_repo w) (w_walk w) (oid_only w) (stats_only w)
    (no_merges w) (offset w) v.

(** A Ruby options hash, keyed by the name of the symbol. *)
Definition rb_hash : Type := gmap string VALUE.
Definition rb_hash_lookup (h : rb_hash) (key : string) : VALUE :=
  default Qnil (h !! key).

Definition FIX2ULONG (n : Z) : Z := to_uint64 n.

(** [FIX2INT] where a [long] is wider than an [int]: a Fixnum an [int] does
    not hold is a RangeError that names it. *)
Definition INT_MIN : Z := - 2 ^ 31.
Definition rb_out_of_int (n : Z) : rb_exception :=
  rb_eRangeError
    ("integer " +:+ DecimalString.NilZero.string_of_int (Z.to_int n) +:+
     " too " +:+ (if n <? 0 then "small" else "big") +:+ " to convert to `int'").
Definition FIX2INT (n : Z) : rb_result Z :=
  if (n <? INT_MIN) || (INT_MAX <? n) then rb_raise (rb_out_of_int n)
  else rb_return n.

Definition load_walk_limits (w : walk_options) (rb_options : rb_hash)
    : rb_result walk_options :=
  w ← match rb_hash_lookup rb_options "offset" with
      | Qnil => rb_return w
      | rb_value => n ← Check_Type_T_FIXNUM rb_value; rb_return (set_offset w (FIX2ULONG n))
      end;
  w ← match rb_hash_lookup rb_options "limit" with
      | Qnil => rb_return w
      | rb_value => n ← Check_Type_T_FIXNUM rb_value; rb_return (set_limit w (FIX2ULONG n))
      end;
  let w := if RTEST (rb_hash_lookup rb_options "no_merges") then set_no_merges w 1 else w in
  let w := if RTEST (rb_hash_lookup rb_options "stats_only")
           then set_stats_only (set_no_merges w 1) 1 else w in
  rb_return w.

Definition load_all_options `{Libgit2} (w : walk_options) (rb_options : rb_hash)
    : rb_result walk_options :=
  w ← load_walk_limits w rb_options;
  w ← match rb_hash_lookup rb_options "sort" with
      | Qnil => rb_return w
      | rb_sort =>
          n ← Check_Type_T_FIXNUM rb_sort;
          sort_mode ← FIX2INT n;
          rb_return (set_walk w (git_revwalk_sorting (w_walk w) sort_mode))
      end;
  w ← match rb_hash_lookup rb_options "show" with
      | Qnil => rb_return w
      | rb_show => walk ← push_commit (w_walk w) rb_show false; rb_return (set_walk w walk)
      end;
  w ← match rb_hash_lookup rb_options "hide" with
      | Qnil => rb_return w
      | rb_hide => walk ← push_commit (w_walk w) rb_hide true; rb_return (set_walk w walk)
      end;
  let w := if RTEST (rb_hash_lookup rb_options "simplify")
           then set_walk w (git_revwalk_simplify_first_parent (w_walk w)) else w in
  let w := if RTEST (rb_hash_lookup rb_options "oid_only") then set_oid_only w 1 else w in
  rb_return w.

(** The line callback of the walker: it counts into the [size_t] fields of
    the stats themselves. *)
Definition rb_git_walker_stats_cb (delta : git_diff_delta) (hunk : git_diff_hunk)
    (line : git_diff_line) (stats : commit_stats) : Z * commit_stats :=
  match origin line with
  | GIT_DIFF_LINE_ADDITION =>
      (GIT_OK, mk_commit_stats (to_size_t (adds stats + 1)) (dels stats)
                 (committer stats) (author stats) (oid stats))
  | GIT_DIFF_LINE_DELETION =>
      (GIT_OK, mk_commit_stats (adds stats) (to_size_t (dels stats + 1))
                 (committer stats) (author stats) (oid stats))
  | _ => (GIT_OK, stats)
  end.

Definition apply_walk_options `{Libgit2} (w : walk_options) (commit : git_commit)
    : rb_result VALUE :=
  if negb (no_merges w =? 0) && (1 <? git_commit_parentcount commit) then
    rb_return Qnil
  else if negb (stats_only w =? 0) then
    tree ← rugged_exception_check (git_commit_tree (w_repo w) commit);
    let stats := mk_commit_stats 0 0 (Some (git_commit_committer commit))
                   (Some (git_commit_author commit)) (git_commit_id commit) in
    right_tree ← rugged_exception_check (first_parent_tree (w_repo w) commit);
    diff ← rugged_exception_check
             (git_diff_tree_to_tree (w_repo w) right_tree (Some tree));
    match git_diff_foreach diff rb_git_walker_stats_cb stats with
    | (Some e, _) => rb_raise (rb_eRuggedError e)
    | (None, stats) => rb_return (rb_commit_stats stats)
    end
  else
    rb_return (rugged_object_new (rb_owner w) (ObjCommit commit)).

(** [rb_protect]: the value of the call, or nil and the exception it
    raised. *)
Definition rb_protect (r : rb_result VALUE) : VALUE * option rb_exception :=
  match r with
  | rb_return v => (v, None)
  | rb_raise e => (Qnil, Some e)
  end.

(** One turn of the loop of [do_walk] for a commit past the offset, up to
    the yield. *)
Inductive walk_visit_result : Type :=
| visit_skip
| visit_yield (result : VALUE)
| visit_raise (e : rb_exception).

Definition walk_visit `{Libgit2} (w : walk_options) (commit_oid : git_oid)
    : walk_visit_result :=
  if negb (oid_only w =? 0) then visit_yield (rugged_create_oid commit_oid)
  else
    match git_commit_lookup (w_repo w) commit_oid with
    | git_fail e => visit_raise (rb_eRuggedError e)
    | git_ok commit =>
        match rb_protect (apply_walk_options w commit) with
        | (Qnil, _) => visit_skip
        | (_, Some e) => visit_raise e
        | (result, None) => visit_yield result
        end
    end.

(** The loop of [do_walk] over the ids [git_revwalk_next] hands out, ended
    by the error [last]: the values yielded to the block, in order, and how
    the function ends. *)
Fixpoint do_walk_loop `{Libgit2} (w : walk_options) (commits : list git_oid)
    (last : git_error) : list VALUE * rb_result VALUE :=
  match commits with
  | [] =>
      ([], if error_code last =? GIT_ITEROVER then rb_return Qnil
           else rb_raise (rb_eRuggedError last))
  | commit_oid :: rest =>
      if 0 <? offset w then
        do_walk_loop (set_offset w (to_uint64 (offset w - 1))) rest last
      else
        match walk_visit w commit_oid with
        | visit_skip => do_walk_loop w rest last
        | visit_raise e => ([], rb_raise e)
        | visit_yield result =>
            let w := set_limit w (to_uint64 (limit w - 1)) in
            if limit w =? 0 then ([result], rb_return Qnil)
            else
              let '(yielded, r) := do_walk_loop w rest last in
              (result :: yielded, r)
        end
  end.

Definition do_walk `{Libgit2} (w : walk_options) : list VALUE * rb_result VALUE :=
  let '(commits, last) := revwalk_commits (w_walk w) in
  do_walk_loop w commits last.

(** [Rugged::Walker.walk (repo, options) { block }].  [no_merges] is not
    set before the options are read: [uninitialized] is what the field of
    the local [struct walk_options] happens to hold. *)
Definition rb_git_walk `{Libgit2} (repo : git_repository) (rb_options : option rb_hash)
    (uninitialized : Z) : list VALUE * rb_result VALUE :=
  let w := mk_walk_options repo repo (git_revwalk_new repo) 0 0 uninitialized
             0 UINT64_MAX in
  match rb_options with
  | None => do_walk w
  | Some options =>
      match load_all_options w options with
      | rb_raise e => ([], rb_raise e)
      | rb_return w => do_walk w
      end
  end.

(** [walker.each] and [walker.each_oid] on a walker set up before. *)
Definition rb_git_walk_with_opts `{Libgit2} (self : git_revwalk)
    (rb_options : option rb_hash) (each_oid : Z) (uninitialized : Z)
    : list VALUE * rb_result VALUE :=
  let w := mk_walk_options (walk_repo self) (walk_repo self) self each_oid 0
             uninitialized 0 UINT64_MAX in
  match rb_options with
  | None => do_walk w
  | Some options =>
      match load_walk_limits w options with
      | rb_raise e => ([], rb_raise e)
      | rb_return w => do_walk w
      end
  end.

(** ** rugged_commit.c: diff_between_repos *)

(** The first [while] loop of [rb_git_commit_diff_between_repos], entered
    with [oid1] pointing at the id [id]: the id the loop ends on, or NULL
    when the root was passed; a commit that cannot be looked up in [repo1]
    ends it with an error.  [fuel] bounds the iterations. *)
Fixpoint diff_between_repos_probe (fuel : nat) (repo1 : git_repository)
    (odb2 : git_odb) (id : git_oid) : option (git_result (option git_oid)) :=
  if git_odb_exists odb2 id then Some (git_ok (Some id))
  else
    match fuel with
    | O => None
    | S fuel' =>
        match git_commit_lookup repo1 id with
        | git_fail e => Some (git_fail e)
        | git_ok commit1 =>
            match git_commit_parent_id commit1 0 with
            | Some parent_oid => diff_between_repos_probe fuel' repo1 odb2 parent_oid
            | None => Some (git_ok None)
            end
        end
    end.

(** The last loop: every id the walk hands out, as a string. *)
Definition revwalk_collect_oids `{Libgit2} (walk : git_revwalk) : rb_result VALUE :=
  let '(commits, last) := revwalk_commits walk in
  if error_code last =? GIT_ITEROVER
  then rb_return (rb_ary (map rugged_create_oid commits))
  else rb_raise (rb_eRuggedError last).

Definition rb_git_commit_diff_between_repos `{Libgit2} (fuel : nat)
    (rb_repo1 rb_commit1 rb_repo2 rb_commit2 : VALUE) : option (rb_result VALUE) :=
  match (repo1 ← rugged_check_repo rb_repo1;
         repo2 ← rugged_check_repo rb_repo2;
         commit1 ← Check_Type_T_STRING rb_commit1;
         commit2 ← Check_Type_T_STRING rb_commit2;
         if (RSTRING_LEN commit1 <? GIT_OID_HEXSZ) || (RSTRING_LEN commit2 <? GIT_OID_HEXSZ)
         then rb_raise (rb_eArgError "The given OID is too short")
         else if (GIT_OID_HEXSZ <? RSTRING_LEN commit1) || (GIT_OID_HEXSZ <? RSTRING_LEN commit2)
         then rb_raise (rb_eArgError "The given OID is too long")
         else
           oid1 ← rugged_exception_check (git_oid_fromstr commit1);
           oid2 ← rugged_exception_check (git_oid_fromstr commit2);
           rb_return (repo1, repo2, oid1, oid2)) with
  | rb_raise e => Some (rb_raise e)
  | rb_return (repo1, repo2, oid1, oid2) =>
      let odb2 := git_repository_odb repo2 in
      match diff_between_repos_probe fuel repo1 odb2 oid1 with
      | None => None
      | Some (git_fail e) => Some (rb_raise (rb_eRuggedError e))
      | Some (git_ok found) =>
          Some (
            hidden ← match found with
                     | None => rb_return None
                     | Some matched =>
                         match git_merge_bases_many repo2 [matched; oid2] with
                         | git_ok (base, _) => rb_return (Some base)
                         | git_fail e =>
                             if error_code e =? GIT_ENOTFOUND then rb_return None
                             else rb_raise (rb_eRuggedError e)
                         end
                     end;
            let walk := git_revwalk_sorting (git_revwalk_new repo2) GIT_SORT_TIME in
            walk ← rugged_exception_check
                     (match git_revwalk_push walk oid2 with
                      | git_ok walk =>
                          match hidden with
                          | Some base => git_revwalk_hide walk base
                          | None => git_ok walk
                          end
                      | git_fail e => git_fail e
                      end);
            revwalk_collect_oids walk)
      end
  end.

(** ** rugged_commit.c: the stats of a batch of commits *)

(** [struct commit_stat_task], once the first loop of [rb_git_commit_stats]
    has filled it in. *)
Record commit_stat_task : Type := mk_task {
  task_tree : git_tree;
  task_parent_tree : option git_tree;
  task_stats : commit_stats
}.

(** [struct commit_stat_tasks]; [top] is an [int], [tasks_nr] a [size_t].
    The mutex is the atomicity of [claim] below. *)
Record commit_stat_tasks : Type := mk_tasks {
  tasks_repo : git_repository;
  top : Z;
  tasks_nr : Z;
  tasks : list commit_stat_task
}.

(** Where a thread running [commit_stat_task_proc] stands: before
    [pthread_mutex_lock], past [pthread_mutex_unlock] with a task in hand,
    or returned with its error. *)
Inductive worker : Type :=
| at_lock
| at_work (current_task : nat)
| returned (error : Z).

(** Between lock and unlock: the next task, or NULL when none is left. *)
Definition claim (payload : commit_stat_tasks) : commit_stat_tasks * option nat :=
  if tasks_nr payload <=? to_size_t (top payload) then (payload, None)
  else
    (mk_tasks (tasks_repo payload) (to_int (top payload + 1)) (tasks_nr payload)
       (tasks payload),
     Some (Z.to_nat (top payload))).

(** [git_commit_stats_of] on the task in hand, writing its two counters;
    the error code it returns. *)
Definition work `{Libgit2} (payload : commit_stat_tasks) (current_task : nat)
    : commit_stat_tasks * Z :=
  match tasks payload !! current_task with
  | None => (payload, GIT_ERROR)
  | Some task =>
      let current_stats := task_stats task in
      let '(error, stats_adds, stats_dels) :=
        git_commit_stats_of (tasks_repo payload) (Some (task_tree task))
          (task_parent_tree task) None (adds current_stats) (dels current_stats) in
      let task' :=
        mk_task (task_tree task) (task_parent_tree task)
          (mk_commit_stats stats_adds stats_dels (committer current_stats)
             (author current_stats) (oid current_stats)) in
      (mk_tasks (tasks_repo payload) (top payload) (tasks_nr payload)
         (<[current_task := task']> (tasks payload)),
       match error with
       | None => GIT_OK
       | Some e => error_code e
       end)
  end.

(** The threads of the pool and the payload they share. *)
Record pool : Type := mk_pool {
  payload : commit_stat_tasks;
  threads : list worker
}.

(** What the scheduler may let happen next: thread [t] takes its next step,
    or its next call of [pthread_mutex_lock] or [pthread_mutex_unlock]
    fails. *)
Inductive event : Type :=
| ev_run (t : nat)
| ev_lock_fails (t : nat)
| ev_unlock_fails (t : nat).

Definition pool_step `{Libgit2} (p : pool) (ev : event) : pool :=
  match ev with
  | ev_run t =>
      match threads p !! t with
      | Some at_lock =>
          let '(payload', current_task) := claim (payload p) in
          mk_pool payload'
            (<[t := match current_task with
                    | None => returned 0
                    | Some i => at_work i
                    end]> (threads p))
      | Some (at_work i) =>
          let '(payload', error) := work (payload p) i in
          mk_pool payload'
            (<[t := if error =? GIT_OK then at_lock else returned error]> (threads p))
      | _ => p
      end
  | ev_lock_fails t =>
      match threads p !! t with
      | Some at_lock => mk_pool (payload p) (<[t := returned (-1)]> (threads p))
      | _ => p
      end
  | ev_unlock_fails t =>
      match threads p !! t with
      | Some at_lock =>
          mk_pool (claim (payload p)).1 (<[t := returned (-1)]> (threads p))
      | _ => p
      end
  end.

Definition pool_run `{Libgit2} (p : pool) (schedule : list event) : pool :=
  foldl pool_step p schedule.

(** The loop of [pthread_join]s: the first error a thread returned, zero
    when all returned zero; [None] while a thread to be joined still runs. *)
Fixpoint join_threads (ths : list worker) : option Z :=
  match ths with
  | [] => Some 0
  | returned error :: rest => if error =? GIT_OK then join_threads rest else Some error
  | _ :: _ => None
  end.

(** [Data_Get_Struct (rb_commit, git_commit, commit)]: the commit and the
    repository that owns it. *)
Definition Data_Get_Struct_commit (v : VALUE) : rb_result (git_repository * git_commit) :=
  match v with
  | rb_object owner (ObjCommit commit) => rb_return (owner, commit)
  | _ => rb_raise (rb_eTypeError "wrong argument type (expected Data)")
  end.

(** One turn of the first loop of [rb_git_commit_stats]. *)
Definition prepare_task (owner : git_repository) (commit : git_commit)
    : git_result commit_stat_task :=
  match first_parent_tree owner commit with
  | git_fail e => git_fail e
  | git_ok parent_tree =>
      match git_commit_tree owner commit with
      | git_fail e => git_fail e
      | git_ok tree =>
          git_ok (mk_task tree parent_tree
                    (mk_commit_stats 0 0 (Some (git_commit_committer commit))
                       (Some (git_commit_author commit)) (git_commit_id commit)))
      end
  end.

Fixpoint prepare_tasks (rb_commits : list VALUE) : rb_result (list commit_stat_task) :=
  match rb_commits with
  | [] => rb_return []
  | rb_commit :: rest =>
      '(owner, commit) ← Data_Get_Struct_commit rb_commit;
      task ← rugged_exception_check (prepare_task owner commit);
      prepared ← prepare_tasks rest;
      rb_return (task :: prepared)
  end.

(** The size of the pool: [git_online_cpus ()] threads, and no more than
    there are commits. *)
Definition batch_nr_threads `{Libgit2} (arrlen : Z) : Z :=
  let nr_threads := to_size_t git_online_cpus in
  if arrlen <? nr_threads then arrlen else nr_threads.

(** [Rugged::Commit.stats (repo, commits)], with the threads of the pool
    interleaved as [schedule] says; [pthread_mutex_init], [pthread_create]
    and [pthread_join] themselves are taken to succeed.  [None] when the
    schedule ends before the threads the main thread joins have returned. *)
Definition rb_git_commit_stats `{Libgit2} (rb_repo rb_commits : VALUE)
    (schedule : list event) : option (rb_result VALUE) :=
  match rb_commits with
  | rb_ary commits =>
      match rugged_check_repo rb_repo with
      | rb_raise e => Some (rb_raise e)
      | rb_return repo =>
          let arrlen := Z.of_nat (List.length commits) in
          let nr_threads := batch_nr_threads arrlen in
          match prepare_tasks commits with
          | rb_raise e => Some (rb_raise e)
          | rb_return prepared =>
              let started :=
                mk_pool (mk_tasks repo 0 arrlen prepared)
                        (replicate (Z.to_nat nr_threads) at_lock) in
              let finished := pool_run started schedule in
              match join_threads (threads finished) with
              | None => None
              | Some error =>
                  Some (if error =? GIT_OK then
                          rb_return (rb_ary (map (fun task => rugged_commit_stats_new (task_stats task))
                                                 (tasks (payload finished))))
                        else if error <? 0 then
                          rb_raise (rb_eRuggedError (mk_git_error error GITERR_NONE ""))
                        else rb_return Qnil)
              end
          end
      end
  | _ => Some (rb_raise (rb_eTypeError "wrong argument type (expected Array)"))
  end.

(** ** rugged_object.c: ids, equality and revision parsing *)

(** [RSTRING_PTR], read as a C string: the characters before the first NUL. *)
Fixpoint RSTRING_PTR (s : string) : string :=
  match s with
  | EmptyString => EmptyString
  | String c rest =>
      if bool_decide (c = Ascii.zero) then EmptyString else String c (RSTRING_PTR rest)
  end.

(** [rugged_oid_get]: the id a Ruby value stands for.  The error code of a
    failed revision parse is returned, not raised; the argument checks raise. *)
Definition rugged_oid_get `{Libgit2} (repo : git_repository) (p : VALUE)
    : rb_result (git_result git_oid) :=
  match p with
  | rb_object _ object => rb_return (git_ok (git_object_id object))
  | _ =>
      s ← Check_Type_T_STRING p;
      match (if RSTRING_LEN s =? 40 then git_oid_fromstr s
             else git_fail (oid_error_invalid "")) with
      | git_ok id => rb_return (git_ok id)
      | git_fail _ =>
          spec ← StringValueCStr s;
          match git_revparse_single repo spec with
          | git_fail e => rb_return (git_fail e)
          | git_ok object => rb_return (git_ok (git_object_id object))
          end
      end
  end.

(** [rugged_object_get]: the object a Ruby value stands for, of the type
    asked for. *)
Definition rugged_object_get `{Libgit2} (repo : git_repository) (object_value : VALUE)
    (type : git_otype) : rb_result git_object :=
  let of_required_type (object : git_object) : rb_result git_object :=
    if negb (bool_decide (type = GIT_OBJ_ANY)) &&
       negb (bool_decide (git_object_type object = type))
    then rb_raise (rb_eArgError "Object is not of the required type")
    else rb_return object in
  match object_value with
  | rb_object _ owned_obj => of_required_type owned_obj
  | _ =>
      s ← Check_Type_T_STRING object_value;
      match (if RSTRING_LEN s =? 40 then git_oid_fromstr s
             else git_fail (oid_error_invalid "")) with
      | git_ok id => rugged_exception_check (git_object_lookup repo id type)
      | git_fail _ =>
          spec ← StringValueCStr s;
          object ← rugged_exception_check (git_revparse_single repo spec);
          of_required_type object
      end
  end.

Definition rugged_object_rev_parse `{Libgit2} (rb_repo rb_spec : VALUE) (as_obj : bool)
    : rb_result VALUE :=
  s ← Check_Type_T_STRING rb_spec;
  let spec := RSTRING_PTR s in
  repo ← rugged_check_repo rb_repo;
  object ← rugged_exception_check (git_revparse_single repo spec);
  if as_obj then rb_return (rugged_object_new repo object)
  else rb_return (rugged_create_oid (git_object_id object)).

Definition rb_git_object_rev_parse `{Libgit2} (rb_repo rb_spec : VALUE) : rb_result VALUE :=
  rugged_object_rev_parse rb_repo rb_spec true.

Definition rb_git_object_rev_parse_oid `{Libgit2} (rb_repo rb_spec : VALUE)
    : rb_result VALUE :=
  rugged_object_rev_parse rb_repo rb_spec false.

Definition rb_git_object_commitish_id `{Libgit2} (fuel : nat) (rb_repo rb_spec : VALUE) :=
  rugged_commitish_or_treeish fuel rb_repo rb_spec true false.

Definition rb_git_object_treeish `{Libgit2} (fuel : nat) (rb_repo rb_spec : VALUE) :=
  rugged_commitish_or_treeish fuel rb_repo rb_spec false true.

Definition rb_git_object_treeish_id `{Libgit2} (fuel : nat) (rb_repo rb_spec : VALUE) :=
  rugged_commitish_or_treeish fuel rb_repo rb_spec false false.

(** [object == other] *)
Definition rb_git_object_equal (a : git_object) (other : VALUE) : VALUE :=
  match other with
  | rb_object _ b =>
      if bool_decide (git_object_id a = git_object_id b) then Qtrue else Qfalse
  | _ => Qfalse
  end.

Definition rb_git_object_oid_GET (object : git_object) : VALUE :=
  rugged_create_oid (git_object_id object).

(** ** rugged_commit.c: tree and time *)

Definition git_commit_tree_id (c : git_commit) : git_oid := commit_tree_id c.

(** [git_commit_time]: the time of the committer's signature, a signed
    64-bit [git_time_t]. *)
Definition git_commit_time (c : git_commit) : Z := sig_time (commit_committer c).

Definition rb_git_commit_tree_GET (owner : git_repository) (commit : git_commit)
    : rb_result VALUE :=
  tree ← rugged_exception_check (git_commit_tree owner commit);
  rb_return (rugged_object_new owner (ObjTree tree)).

Definition rb_git_commit_tree_id_GET (commit : git_commit) : VALUE :=
  rugged_create_oid (git_commit_tree_id commit).

(** [ULONG2NUM]: the Integer of an [unsigned long], whatever its size. *)
Definition ULONG2NUM (n : Z) : VALUE := rb_fixnum n.

(** The [git_time_t] is passed where an [unsigned long] is expected. *)
Definition rb_git_commit_epoch_time_GET (commit : git_commit) : VALUE :=
  ULONG2NUM (to_uint64 (git_commit_time commit)).

(** ** rugged_revwalk.c: the methods of a walker *)

Definition rb_git_walker_new (repo : git_repository) : git_revwalk :=
  git_revwalk_new repo.

(** [walker.push] and [walker.hide]: the walker after the call. *)
Definition rb_git_walker_push `{Libgit2} (self : git_revwalk) (rb_commit : VALUE)
    : rb_result git_revwalk :=
  push_commit self rb_commit false.

Definition rb_git_walker_hide `{Libgit2} (self : git_revwalk) (rb_commit : VALUE)
    : rb_result git_revwalk :=
  push_commit self rb_commit true.

Definition rb_git_walker_each `{Libgit2} (self : git_revwalk)
    (rb_options : option rb_hash) (uninitialized : Z) : list VALUE * rb_result VALUE :=
  rb_git_walk_with_opts self rb_options 0 uninitialized.

Definition rb_git_walker_each_oid `{Libgit2} (self : git_revwalk)
    (rb_options : option rb_hash) (uninitialized : Z) : list VALUE * rb_result VALUE :=
  rb_git_walk_with_opts self rb_options 1 uninitialized.

(** ** rugged_commit.c: writing a commit *)

(** libgit2's [git_commit_create] writes the commit (and moves the reference
    [update_ref] when there is one): it gives the repository afterwards and
    the id of the new commit or the error. *)
Class Libgit2Write : Type := {
  git_commit_create :
    git_repository -> option string -> git_signature -> git_signature -> string ->
    git_tree -> list git_commit -> git_repository * git_result git_oid
}.

(** [rb_hash_aref] on a hash without a default. *)
Definition rb_hash_aref (h : rb_hash) (key : string) : VALUE := rb_hash_lookup h key.

(** [Check_Type (v, T_ARRAY)] *)
Definition Check_Type_T_ARRAY (v : VALUE) : rb_result (list VALUE) :=
  match v with
  | rb_ary l => rb_return l
  | _ => rb_raise (rb_eTypeError "wrong argument type (expected Array)")
  end.

(** The loop of [rb_git_commit_create] over the entries of [:parents]: nil
    is passed over, a string is read as an id and looked up, a commit is
    taken as it is.  Every way out of the loop but its end leads to an
    exception once the cleanup is done. *)
Fixpoint create_parents_loop (repo : git_repository) (rb_parents : list VALUE)
    (parents : list git_commit) : rb_result (list git_commit) :=
  match rb_parents with
  | [] => rb_return parents
  | p :: rest =>
      match p with
      | Qnil => create_parents_loop repo rest parents
      | rb_str s =>
          cstr ← StringValueCStr s;
          id ← rugged_exception_check (git_oid_fromstr cstr);
          parent ← rugged_exception_check (git_commit_lookup repo id);
          create_parents_loop repo rest (parents ++ [parent])
      | rb_object _ (ObjCommit parent) =>
          create_parents_loop repo rest (parents ++ [parent])
      | _ => rb_raise (rb_eTypeError "Invalid type for parent object")
      end
  end.

(** [Commit.create (repo, data)].  [committer_get] and [author_get] are what
    [rugged_signature_get] of rugged_signature.c makes of the entries
    [:committer] and [:author].  The first component is the repository after
    [git_commit_create], when the call got that far. *)
Definition rb_git_commit_create `{Libgit2} `{Libgit2Write} (rb_repository : VALUE)
    (rb_data : rb_hash) (committer_get author_get : rb_result git_signature)
    : option git_repository * rb_result VALUE :=
  match (repo ← rugged_check_repo rb_repository;
         update_ref ← match rb_hash_aref rb_data "update_ref" with
                      | Qnil => rb_return None
                      | rb_ref =>
                          s ← Check_Type_T_STRING rb_ref;
                          cstr ← StringValueCStr s;
                          rb_return (Some cstr)
                      end;
         rb_message ← Check_Type_T_STRING (rb_hash_aref rb_data "message");
         committer ← committer_get;
         author ← author_get;
         rb_parents ← Check_Type_T_ARRAY (rb_hash_aref rb_data "parents");
         tree ← (object ← rugged_object_get repo (rb_hash_aref rb_data "tree") GIT_OBJ_TREE;
                 match object with
                 | ObjTree tree => rb_return tree
                 | _ => rb_raise (rb_eArgError "Object is not of the required type")
                 end);
         parents ← create_parents_loop repo
                     (take (Z.to_nat (to_int (Z.of_nat (List.length rb_parents)))) rb_parents)
                     [];
         message ← StringValueCStr rb_message;
         rb_return (repo, update_ref, author, committer, message, tree, parents)) with
  | rb_raise e => (None, rb_raise e)
  | rb_return (repo, update_ref, author, committer, message, tree, parents) =>
      let '(written, error) :=
        git_commit_create repo update_ref author committer message tree parents in
      (Some written, commit_oid ← rugged_exception_check error;
                     rb_return (rugged_create_oid commit_oid))
  end.

(** * Sample data

    ** A small repository used to exercise the definitions *)

Definition sig_alice : git_signature := mk_signature "alice" "alice@example.org" 1000 0.
Definition sig_bob : git_signature := mk_signature "bob" "bob@example.org" 2000 60.

Definition tree_one : git_tree :=
  mk_tree 10 [("README", ["hello"; "world"]); ("src/main.c", ["int main;"])].
Definition tree_two : git_tree :=
  mk_tree 11 [("README", ["hello"; "there"]); ("src/main.c", ["int main;"])].

Definition commit_root : git_commit := mk_commit 1 10 [] sig_alice sig_alice "root".
Definition commit_second : git_commit := mk_commit 2 11 [1] sig_bob sig_alice "second".
Definition commit_side : git_commit := mk_commit 3 10 [1] sig_alice sig_bob "side".
Definition commit_merge : git_commit := mk_commit 4 11 [2; 3] sig_bob sig_bob "merge".
Definition commit_top : git_commit := mk_commit 5 10 [4] sig_alice sig_alice "top".

Definition tag_inner : git_tag := mk_tag 20 2 "v1".
Definition tag_outer : git_tag := mk_tag 21 20 "v1-signed".
Definition tag_of_tree : git_tag := mk_tag 22 10 "tree-tag".

Definition sample_repo : git_repository :=
  mk_repository (list_to_map
    [ (1, ObjCommit commit_root); (2, ObjCommit commit_second);
      (3, ObjCommit commit_side); (4, ObjCommit commit_merge);
      (5, ObjCommit commit_top);
      (10, ObjTree tree_one); (11, ObjTree tree_two);
      (20, ObjTag tag_inner); (21, ObjTag tag_outer); (22, ObjTag tag_of_tree) ]).

(** ** A small reference engine for the sample repository

    A naive implementation of the [Libgit2] interface, enough to run the
    bindings on the sample repository: tags are resolved by name, a diff
    deletes every line of a changed file and adds its new lines, and a walk
    lists the ancestors of the pushed commits breadth first. *)

Definition sample_revparse (repo : git_repository) (spec : string)
    : git_result git_object :=
  let named (kv : Z * git_object) : bool :=
    match kv.2 with
    | ObjTag t => bool_decide (tag_name t = spec)
    | _ => false
    end in
  match List.filter named (map_to_list (repo_odb repo)) with
  | (_, o) :: _ => git_ok o
  | [] =>
      match git_oid_fromstr spec with
      | git_ok id => git_object_lookup repo id GIT_OBJ_ANY
      | git_fail _ =>
          git_fail (mk_git_error GIT_ENOTFOUND GITERR_REFERENCE "Revspec not found")
      end
  end.

Definition sample_reference (repo : git_repository) (name : string)
    : git_result git_oid :=
  if bool_decide (name = "refs/heads/master") then git_ok 5
  else git_fail (mk_git_error GIT_ENOTFOUND GITERR_REFERENCE "Reference not found").

Definition lines_as (o : git_diff_line_t) (file : string) (lines : list string)
    : list (git_diff_delta * git_diff_hunk * git_diff_line) :=
  map (fun l => (mk_delta (mk_diff_file file) (mk_diff_file file), mk_hunk 1 1, mk_line o l))
      lines.

(** The diff of the empty tree against [t]: every line of every file, added. *)
Definition diff_all_added (t : git_tree)
    : list (git_diff_delta * git_diff_hunk * git_diff_line) :=
  flat_map (fun f => lines_as GIT_DIFF_LINE_ADDITION f.1 f.2) (tree_files t).

Definition file_lines (t : git_tree) (file : string) : option (list string) :=
  snd <$> List.find (fun f => bool_decide (f.1 = file)) (tree_files t).

Definition sample_diff (repo : git_repository) (old new : option git_tree)
    : git_result git_diff :=
  let old_files := from_option tree_files [] old in
  let new_files := from_option tree_files [] new in
  let changed :=
    flat_map (fun f =>
      match old ≫= (fun t => file_lines t f.1) with
      | None => lines_as GIT_DIFF_LINE_ADDITION f.1 f.2
      | Some before =>
          if bool_decide (before = f.2) then []
          else lines_as GIT_DIFF_LINE_DELETION f.1 before ++
               lines_as GIT_DIFF_LINE_ADDITION f.1 f.2
      end) new_files in
  let removed :=
    flat_map (fun f =>
      match new ≫= (fun t => file_lines t f.1) with
      | None => lines_as GIT_DIFF_LINE_DELETION f.1 f.2
      | Some _ => []
      end) old_files in
  git_ok (mk_diff (changed ++ removed) None).

(** The commits reachable from [frontier], breadth first. *)
Fixpoint sample_ancestors (fuel : nat) (odb : git_odb) (frontier seen : list git_oid)
    : list git_oid :=
  match fuel, frontier with
  | S fuel', id :: rest =>
      if bool_decide (id ∈ seen) then sample_ancestors fuel' odb rest seen
      else
        match odb !! id with
        | Some (ObjCommit c) =>
            sample_ancestors fuel' odb (rest ++ commit_parent_ids c) (seen ++ [id])
        | _ => sample_ancestors fuel' odb rest seen
        end
  | _, _ => seen
  end.

Definition sample_walk (walk : git_revwalk) : list git_oid * git_error :=
  let odb := repo_odb (walk_repo walk) in
  let hidden := sample_ancestors 100 odb (walk_hidden walk) [] in
  (List.filter (fun id => negb (bool_decide (id ∈ hidden)))
     (sample_ancestors 100 odb (walk_pushed walk) []),
   err_iterover).

Definition sample_merge_bases (repo : git_repository) (ids : list git_oid)
    : git_result (git_oid * list git_oid) :=
  let odb := repo_odb repo in
  let common :=
    match ids with
    | [] => []
    | first :: others =>
        List.filter (fun id =>
            forallb (fun other => bool_decide (id ∈ sample_ancestors 100 odb [other] []))
                    others)
          (sample_ancestors 100 odb [first] [])
    end in
  match common with
  | base :: rest => git_ok (base, rest)
  | [] => git_fail (mk_git_error GIT_ENOTFOUND GITERR_MERGE "No merge base found")
  end.

Definition sample_push_error (repo : git_repository) (id : git_oid)
    : option git_error :=
  match git_commit_lookup repo id with
  | git_ok _ => None
  | git_fail e => Some e
  end.

Definition sample_libgit2 : Libgit2 := {|
  git_revparse_single := sample_revparse;
  git_reference_name_to_id := sample_reference;
  git_diff_tree_to_tree := sample_diff;
  git_merge_bases_many := sample_merge_bases;
  revwalk_push_error := sample_push_error;
  revwalk_commits := sample_walk;
  git_online_cpus := 2;
  git_diff_tree_to_tree_fails := ltac:(discriminate);
  git_diff_foreach_fails := ltac:(intros ? ? ? ? ? [= <-]; discriminate)
|}.

(** Options for a bulk walk of the sample repository from its merge commit. *)
Definition sample_walk_hash (extra : list (string * VALUE)) : rb_hash :=
  list_to_map (("show", rb_object sample_repo (ObjCommit commit_merge)) :: extra).
Definition sample_walk_options (extra : list (string * VALUE)) : option rb_hash :=
  Some (sample_walk_hash extra).

(** A second repository: it shares the root and the second commit with the
    sample repository and has one commit of its own on top. *)
Definition commit_other : git_commit := mk_commit 6 10 [2] sig_bob sig_bob "other".

Definition sample_repo_b : git_repository :=
  mk_repository (list_to_map
    [ (1, ObjCommit commit_root); (2, ObjCommit commit_second);
      (6, ObjCommit commit_other);
      (10, ObjTree tree_one); (11, ObjTree tree_two) ]).

(** A batch of three commits of the sample repository, and a schedule that
    interleaves the two threads of its pool. *)
Definition sample_batch : list (git_repository * git_commit) :=
  [(sample_repo, commit_root); (sample_repo, commit_second); (sample_repo, commit_side)].

Definition sample_schedule : list event :=
  [ev_run 0; ev_run 1; ev_run 1; ev_run 0; ev_run 1; ev_run 1; ev_run 0; ev_run 0;
   ev_run 1]%nat.

(** * Vocabulary of the properties

    What the statements below speak of: the shape of inputs, the results a
    property promises, and the invariants of the proofs. *)

Arguments to_int : simpl never.
Arguments to_uint64 : simpl never.
Arguments to_size_t : simpl never.

(** ** Objects and tags *)

(** A string of hex digits. *)
Definition valid_hex (s : string) : Prop :=
  Forall (fun c => 0 <= git__fromhex c) (list_ascii_of_string s).

(** The chain of tags below an object: [tag_chain repo o n r] when following
    the targets of [n] tags from [o] ends in [r], an object that is no tag
    or the error of a target that cannot be looked up. *)
Inductive tag_chain (repo : git_repository)
    : git_object -> nat -> git_result git_object -> Prop :=
| chain_end o :
    git_object_type o <> GIT_OBJ_TAG -> tag_chain repo o 0 (git_ok o)
| chain_broken tag e :
    git_object_lookup repo (git_tag_target_id tag) GIT_OBJ_ANY = git_fail e ->
    tag_chain repo (ObjTag tag) 1 (git_fail e)
| chain_step tag target n r :
    git_object_lookup repo (git_tag_target_id tag) GIT_OBJ_ANY = git_ok target ->
    tag_chain repo target n r ->
    tag_chain repo (ObjTag tag) (S n) r.

(** ** Diffs and stats *)

(** A delta is [on_path p] when its old and its new file both are [p]. *)
Definition on_path (p : string) (delta : git_diff_delta) : Prop :=
  path (old_file delta) = p /\ path (new_file delta) = p.

#[global] Instance on_path_dec p delta : Decision (on_path p delta).
Proof. unfold on_path. apply _. Defined.

(** The lines of a diff whose delta is on the path. *)
Definition diff_on_path (p : string) (diff : git_diff) : git_diff :=
  mk_diff (filter (fun e => on_path p e.1.1) (diff_lines diff)) (diff_error diff).

(** The number of lines of all the files of a tree. *)
Definition tree_line_count (t : git_tree) : Z :=
  Z.of_nat (list_sum (map (fun f => List.length f.2) (tree_files t))).

(** What the diff engine answers for the empty tree against [t]: no error,
    and one added line for each line of each file of [t]. *)
Definition adds_whole_tree (t : git_tree) (diff : git_diff) : Prop :=
  diff_error diff = None /\
  Forall (fun e => origin e.2 = GIT_DIFF_LINE_ADDITION) (diff_lines diff) /\
  Z.of_nat (List.length (diff_lines diff)) = tree_line_count t.

(** ** Walks *)

(** What [do_walk] would yield for the commits of a walk with neither offset
    nor limit: the commits are visited in order until one raises. *)
Fixpoint walk_yields `{Libgit2} (w : walk_options) (commits : list git_oid)
    : list VALUE :=
  match commits with
  | [] => []
  | commit_oid :: rest =>
      match walk_visit w commit_oid with
      | visit_skip => walk_yields w rest
      | visit_yield result => result :: walk_yields w rest
      | visit_raise _ => []
      end
  end.

(** The number of results a [limit] field lets through: the counter is
    decremented before it is compared with zero, so zero stands for 2^64. *)
Definition effective_limit (l : Z) : Z := if l =? 0 then 2 ^ 64 else l.
Arguments effective_limit : simpl never.

(** A value that is the stats of a commit of [repo] with one parent at most. *)
Definition stats_of_non_merge (repo : git_repository) (v : VALUE) : Prop :=
  exists id commit stats,
    git_commit_lookup repo id = git_ok commit /\
    git_commit_parentcount commit <= 1 /\
    v = rb_commit_stats stats /\
    oid stats = git_commit_id commit.

(** The search for the cutoff, as the specification words it: from [id], the
    first parent is followed as long as the id is missing from the other
    object database; [first_parent_probe repo1 odb2 id n found] when [n]
    commits were passed and the search ended on the id [found] is [Some] of,
    or left the root behind with [found = None]. *)
Inductive first_parent_probe (repo1 : git_repository) (odb2 : git_odb)
    : git_oid -> nat -> option git_oid -> Prop :=
| probe_found id :
    is_Some (odb2 !! id) -> first_parent_probe repo1 odb2 id 0 (Some id)
| probe_root id commit :
    odb2 !! id = None ->
    git_commit_lookup repo1 id = git_ok commit ->
    commit_parent_ids commit = [] ->
    first_parent_probe repo1 odb2 id 1 None
| probe_step id commit parent others n found :
    odb2 !! id = None ->
    git_commit_lookup repo1 id = git_ok commit ->
    commit_parent_ids commit = parent :: others ->
    first_parent_probe repo1 odb2 parent n found ->
    first_parent_probe repo1 odb2 id (S n) found.

(** ** The worker pool *)

(** A task keeps the inputs the first loop gave it. *)
Definition same_inputs (task0 task : commit_stat_task) : Prop :=
  task_tree task = task_tree task0 /\
  task_parent_tree task = task_parent_tree task0 /\
  oid (task_stats task) = oid (task_stats task0) /\
  author (task_stats task) = author (task_stats task0) /\
  committer (task_stats task) = committer (task_stats task0).

(** A task holds the counts of the diff of its two trees. *)
Definition task_done `{Libgit2} (repo : git_repository) (task : commit_stat_task) : Prop :=
  git_commit_stats_of repo (Some (task_tree task)) (task_parent_tree task) None 0 0 =
    (None, adds (task_stats task), dels (task_stats task)).

(** The invariant of a pool working on the tasks [init] of [repo]. *)
Record pool_inv `{Libgit2} (repo : git_repository) (init : list commit_stat_task) (p : pool)
    : Prop := mk_pool_inv {
  inv_repo : tasks_repo (payload p) = repo;
  inv_nr : tasks_nr (payload p) = Z.of_nat (List.length init);
  inv_top : 0 <= top (payload p) <= Z.of_nat (List.length init);
  inv_inputs : Forall2 same_inputs init (tasks (payload p));
  inv_work : forall t i,
    threads p !! t = Some (at_work i) -> Z.of_nat i < top (payload p);
  inv_zero : forall t,
    threads p !! t = Some (returned 0) -> top (payload p) = Z.of_nat (List.length init);
  inv_done :
    (exists t e, threads p !! t = Some (returned e) /\ e <> 0) \/
    (forall i task,
       Z.of_nat i < top (payload p) -> tasks (payload p) !! i = Some task ->
       task_done repo task \/ exists t, threads p !! t = Some (at_work i))
}.

(** A thread returns zero, minus one or the code of a failed diff. *)
Definition codes_nonpositive (p : pool) : Prop :=
  forall t e, threads p !! t = Some (returned e) -> e <= 0.

(** Whether an event is a turn of thread [t]. *)
Definition turn_of (t : nat) (ev : event) : nat :=
  match ev with
  | ev_run t' => if decide (t' = t) then 1 else 0
  | _ => 0
  end.

(** The number of turns thread [t] gets in a schedule. *)
Definition count_runs (t : nat) (schedule : list event) : nat :=
  list_sum (map (turn_of t) schedule).

(** A bound on the turns thread [t] still needs: two for each task that is
    not claimed yet, and what it takes to leave its present state. *)
Definition turns_left (n : nat) (p : pool) (t : nat) : nat :=
  match threads p !! t with
  | Some at_lock => 2 * (n - Z.to_nat (top (payload p))) + 1
  | Some (at_work _) => 2 * (n - Z.to_nat (top (payload p))) + 2
  | _ => 0
  end.

(** The diff of the two trees of a task can be made. *)
Definition diff_succeeds `{Libgit2} (repo : git_repository) (task0 : commit_stat_task)
    : Prop :=
  exists a d,
    git_commit_stats_of repo (Some (task_tree task0)) (task_parent_tree task0) None 0 0 =
      (None, a, d).

(** A schedule in which no mutex call fails. *)
Definition calm (schedule : list event) : Prop :=
  Forall (fun ev => exists t, ev = ev_run t) schedule.

(** No thread has returned an error. *)
Definition no_failure (p : pool) : Prop :=
  forall t e, threads p !! t = Some (returned e) -> e = 0.

(** A commit and its owner as the Ruby object the caller passes. *)
Definition commit_value (oc : git_repository * git_commit) : VALUE :=
  rb_object oc.1 (ObjCommit oc.2).

(** What a batch owes for one commit: stats with the id and the signatures
    of the commit and the counts of the diff of its tree against the tree of
    its first parent. *)
Definition stats_of_commit `{Libgit2} (repo : git_repository)
    (oc : git_repository * git_commit) (v : VALUE) : Prop :=
  exists stats tree parent_tree,
    v = rb_commit_stats stats /\
    oid stats = git_commit_id oc.2 /\
    author stats = Some (git_commit_author oc.2) /\
    committer stats = Some (git_commit_committer oc.2) /\
    git_commit_tree oc.1 oc.2 = git_ok tree /\
    first_parent_tree oc.1 oc.2 = git_ok parent_tree /\
    git_commit_stats_of repo (Some tree) parent_tree None 0 0 =
      (None, adds stats, dels stats).

(** The pool as [rb_git_commit_stats] starts it. *)
Definition batch_start `{Libgit2} (repo : git_repository) (init : list commit_stat_task) : pool :=
  mk_pool (mk_tasks repo 0 (Z.of_nat (List.length init)) init)
          (replicate (Z.to_nat (batch_nr_threads (Z.of_nat (List.length init)))) at_lock).

(** ** Ids and repositories *)

(** An id that fits the 20 bytes of a [git_oid]. *)
Definition oid_in_range (id : git_oid) : Prop := 0 <= id < 2 ^ 160.

(** Every object of the repository is stored under its own id, and that id
    fits a [git_oid]. *)
Definition odb_consistent (repo : git_repository) : Prop :=
  map_Forall (fun id o => git_object_id o = id /\ oid_in_range id) (repo_odb repo).

(** No other object of the repository has an id that starts with the first
    [n] hex digits of [id]. *)
Definition unique_prefix (repo : git_repository) (id : git_oid) (n : Z) : Prop :=
  map_Forall (fun key _ => oid_prefix key n = oid_prefix id n -> key = id) (repo_odb repo).

(** The [n] low hex digits of an id, the most significant one first. *)
Fixpoint oid_digits (n : nat) (id : Z) : list Z :=
  match n with
  | O => []
  | S k => oid_digits k (Z.shiftr id 4) ++ [Z.land id 15]
  end.

(** ** Diff lines *)

#[global] Instance git_diff_line_t_eq_dec : EqDecision git_diff_line_t.
Proof. solve_decision. Defined.

(** The number of lines of one origin among the lines of a diff. *)
Definition count_lines (o : git_diff_line_t)
    (lines : list (git_diff_delta * git_diff_hunk * git_diff_line)) : Z :=
  Z.of_nat (List.length (filter (fun e => origin e.2 = o) lines)).

(** The lines [git_commit_stats_cb] looks at: all of them, or with a path
    filter those of the deltas that are on the path. *)
Definition lines_on (path_filter : option string) (diff : git_diff)
    : list (git_diff_delta * git_diff_hunk * git_diff_line) :=
  match path_filter with
  | None => diff_lines diff
  | Some p => diff_lines (diff_on_path p diff)
  end.

(** ** Walk options *)

(** What [load_walk_limits] reads under [offset] and [limit]: the value the
    field had when the key is missing, the number as an [unsigned long], and
    a TypeError for anything else. *)
Definition limit_option (rb_options : rb_hash) (key : string) (default : Z)
    : rb_result Z :=
  match rb_hash_lookup rb_options key with
  | Qnil => rb_return default
  | rb_value => n ← Check_Type_T_FIXNUM rb_value; rb_return (FIX2ULONG n)
  end.

(** What an entry of the options is read as: the default for a missing
    entry, and a Fixnum as the [unsigned long] of the same 64 bits. *)
Inductive reads_as (default : Z) : VALUE -> Z -> Prop :=
| reads_default : reads_as default Qnil default
| reads_fixnum n :
    FIXNUM_MIN <= n <= FIXNUM_MAX -> reads_as default (rb_fixnum n) (n mod 2 ^ 64).

(** An entry that is there and is no Fixnum: a Bignum or a value of another
    class. *)
Definition no_fixnum (v : VALUE) : Prop :=
  v <> Qnil /\ forall n, v = rb_fixnum n -> ~ (FIXNUM_MIN <= n <= FIXNUM_MAX).

(** The walker [Walker.walk] sets up from [show], [hide] and [simplify],
    built with the methods of a walker instead. *)
Definition walker_of_options `{Libgit2} (repo : git_repository) (rb_options : rb_hash)
    : rb_result git_revwalk :=
  walk ← match rb_hash_lookup rb_options "show" with
         | Qnil => rb_return (rb_git_walker_new repo)
         | rb_show => rb_git_walker_push (rb_git_walker_new repo) rb_show
         end;
  walk ← match rb_hash_lookup rb_options "hide" with
         | Qnil => rb_return walk
         | rb_hide => rb_git_walker_hide walk rb_hide
         end;
  rb_return (if RTEST (rb_hash_lookup rb_options "simplify")
             then git_revwalk_simplify_first_parent walk else walk).

(** A value a walk yields for a commit: a commit of [repo] as an object
    of [repo]. *)
Definition yielded_commit (repo : git_repository) (v : VALUE) (commit : git_commit)
    : Prop :=
  v = rb_object repo (ObjCommit commit) /\
  exists id, git_commit_lookup repo id = git_ok commit.

(** A walker with [ids] more pushed, or with [hide] hidden, and nothing else
    changed. *)
Definition walk_with (walk : git_revwalk) (hide : bool) (ids : list git_oid)
    : git_revwalk :=
  mk_revwalk (walk_repo walk) (walk_sorting walk)
    (if hide then walk_pushed walk else walk_pushed walk ++ ids)
    (if hide then walk_hidden walk ++ ids else walk_hidden walk)
    (walk_first_parent walk).

(** The id pushed for an entry that is a Rugged object is the id of that
    object. *)
Definition pushed_for (entry : VALUE) (id : git_oid) : Prop :=
  forall owner o, entry = rb_object owner o -> id = git_object_id o.

(** ** The arguments of [Commit.create] *)

(** What an entry of [:parents] stands for in [repo]: nothing for nil, the
    commit itself for a commit, the commit stored under the id for a string
    that starts with the 40 hex digits of it. *)
Inductive parent_entry (repo : git_repository) : VALUE -> option git_commit -> Prop :=
| entry_nil : parent_entry repo Qnil None
| entry_commit owner commit :
    parent_entry repo (rb_object owner (ObjCommit commit)) (Some commit)
| entry_id s id commit :
    Ascii.zero ∉ list_ascii_of_string s ->
    git_oid_fromstr s = git_ok id ->
    git_commit_lookup repo id = git_ok commit ->
    parent_entry repo (rb_str s) (Some commit).

(** The entry [:update_ref]: no reference for nil, the name for a string. *)
Inductive ref_entry : VALUE -> option string -> Prop :=
| ref_nil : ref_entry Qnil None
| ref_name s : Ascii.zero ∉ list_ascii_of_string s -> ref_entry (rb_str s) (Some s).

(** An entry of [:parents] that is neither nil, a string nor a commit. *)
Definition invalid_parent (p : VALUE) : Prop :=
  match p with
  | Qnil | rb_str _ | rb_object _ (ObjCommit _) => False
  | _ => True
  end.

(** ** More sample data *)

(** A repository that has lost its trees: the root commit alone. *)
Definition sample_repo_no_trees : git_repository :=
  mk_repository (list_to_map [(1, ObjCommit commit_root)]).


(** A writer for the sample repositories: the new commit gets the id 100
    and is stored under it. *)
Definition sample_writer : Libgit2Write := {|
  git_commit_create repo update_ref author committer message tree parents :=
    (mk_repository
       (<[100 := ObjCommit (mk_commit 100 (tree_id tree) (map commit_id parents)
                              author committer message)]> (repo_odb repo)),
     git_ok 100)
|}.

(** The data of a commit on top of the merge and the side commit of the
    sample repository. *)
Definition sample_commit_data : rb_hash :=
  list_to_map
    [("message", rb_str "more");
     ("tree", rb_str "000000000000000000000000000000000000000a");
     ("parents", rb_ary [rb_str "0000000000000000000000000000000000000004"; Qnil;
                         rb_object sample_repo (ObjCommit commit_side)])].

(** A repository of two blobs whose ids differ in their fourth digit. *)
Definition blob_abcd : git_blob := mk_blob (43981 * 2 ^ 144) ["one"].
Definition blob_abce : git_blob := mk_blob (43982 * 2 ^ 144) ["two"].

Definition sample_repo_blobs : git_repository :=
  mk_repository (list_to_map
    [(43981 * 2 ^ 144, ObjBlob blob_abcd); (43982 * 2 ^ 144, ObjBlob blob_abce)]).


(** * Properties *)

(** ** Commit parents *)

Lemma parents_GET_loop_prefix owner commit remaining :
  forall n ret_arr l,
    parents_GET_loop owner commit remaining n ret_arr = rb_return l ->
    exists rest, l = ret_arr ++ rest.
Proof.
  induction remaining as [|k IH]; intros n ret_arr l H; simpl in H.
  - injection H as <-. exists []. by rewrite app_nil_r.
  - destruct (git_commit_parent owner commit n) as [p|e]; simpl in H; [|discriminate].
    apply IH in H as [rest ->]. exists (rugged_object_new owner (ObjCommit p) :: rest).
    by rewrite <- app_assoc.
Qed.

Lemma parents_GET_loop_raise owner commit remaining :
  forall n ret_arr e,
    git_commit_parent owner commit n = git_fail e ->
    parents_GET_loop owner commit (S remaining) n ret_arr = rb_raise (rb_eRuggedError e).
Proof. intros n ret_arr e H. simpl. by rewrite H. Qed.

(** C1, as the code has it: a commit without parents has no first parent and
    [parent] answers nil without raising; a commit with parents answers the
    commit that [parents] lists first, and whatever [parent] raises,
    [parents] raises too. *)
Theorem parent_GET_is_first_of_parents (owner : git_repository) (commit : git_commit) :
  (git_commit_parentcount commit = 0 ->
     rb_git_commit_parent_GET owner commit = rb_return Qnil /\
     rb_git_commit_parents_GET owner commit = rb_return (rb_ary [])) /\
  (0 < git_commit_parentcount commit ->
     (forall ps, rb_git_commit_parents_GET owner commit = rb_return (rb_ary ps) ->
        exists p, ps !! 0%nat = Some p /\
                  rb_git_commit_parent_GET owner commit = rb_return p) /\
     (forall e, rb_git_commit_parent_GET owner commit = rb_raise e ->
        rb_git_commit_parents_GET owner commit = rb_raise e)).
Proof.
  unfold rb_git_commit_parent_GET, rb_git_commit_parents_GET. split.
  - intros ->. done.
  - intros Hpos. destruct (Z.ltb_spec 0 (git_commit_parentcount commit)) as [_|]; [|lia].
    destruct (Z.to_nat (git_commit_parentcount commit)) as [|k] eqn:Hk; [lia|].
    split.
    + intros ps Hps. simpl in *.
      destruct (git_commit_parent owner commit 0) as [p|e]; simpl in *; [|discriminate].
      destruct (parents_GET_loop owner commit k (0 + 1) _) as [l|] eqn:Hl;
        simpl in Hps; [|discriminate].
      injection Hps as <-. apply parents_GET_loop_prefix in Hl as [rest ->].
      by exists (rugged_object_new owner (ObjCommit p)).
    + intros e He. simpl in *.
      destruct (git_commit_parent owner commit 0) as [p|e']; simpl in *; [discriminate|].
      done.
Qed.

Lemma parent_GET_is_first_of_parents_witness :
  exists p, [rb_object sample_repo (ObjCommit commit_second);
             rb_object sample_repo (ObjCommit commit_side)] !! 0%nat = Some p /\
            rb_git_commit_parent_GET sample_repo commit_merge = rb_return p.
Proof.
  apply (proj2 (parent_GET_is_first_of_parents sample_repo commit_merge)).
  - reflexivity.
  - vm_compute. reflexivity.
Defined.

(** C1, counterexample: the root commit of the sample repository has no
    parent, and [parent] returns nil instead of failing with a not-found
    error. *)
Lemma parent_GET_root_is_nil :
  git_commit_parentcount commit_root = 0 /\
  rb_git_commit_parent_GET sample_repo commit_root = rb_return Qnil /\
  ~ (exists e, rb_git_commit_parent_GET sample_repo commit_root = rb_raise e).
Proof.
  split; [reflexivity|]. split; [reflexivity|]. intros [e He]. discriminate He.
Qed.

Lemma parent_ids_GET_loop_spec commit remaining :
  forall n ret_arr,
    parent_ids_GET_loop commit remaining (Z.of_nat n) ret_arr =
      ret_arr ++ take remaining (drop n (commit_parent_ids commit)).
Proof.
  induction remaining as [|k IH]; intros n ret_arr.
  - by rewrite take_0, app_nil_r.
  - cbn [parent_ids_GET_loop]. unfold git_commit_parent_id.
    destruct (Z.ltb_spec (Z.of_nat n) 0); [lia|]. rewrite Nat2Z.id.
    replace (Z.of_nat n + 1) with (Z.of_nat (S n)) by lia.
    destruct (commit_parent_ids commit !! n) as [parent_id|] eqn:Hn.
    + rewrite IH, (drop_S _ _ _ Hn). cbn [take]. by rewrite <- app_assoc.
    + rewrite IH. apply lookup_ge_None in Hn. rewrite !drop_ge by lia.
      by rewrite !take_nil.
Qed.

Lemma parents_GET_loop_length owner commit remaining :
  forall n ret_arr l,
    parents_GET_loop owner commit remaining n ret_arr = rb_return l ->
    List.length l = (List.length ret_arr + remaining)%nat.
Proof.
  induction remaining as [|k IH]; intros n ret_arr l Hl; simpl in Hl.
  - injection Hl as <-. lia.
  - destruct (git_commit_parent owner commit n) as [p|e]; simpl in Hl; [|discriminate].
    apply IH in Hl. rewrite length_app in Hl. simpl in Hl. lia.
Qed.

(** X1: [parent_ids] lists the parent ids of the commit in order, and
    [parents], when it returns, an array of as many commits. *)
Theorem parent_ids_and_parents_agree (owner : git_repository) (commit : git_commit) :
  rb_git_commit_parent_ids_GET commit = commit_parent_ids commit /\
  forall ps, rb_git_commit_parents_GET owner commit = rb_return (rb_ary ps) ->
    List.length ps = List.length (rb_git_commit_parent_ids_GET commit).
Proof.
  assert (Hids : rb_git_commit_parent_ids_GET commit = commit_parent_ids commit).
  { unfold rb_git_commit_parent_ids_GET, git_commit_parentcount.
    rewrite Nat2Z.id. rewrite (parent_ids_GET_loop_spec commit _ 0%nat []).
    by rewrite drop_0, firstn_all. }
  split; [done|]. intros ps Hps. rewrite Hids.
  unfold rb_git_commit_parents_GET, git_commit_parentcount in Hps. rewrite Nat2Z.id in Hps.
  destruct (parents_GET_loop owner commit _ 0 []) as [l|] eqn:Hl; [|discriminate].
  injection Hps as <-. by apply parents_GET_loop_length in Hl.
Qed.

(** ** Machine integers *)

Lemma to_int_small z : 0 <= z <= INT_MAX -> to_int z = z.
Proof.
  unfold to_int, INT_MAX. intros Hz.
  change (2 ^ 31) with 2147483648 in *. change (2 ^ 32) with 4294967296.
  rewrite Z.mod_small; lia.
Qed.

Lemma to_uint64_small z : 0 <= z <= UINT64_MAX -> to_uint64 z = z.
Proof.
  unfold to_uint64, UINT64_MAX. intros Hz.
  change (2 ^ 64) with 18446744073709551616 in *.
  rewrite Z.mod_small; lia.
Qed.

Lemma to_size_t_small z : 0 <= z <= UINT64_MAX -> to_size_t z = z.
Proof. apply to_uint64_small. Qed.

(** ** Object existence and lookup *)

Lemma oid_fromstrn_loop_ok chars :
  forall p out id,
    oid_fromstrn_loop chars p out = git_ok id ->
    Forall (fun c => 0 <= git__fromhex c) chars.
Proof.
  induction chars as [|c rest IH]; intros p out id H; simpl in H.
  - constructor.
  - destruct (Z.ltb_spec (git__fromhex c) 0); [discriminate|].
    constructor; [lia|]. eapply IH, H.
Qed.

Lemma length_list_ascii_of_string (s : string) :
  List.length (list_ascii_of_string s) = String.length s.
Proof. induction s as [|c s IH]; simpl; [done|by rewrite IH]. Qed.

Lemma git_oid_fromstrn_ok s id :
  git_oid_fromstrn s (RSTRING_LEN s) = git_ok id -> valid_hex s.
Proof.
  unfold git_oid_fromstrn, RSTRING_LEN, valid_hex.
  destruct (_ =? 0); [discriminate|]. destruct (GIT_OID_HEXSZ <? _); [discriminate|].
  destruct (_ <? _); [discriminate|].
  rewrite Nat2Z.id. intros H. apply oid_fromstrn_loop_ok in H.
  rewrite firstn_all2 in H; [done|].
  rewrite length_list_ascii_of_string. lia.
Qed.

Lemma filter_none {A : Type} (P : A -> Prop) `{forall x, Decision (P x)} (l : list A) :
  (forall x, x ∈ l -> ~ P x) -> filter P l = [].
Proof.
  induction l as [|a l IH]; intros Hl; [done|].
  rewrite filter_cons, decide_False.
  - apply IH. intros x Hx. apply Hl. by right.
  - apply Hl. by left.
Qed.

(** The entries of a map under one key: exactly the binding, when there is
    one. *)
Lemma filter_key_map_to_list (m : gmap Z git_object) (k : Z) (o : git_object)
    `{!forall kv : Z * git_object, Decision (kv.1 = k)} :
  m !! k = Some o ->
  filter (fun kv : Z * git_object => kv.1 = k) (map_to_list m) = [(k, o)].
Proof.
  intros Hk.
  assert (Hnd := NoDup_fst_map_to_list m).
  assert (Hin : (k, o) ∈ map_to_list m) by by apply elem_of_map_to_list.
  induction (map_to_list m) as [|[k' o'] l IH]; [by apply elem_of_nil in Hin|].
  rewrite fmap_cons in Hnd. apply NoDup_cons in Hnd as [Hnot Hnd].
  rewrite filter_cons. simpl. apply elem_of_cons in Hin as [Heq|Hin].
  - injection Heq as <- <-. rewrite decide_True by done. f_equal.
    apply filter_none. intros [k2 o2] Hin2 Hk2. simpl in Hk2. subst k2.
    apply Hnot. apply (list_elem_of_fmap_2 fst _ _ Hin2).
  - rewrite decide_False.
    + by apply IH.
    + intros Hk'. simpl in Hk'. subst k'. apply Hnot.
      apply (list_elem_of_fmap_2 fst _ _ Hin).
Qed.

Lemma lookup_prefix_not_single repo id len type :
  0 <= len <= GIT_OID_HEXSZ ->
  List.length (odb_prefix_matches (repo_odb repo) id len) <> 1%nat ->
  exists e, git_object_lookup_prefix repo id len type = git_fail e.
Proof.
  unfold git_object_lookup_prefix, GIT_OID_HEXSZ, GIT_OID_MINPREFIXLEN.
  intros Hlen Hn.
  destruct (Z.ltb_spec len 4); [by eexists|].
  destruct (Z.ltb_spec 40 len); [lia|].
  destruct (Z.eqb_spec len 40) as [->|Hne].
  - unfold git_object_lookup. destruct (repo_odb repo !! id) as [o|] eqn:Hid; [|by eexists].
    exfalso. apply Hn. unfold odb_prefix_matches.
    rewrite (list_filter_iff _ (fun kv : Z * git_object => kv.1 = id)).
    + by rewrite (filter_key_map_to_list _ _ _ Hid).
    + intros [k o']. unfold oid_prefix, GIT_OID_HEXSZ. simpl.
      by rewrite !Z.shiftr_0_r.
  - destruct (odb_prefix_matches (repo_odb repo) id len) as [|[k o] [|kv l]];
      [by eexists|done|by eexists].
Qed.

(** C10: [exists?] answers true or false for every string and never raises.
    For a string whose length an [int] holds, it answers false when the
    string is longer than 40 characters (where [lookup] raises instead),
    when it is not made of hex digits, and when the objects whose id starts
    with it are none or several. *)
Theorem exists_never_raises (klass : rb_class) (repo : git_repository) (s : string) :
  (rb_git_object_exists klass (rb_repo repo) (rb_str s) = rb_return Qtrue \/
   rb_git_object_exists klass (rb_repo repo) (rb_str s) = rb_return Qfalse) /\
  (RSTRING_LEN s <= INT_MAX ->
     (GIT_OID_HEXSZ < RSTRING_LEN s ->
        rb_git_object_exists klass (rb_repo repo) (rb_str s) = rb_return Qfalse /\
        rb_git_object_lookup klass (rb_repo repo) (rb_str s) =
          rb_raise (rb_eTypeError "The given OID is too long")) /\
     (~ valid_hex s ->
        rb_git_object_exists klass (rb_repo repo) (rb_str s) = rb_return Qfalse) /\
     (forall id,
        git_oid_fromstrn s (RSTRING_LEN s) = git_ok id ->
        List.length (odb_prefix_matches (repo_odb repo) id (RSTRING_LEN s)) <> 1%nat ->
        rb_git_object_exists klass (rb_repo repo) (rb_str s) = rb_return Qfalse)).
Proof.
  assert (Hlen0 : 0 <= RSTRING_LEN s) by (unfold RSTRING_LEN; lia).
  split.
  - unfold rb_git_object_exists. simpl.
    destruct (GIT_OID_HEXSZ <? _); [by right|].
    destruct (git_oid_fromstrn _ _); [|by right].
    destruct (git_object_lookup_prefix _ _ _ _); [by left|by right].
  - intros Hmax. unfold rb_git_object_exists, rb_git_object_lookup. simpl.
    rewrite (to_int_small (RSTRING_LEN s)) by lia.
    split; [|split].
    + intros Hlong. destruct (Z.ltb_spec GIT_OID_HEXSZ (RSTRING_LEN s)); [done|lia].
    + intros Hhex. destruct (GIT_OID_HEXSZ <? _); [done|].
      rewrite to_size_t_small by (unfold INT_MAX, UINT64_MAX in *; lia).
      destruct (git_oid_fromstrn _ _) as [id|] eqn:Hid; [|done].
      by apply git_oid_fromstrn_ok in Hid.
    + intros id Hid Hn. destruct (Z.ltb_spec GIT_OID_HEXSZ (RSTRING_LEN s)); [done|].
      rewrite to_size_t_small by (unfold INT_MAX, UINT64_MAX in *; lia).
      rewrite Hid.
      destruct (lookup_prefix_not_single repo id (RSTRING_LEN s)
                  (if bool_decide (class2otype klass = GIT_OBJ_BAD)
                   then GIT_OBJ_ANY else class2otype klass)) as [e ->]; [lia|done|done].
Qed.

Lemma exists_never_raises_witness :
  rb_git_object_exists rb_cRuggedCommit (rb_repo sample_repo)
    (rb_str "00000000000000000000000000000000000000001") = rb_return Qfalse /\
  rb_git_object_lookup rb_cRuggedCommit (rb_repo sample_repo)
    (rb_str "00000000000000000000000000000000000000001") = rb_raise (rb_eTypeError "The given OID is too long").
Proof.
  apply (proj1 (proj2 (exists_never_raises rb_cRuggedCommit sample_repo
                         "00000000000000000000000000000000000000001")
                 ltac:(vm_compute; discriminate))).
  vm_compute. reflexivity.
Defined.

(** The full id of the root commit exists as a commit and not as a tree; the
    prefix [0000] is shared by every object of the sample repository. *)
Example exists_sample_root :
  rb_git_object_exists rb_cRuggedCommit (rb_repo sample_repo)
    (rb_str "0000000000000000000000000000000000000001") = rb_return Qtrue /\
  rb_git_object_exists rb_cRuggedTree (rb_repo sample_repo)
    (rb_str "0000000000000000000000000000000000000001") = rb_return Qfalse /\
  rb_git_object_exists rb_cRuggedObject (rb_repo sample_repo)
    (rb_str "0000") = rb_return Qfalse /\
  rb_git_object_exists rb_cRuggedObject (rb_repo sample_repo)
    (rb_str "000g") = rb_return Qfalse /\
  rb_git_object_exists rb_cRuggedObject (rb_repo sample_repo)
    (rb_str "") = rb_return Qfalse.
Proof. vm_compute. repeat split. Qed.

(** ** Commitish *)

Lemma tag_chain_terminal repo o n t :
  tag_chain repo o n (git_ok t) -> git_object_type t <> GIT_OBJ_TAG.
Proof.
  intros H. remember (git_ok t) as r eqn:Hr. revert t Hr.
  induction H; intros t' Hr; [by injection Hr as <-|discriminate|eauto].
Qed.

Lemma commitish_peel_chain repo o n r :
  tag_chain repo o n r ->
  forall fuel, (n <= fuel)%nat -> commitish_peel fuel repo o = Some r.
Proof.
  induction 1 as [o Ho|tag e He|tag target n r Ht _ IH]; intros fuel Hfuel.
  - destruct o; try done; by destruct fuel.
  - destruct fuel as [|fuel]; [lia|]. simpl. by rewrite He.
  - destruct fuel as [|fuel]; [lia|]. simpl. rewrite Ht. apply IH. lia.
Qed.

(** C6: when the expression resolves to an object below which [n] tags lead
    to an object that is no tag, [commitish] follows them all (any fuel from
    [n] on is enough) and answers that object if it is a commit, and fails
    with the type-mismatch error otherwise. *)
Theorem commitish_peels_tags `{Libgit2} (repo : git_repository) (spec : string)
    (object terminal : git_object) (n : nat) :
  git_revparse_single repo spec = git_ok object ->
  tag_chain repo object n (git_ok terminal) ->
  git_object_type terminal <> GIT_OBJ_TAG /\
  forall fuel, (n <= fuel)%nat ->
    rugged_commitish fuel repo spec =
      Some (match terminal with
            | ObjCommit commit => git_ok commit
            | _ => git_fail err_type_mismatch
            end) /\
    (Ascii.zero ∉ list_ascii_of_string spec ->
     rb_git_object_commitish fuel (rb_repo repo) (rb_str spec) =
       Some (match terminal with
             | ObjCommit commit => rb_return (rb_object repo (ObjCommit commit))
             | _ => rb_raise (rb_eRuggedError err_type_mismatch)
             end)).
Proof.
  intros Hparse Hchain. split; [by eapply tag_chain_terminal|].
  intros fuel Hfuel.
  assert (Hc : rugged_commitish fuel repo spec =
            Some (match terminal with
                  | ObjCommit commit => git_ok commit
                  | _ => git_fail err_type_mismatch
                  end)).
  { unfold rugged_commitish. rewrite Hparse.
    rewrite (commitish_peel_chain _ _ _ _ Hchain fuel Hfuel).
    apply tag_chain_terminal in Hchain. by destruct terminal. }
  split; [done|]. intros Hnul.
  unfold rb_git_object_commitish, rugged_commitish_or_treeish. simpl.
  unfold StringValueCStr. rewrite bool_decide_eq_false_2 by done. simpl.
  rewrite Hc. by destruct terminal.
Qed.

Lemma commitish_peels_tags_witness :
  rugged_commitish (H := sample_libgit2) 2 sample_repo "v1-signed" =
    Some (git_ok commit_second) /\
  rugged_commitish (H := sample_libgit2) 1 sample_repo "tree-tag" =
    Some (git_fail err_type_mismatch).
Proof.
  split.
  - refine (proj1 (proj2 (commitish_peels_tags (H := sample_libgit2) sample_repo
             "v1-signed" (ObjTag tag_outer) (ObjCommit commit_second) 2 _ _) 2%nat _)).
    + vm_compute. reflexivity.
    + eapply chain_step; [vm_compute; reflexivity|].
      eapply chain_step; [vm_compute; reflexivity|].
      apply chain_end. discriminate.
    + lia.
  - refine (proj1 (proj2 (commitish_peels_tags (H := sample_libgit2) sample_repo
             "tree-tag" (ObjTag tag_of_tree) (ObjTree tree_one) 1 _ _) 1%nat _)).
    + vm_compute. reflexivity.
    + eapply chain_step; [vm_compute; reflexivity|]. apply chain_end. discriminate.
    + lia.
Defined.

(** ** Commit statistics *)

Lemma strcmp_eq (a b : string) : (strcmp a b =? 0) = bool_decide (a = b).
Proof.
  unfold strcmp. destruct (String.compare a b) eqn:Hc.
  - apply String.compare_eq_iff in Hc. by rewrite bool_decide_eq_true_2.
  - rewrite bool_decide_eq_false_2; [done|].
    intros ->. pose proof (String.compare_antisym b b) as Ha.
    rewrite Hc in Ha. discriminate.
  - rewrite bool_decide_eq_false_2; [done|].
    intros ->. pose proof (String.compare_antisym b b) as Ha.
    rewrite Hc in Ha. discriminate.
Qed.

Lemma stats_cb_filtered p a d delta hunk line :
  git_commit_stats_cb delta hunk line (mk_cb_args a d (Some p)) =
    if bool_decide (on_path p delta)
    then match origin line with
         | GIT_DIFF_LINE_ADDITION => (GIT_OK, mk_cb_args (to_int (a + 1)) d (Some p))
         | GIT_DIFF_LINE_DELETION => (GIT_OK, mk_cb_args a (to_int (d + 1)) (Some p))
         | _ => (GIT_OK, mk_cb_args a d (Some p))
         end
    else (GIT_OK, mk_cb_args a d (Some p)).
Proof.
  unfold git_commit_stats_cb. cbn [path_only args_adds args_dels].
  rewrite !strcmp_eq, <- bool_decide_and.
  rewrite (bool_decide_ext _ (on_path p delta)) by (unfold on_path; split; intros [? ?]; split; congruence).
  by destruct (bool_decide (on_path p delta)).
Qed.

Lemma foreach_lines_filtered p lines :
  forall a d,
    exists a' d',
      diff_foreach_lines git_commit_stats_cb lines (mk_cb_args a d (Some p)) =
        (None, mk_cb_args a' d' (Some p)) /\
      diff_foreach_lines git_commit_stats_cb
        (filter (fun e => on_path p e.1.1) lines) (mk_cb_args a d None) =
        (None, mk_cb_args a' d' None).
Proof.
  induction lines as [|[[delta hunk] line] rest IH]; intros a d.
  - by exists a, d.
  - rewrite filter_cons. cbn [diff_foreach_lines fst].
    rewrite stats_cb_filtered. destruct (decide (on_path p delta)) as [Hp|Hp].
    + rewrite bool_decide_eq_true_2 by done. cbn [diff_foreach_lines].
      unfold git_commit_stats_cb. cbn [path_only args_adds args_dels].
      destruct (origin line); cbn; apply IH.
    + rewrite bool_decide_eq_false_2 by done. cbn. apply IH.
Qed.

(** C7: with a path filter, the callback counts a line only when the old and
    the new path of its delta both equal the filter, and leaves the counters
    alone otherwise; over a whole diff the counts are those of the unfiltered
    callback on the lines of the deltas that are on the path. *)
Theorem stats_cb_path_filter (p : string) :
  (forall a d delta hunk line,
     git_commit_stats_cb delta hunk line (mk_cb_args a d (Some p)) =
       if bool_decide (path (old_file delta) = p /\ path (new_file delta) = p)
       then match origin line with
            | GIT_DIFF_LINE_ADDITION => (GIT_OK, mk_cb_args (to_int (a + 1)) d (Some p))
            | GIT_DIFF_LINE_DELETION => (GIT_OK, mk_cb_args a (to_int (d + 1)) (Some p))
            | _ => (GIT_OK, mk_cb_args a d (Some p))
            end
       else (GIT_OK, mk_cb_args a d (Some p))) /\
  (forall diff,
     let filtered := git_diff_foreach diff git_commit_stats_cb (mk_cb_args 0 0 (Some p)) in
     let plain :=
       git_diff_foreach (diff_on_path p diff) git_commit_stats_cb (mk_cb_args 0 0 None) in
     filtered.1 = plain.1 /\
     args_adds filtered.2 = args_adds plain.2 /\
     args_dels filtered.2 = args_dels plain.2).
Proof.
  split.
  - intros. apply stats_cb_filtered.
  - intros diff. unfold git_diff_foreach, diff_on_path. cbn [diff_lines diff_error].
    destruct (foreach_lines_filtered p (diff_lines diff) 0 0) as (a' & d' & -> & ->).
    done.
Qed.

Example stats_cb_rename_not_counted :
  git_commit_stats_cb (mk_delta (mk_diff_file "old.c") (mk_diff_file "new.c"))
    (mk_hunk 1 1) (mk_line GIT_DIFF_LINE_ADDITION "x") (mk_cb_args 3 4 (Some "new.c"))
  = (GIT_OK, mk_cb_args 3 4 (Some "new.c")) /\
  git_commit_stats_cb (mk_delta (mk_diff_file "new.c") (mk_diff_file "new.c"))
    (mk_hunk 1 1) (mk_line GIT_DIFF_LINE_ADDITION "x") (mk_cb_args 3 4 (Some "new.c"))
  = (GIT_OK, mk_cb_args 4 4 (Some "new.c")).
Proof. split; reflexivity. Qed.

Lemma stats_cb_added delta hunk line a d :
  origin line = GIT_DIFF_LINE_ADDITION ->
  git_commit_stats_cb delta hunk line (mk_cb_args a d None) =
    (GIT_OK, mk_cb_args (to_int (a + 1)) d None).
Proof. intros Hline. unfold git_commit_stats_cb. simpl. by rewrite Hline. Qed.

Lemma foreach_lines_all_added lines :
  Forall (fun e : git_diff_delta * git_diff_hunk * git_diff_line =>
            origin e.2 = GIT_DIFF_LINE_ADDITION) lines ->
  forall a d,
    0 <= a -> a + Z.of_nat (List.length lines) <= INT_MAX ->
    diff_foreach_lines git_commit_stats_cb lines (mk_cb_args a d None) =
      (None, mk_cb_args (a + Z.of_nat (List.length lines)) d None).
Proof.
  induction 1 as [|[[delta hunk] line] rest Hline _ IH]; intros a d Ha Hmax.
  - simpl. by rewrite Z.add_0_r.
  - cbn [diff_foreach_lines List.length] in *.
    rewrite stats_cb_added by done. cbn [Z.eqb GIT_OK].
    rewrite Nat2Z.inj_succ in *. rewrite to_int_small by lia.
    rewrite (IH (a + 1) d) by lia. do 2 f_equal. lia.
Qed.

Lemma length_diff_all_added t :
  Z.of_nat (List.length (diff_all_added t)) = tree_line_count t.
Proof.
  unfold diff_all_added, tree_line_count. f_equal.
  induction (tree_files t) as [|f fs IH]; [done|].
  cbn [flat_map map list_sum]. rewrite length_app, IH. f_equal.
  unfold lines_as. by rewrite length_map.
Qed.

(** C5: a commit without parents is no error for [rugged_commit_stats_of]:
    its tree is diffed against no tree at all, and when the diff engine
    answers that with the lines of the tree as additions (no more of them
    than the [int] counter holds), the stats have no deletion and each line
    of each file of the tree as an addition. *)
Theorem stats_of_root_commit `{Libgit2} (repo : git_repository) (commit : git_commit)
    (tree : git_tree) (diff : git_diff) :
  git_commit_parentcount commit = 0 ->
  git_commit_tree repo commit = git_ok tree ->
  git_diff_tree_to_tree repo None (Some tree) = git_ok diff ->
  adds_whole_tree tree diff ->
  tree_line_count tree <= INT_MAX ->
  exists stats,
    rugged_commit_stats_of repo commit None = rb_return (rb_commit_stats stats) /\
    dels stats = 0 /\
    adds stats = tree_line_count tree /\
    rb_git_commit_stats_dels_GET stats = rb_fixnum 0 /\
    rb_git_commit_stats_adds_GET stats = rb_fixnum (tree_line_count tree) /\
    oid stats = git_commit_id commit /\
    author stats = Some (git_commit_author commit) /\
    committer stats = Some (git_commit_committer commit).
Proof.
  intros Hroot Htree Hdiff (Herr & Hadd & Hlen) Hmax.
  assert (Hcount : 0 <= tree_line_count tree) by (unfold tree_line_count; lia).
  assert (Hpt : first_parent_tree repo commit = git_ok None).
  { unfold first_parent_tree, git_commit_parent, git_commit_parent_id.
    unfold git_commit_parentcount in Hroot.
    destruct (commit_parent_ids commit) as [|p ps]; [done|simpl in Hroot; lia]. }
  assert (Hst : git_commit_stats_of repo (Some tree) None None 0 0 =
                  (None, tree_line_count tree, 0)).
  { unfold git_commit_stats_of. rewrite Hdiff. unfold git_diff_foreach.
    rewrite (foreach_lines_all_added _ Hadd 0 0) by lia.
    rewrite Herr, Hlen, Z.add_0_l. cbn [args_adds args_dels].
    rewrite !to_size_t_small by (unfold INT_MAX, UINT64_MAX in *; lia). done. }
  unfold rugged_commit_stats_of. rewrite Htree, Hpt.
  cbn [mbind rb_result_bind rb_bind rugged_exception_check adds dels].
  rewrite Hst. eexists. split; [reflexivity|].
  unfold rb_git_commit_stats_dels_GET, rb_git_commit_stats_adds_GET, INT2FIX.
  cbn [adds dels oid author committer].
  rewrite !to_int_small by (unfold INT_MAX in *; lia).
  repeat split.
Qed.

Lemma stats_of_root_commit_witness :
  exists stats,
    rugged_commit_stats_of (H := sample_libgit2) sample_repo commit_root None =
      rb_return (rb_commit_stats stats) /\
    dels stats = 0 /\
    adds stats = 3 /\
    rb_git_commit_stats_dels_GET stats = rb_fixnum 0 /\
    rb_git_commit_stats_adds_GET stats = rb_fixnum 3 /\
    oid stats = 1 /\
    author stats = Some sig_alice /\
    committer stats = Some sig_alice.
Proof.
  apply (stats_of_root_commit (H := sample_libgit2) sample_repo commit_root tree_one
           (mk_diff (diff_all_added tree_one) None)).
  - reflexivity.
  - vm_compute. reflexivity.
  - vm_compute. reflexivity.
  - split; [reflexivity|]. split; [|reflexivity]. vm_compute. repeat constructor.
  - vm_compute. discriminate.
Defined.

(** ** The bulk walk *)

Section Walk.
Context `{Libgit2}.

Lemma walk_visit_set_offset w v c : walk_visit (set_offset w v) c = walk_visit w c.
Proof. reflexivity. Qed.

Lemma walk_visit_set_limit w v c : walk_visit (set_limit w v) c = walk_visit w c.
Proof. reflexivity. Qed.

Lemma walk_yields_set_offset w v commits :
  walk_yields (set_offset w v) commits = walk_yields w commits.
Proof.
  induction commits as [|c rest IH]; [done|].
  cbn [walk_yields]. rewrite walk_visit_set_offset, IH. done.
Qed.

Lemma walk_yields_set_limit w v commits :
  walk_yields (set_limit w v) commits = walk_yields w commits.
Proof.
  induction commits as [|c rest IH]; [done|].
  cbn [walk_yields]. rewrite walk_visit_set_limit, IH. done.
Qed.

Lemma effective_limit_pos l : 0 <= l <= UINT64_MAX -> 0 < effective_limit l.
Proof.
  unfold effective_limit, UINT64_MAX. intros Hl.
  destruct (Z.eqb_spec l 0); [done|lia].
Qed.

Lemma limit_decrement l :
  0 <= l <= UINT64_MAX ->
  0 <= to_uint64 (l - 1) <= UINT64_MAX /\
  (to_uint64 (l - 1) = 0 <-> effective_limit l = 1) /\
  (to_uint64 (l - 1) <> 0 -> effective_limit (to_uint64 (l - 1)) = effective_limit l - 1).
Proof.
  unfold effective_limit, to_uint64, UINT64_MAX.
  change (2 ^ 64) with 18446744073709551616. intros Hl.
  destruct (Z.eqb_spec l 0) as [->|Hl0].
  - change ((0 - 1) mod 18446744073709551616) with 18446744073709551615.
    repeat split; try lia; try done.
  - rewrite Z.mod_small by lia. repeat split; try lia.
    intros Hne. destruct (Z.eqb_spec (l - 1) 0); lia.
Qed.

(** The values [do_walk] yields: the first [offset] commits of the walk are
    passed over unvisited, the others are visited in order, and the results
    stop after [effective_limit limit] of them. *)
Lemma do_walk_loop_yields commits last :
  forall w,
    0 <= offset w <= UINT64_MAX ->
    0 <= limit w <= UINT64_MAX ->
    (do_walk_loop w commits last).1 =
      take (Z.to_nat (effective_limit (limit w)))
           (walk_yields w (drop (Z.to_nat (offset w)) commits)).
Proof.
  induction commits as [|c rest IH]; intros w Hoff Hlim.
  - rewrite drop_nil. cbn [do_walk_loop walk_yields fst]. by rewrite take_nil.
  - cbn [do_walk_loop]. destruct (Z.ltb_spec 0 (offset w)) as [Hpos|Hzero].
    + assert (Hdec : to_uint64 (offset w - 1) = offset w - 1).
      { apply to_uint64_small. lia. }
      rewrite IH; cbn [offset limit set_offset]; rewrite ?Hdec; try lia.
      rewrite walk_yields_set_offset.
      replace (Z.to_nat (offset w)) with (S (Z.to_nat (offset w - 1))) by lia.
      done.
    + assert (Hoff0 : offset w = 0) by lia. rewrite Hoff0.
      change (Z.to_nat 0) with 0%nat. rewrite drop_0. cbn [walk_yields].
      destruct (walk_visit w c) as [|result|e].
      * rewrite IH by lia. rewrite Hoff0. done.
      * destruct (limit_decrement (limit w) Hlim) as (Hrange & Hone & Hmore).
        cbn [limit set_limit].
        destruct (Z.eqb_spec (to_uint64 (limit w - 1)) 0) as [H0|Hn0].
        -- apply Hone in H0. rewrite H0. done.
        -- specialize (Hmore Hn0).
           pose proof (IH (set_limit w (to_uint64 (limit w - 1)))) as IH'.
           cbn [offset limit set_limit] in IH'.
           destruct (do_walk_loop _ rest last) as [yielded r].
           cbn [fst] in *. rewrite IH' by lia.
           rewrite walk_yields_set_limit, Hmore, Hoff0.
           pose proof (effective_limit_pos (limit w) Hlim).
           replace (Z.to_nat (effective_limit (limit w)))
             with (S (Z.to_nat (effective_limit (limit w) - 1))) by lia.
           done.
      * by rewrite take_nil.
Qed.

End Walk.

(** C4, as the code has it: [offset] commits of the revision walk are passed
    over before any filter is consulted, the commits after them are visited
    in order, and the yielded results stop after [limit] of them, where a
    [limit] of zero stands for 2^64. *)
Theorem do_walk_offset_limit `{Libgit2} (w : walk_options) :
  0 <= offset w <= UINT64_MAX ->
  0 <= limit w <= UINT64_MAX ->
  (do_walk w).1 =
    take (Z.to_nat (effective_limit (limit w)))
         (walk_yields w (drop (Z.to_nat (offset w)) (revwalk_commits (w_walk w)).1)).
Proof.
  intros Hoff Hlim. unfold do_walk.
  destruct (revwalk_commits (w_walk w)) as [commits last].
  by apply do_walk_loop_yields.
Qed.

Lemma do_walk_offset_limit_witness :
  let w := mk_walk_options sample_repo sample_repo
             (mk_revwalk sample_repo GIT_SORT_NONE [4] [] false) 0 0 1 1 2 in
  (do_walk (H := sample_libgit2) w).1 =
    take (Z.to_nat (effective_limit (limit w)))
         (walk_yields (H := sample_libgit2) w
            (drop (Z.to_nat (offset w))
               (revwalk_commits (Libgit2 := sample_libgit2) (w_walk w)).1)).
Proof.
  intros w. apply (do_walk_offset_limit (H := sample_libgit2) w); vm_compute; split; discriminate.
Defined.

(** C4, counterexample: walking the sample repository from its merge commit
    without merges yields the same three commits with [offset: 1] as without
    an offset, because the commit passed over is the merge the filter drops
    anyway; and [limit: 0] lets all four commits through. *)
Lemma walk_offset_counts_unfiltered_commits :
  let yielded extra :=
    (rb_git_walk (H := sample_libgit2) sample_repo (sample_walk_options extra) 0).1 in
  yielded [("no_merges", Qtrue)] =
    [rb_object sample_repo (ObjCommit commit_second);
     rb_object sample_repo (ObjCommit commit_side);
     rb_object sample_repo (ObjCommit commit_root)] /\
  yielded [("no_merges", Qtrue); ("offset", rb_fixnum 1)] = yielded [("no_merges", Qtrue)] /\
  yielded [("no_merges", Qtrue); ("offset", rb_fixnum 1)] <>
    drop 1 (yielded [("no_merges", Qtrue)]) /\
  List.length (yielded [("limit", rb_fixnum 0)]) = 4%nat.
Proof.
  vm_compute. repeat split. discriminate.
Qed.

Lemma walk_yields_length `{Libgit2} w commits :
  (List.length (walk_yields w commits) <= List.length commits)%nat.
Proof.
  induction commits as [|c rest IH]; [done|].
  cbn [walk_yields List.length]. destruct (walk_visit w c); cbn [List.length]; lia.
Qed.

Lemma rb_bind_return_inv {A B : Type} (m : rb_result A) (k : A -> rb_result B) (b : B) :
  m ≫= k = rb_return b -> exists a, m = rb_return a /\ k a = rb_return b.
Proof. destruct m as [a|e]; [by exists a|discriminate]. Qed.

(** What [load_walk_limits] leaves in the fields of [w]. *)
Lemma load_walk_limits_fields (w w' : walk_options) (rb_options : rb_hash) :
  load_walk_limits w rb_options = rb_return w' ->
  rb_owner w' = rb_owner w /\ w_repo w' = w_repo w /\ w_walk w' = w_walk w /\
  oid_only w' = oid_only w /\
  (RTEST (rb_hash_lookup rb_options "stats_only") = true ->
     stats_only w' = 1 /\ no_merges w' = 1) /\
  (forall n, rb_hash_lookup rb_options "limit" = rb_fixnum n -> limit w' = to_uint64 n) /\
  (forall n, rb_hash_lookup rb_options "offset" = rb_fixnum n -> offset w' = to_uint64 n).
Proof.
  unfold load_walk_limits. intros Hload.
  apply rb_bind_return_inv in Hload as (w1 & H1 & Hload).
  apply rb_bind_return_inv in Hload as (w2 & H2 & Hload).
  injection Hload as <-.
  assert (Hw1 : rb_owner w1 = rb_owner w /\ w_repo w1 = w_repo w /\ w_walk w1 = w_walk w /\
                oid_only w1 = oid_only w /\
                forall n, rb_hash_lookup rb_options "offset" = rb_fixnum n ->
                          offset w1 = to_uint64 n).
  { destruct (rb_hash_lookup rb_options "offset"); cbn [Check_Type_T_FIXNUM] in H1;
      try destruct (FIXABLE _); try discriminate;
      injection H1 as <-; repeat split; try done. intros ? [= <-]. done. }
  assert (Hw2 : rb_owner w2 = rb_owner w1 /\ w_repo w2 = w_repo w1 /\ w_walk w2 = w_walk w1 /\
                oid_only w2 = oid_only w1 /\ offset w2 = offset w1 /\
                forall n, rb_hash_lookup rb_options "limit" = rb_fixnum n ->
                          limit w2 = to_uint64 n).
  { destruct (rb_hash_lookup rb_options "limit"); cbn [Check_Type_T_FIXNUM] in H2;
      try destruct (FIXABLE _); try discriminate;
      injection H2 as <-; repeat split; try done. intros ? [= <-]. done. }
  destruct Hw1 as (? & ? & ? & ? & Hoff), Hw2 as (? & ? & ? & ? & Hoff2 & Hlim).
  destruct (RTEST (rb_hash_lookup rb_options "no_merges")),
           (RTEST (rb_hash_lookup rb_options "stats_only"));
    cbn; repeat split; try congruence; try done;
    try (intros n Hn; rewrite <- (Hoff n Hn); congruence); auto.
Qed.

(** C9: a limit of zero survives [load_walk_limits] as zero; the first
    decrement wraps it to 2^64 - 1, and a walk of fewer than 2^64 commits
    yields every result it has, just as without a limit. *)
Theorem walk_limit_zero_is_unlimited `{Libgit2} (w : walk_options)
    (commits : list git_oid) (last : git_error) :
  (forall w0 rb_options,
     rb_hash_lookup rb_options "limit" = rb_fixnum 0 ->
     load_walk_limits w0 rb_options = rb_return w -> limit w = 0) /\
  (limit w = 0 ->
   0 <= offset w <= UINT64_MAX ->
   Z.of_nat (List.length commits) <= UINT64_MAX ->
   to_uint64 (limit w - 1) = UINT64_MAX /\
   (do_walk_loop w commits last).1 = walk_yields w (drop (Z.to_nat (offset w)) commits) /\
   (do_walk_loop w commits last).1 = (do_walk_loop (set_limit w UINT64_MAX) commits last).1).
Proof.
  split.
  - intros w0 rb_options Hopt Hload.
    apply load_walk_limits_fields in Hload as (_ & _ & _ & _ & _ & Hlim & _).
    by rewrite (Hlim 0 Hopt).
  - intros Hzero Hoff Hlen.
    assert (Hall : forall l : Z, l = 0 \/ l = UINT64_MAX ->
              take (Z.to_nat (effective_limit l))
                   (walk_yields w (drop (Z.to_nat (offset w)) commits)) =
              walk_yields w (drop (Z.to_nat (offset w)) commits)).
    { intros l Hl. apply take_ge.
      pose proof (walk_yields_length w (drop (Z.to_nat (offset w)) commits)) as Hy.
      rewrite length_drop in Hy.
      unfold effective_limit, UINT64_MAX in *.
      change (2 ^ 64) with 18446744073709551616 in *.
      destruct Hl as [->| ->]; [change (0 =? 0) with true|
        change (18446744073709551616 - 1 =? 0) with false]; lia. }
    split; [by rewrite Hzero|].
    assert (Hmax : 0 < UINT64_MAX) by reflexivity.
    rewrite (do_walk_loop_yields commits last w) by lia.
    rewrite (do_walk_loop_yields commits last (set_limit w UINT64_MAX))
      by (cbn [offset limit set_limit]; lia).
    cbn [offset limit set_limit]. rewrite walk_yields_set_limit, Hzero.
    rewrite !Hall; [done|by right|by left].
Qed.

Lemma walk_limit_zero_is_unlimited_witness :
  let w := mk_walk_options sample_repo sample_repo
             (mk_revwalk sample_repo GIT_SORT_NONE [4] [] false) 1 0 0 0 0 in
  to_uint64 (limit w - 1) = UINT64_MAX /\
  (do_walk_loop (H := sample_libgit2) w [4; 2; 3; 1] err_iterover).1 =
    walk_yields (H := sample_libgit2) w (drop (Z.to_nat (offset w)) [4; 2; 3; 1]) /\
  (do_walk_loop (H := sample_libgit2) w [4; 2; 3; 1] err_iterover).1 =
    (do_walk_loop (H := sample_libgit2) (set_limit w UINT64_MAX) [4; 2; 3; 1]
       err_iterover).1.
Proof.
  intros w.
  apply (proj2 (walk_limit_zero_is_unlimited (H := sample_libgit2) w [4; 2; 3; 1]
                  err_iterover)).
  - reflexivity.
  - vm_compute. split; discriminate.
  - vm_compute. discriminate.
Defined.

Section StatsOnly.
Context `{Libgit2}.

Lemma walker_stats_cb_ok delta hunk line stats :
  (rb_git_walker_stats_cb delta hunk line stats).1 = GIT_OK /\
  oid (rb_git_walker_stats_cb delta hunk line stats).2 = oid stats.
Proof. unfold rb_git_walker_stats_cb. by destruct (origin line). Qed.

Lemma foreach_lines_walker_oid lines :
  forall stats,
    oid (diff_foreach_lines rb_git_walker_stats_cb lines stats).2 = oid stats.
Proof.
  induction lines as [|[[delta hunk] line] rest IH]; intros stats; [done|].
  cbn [diff_foreach_lines].
  pose proof (walker_stats_cb_ok delta hunk line stats) as [Hcode Hoid].
  destruct (rb_git_walker_stats_cb delta hunk line stats) as [code stats'].
  cbn [fst snd] in *. rewrite Hcode. cbn. by rewrite IH.
Qed.

Lemma foreach_walker_oid diff stats :
  oid (git_diff_foreach diff rb_git_walker_stats_cb stats).2 = oid stats.
Proof.
  unfold git_diff_foreach.
  pose proof (foreach_lines_walker_oid (diff_lines diff) stats) as Hoid.
  destruct (diff_foreach_lines _ _ _) as [[e|] stats']; done.
Qed.

Lemma walk_visit_stats_only w id v :
  oid_only w = 0 -> stats_only w <> 0 -> no_merges w <> 0 ->
  walk_visit w id = visit_yield v -> stats_of_non_merge (w_repo w) v.
Proof.
  intros Hoid Hstats Hmerges. unfold walk_visit. rewrite Hoid. cbn [Z.eqb negb].
  destruct (git_commit_lookup (w_repo w) id) as [commit|e] eqn:Hlookup; [|discriminate].
  unfold apply_walk_options.
  destruct (Z.eqb_spec (no_merges w) 0); [done|].
  destruct (Z.eqb_spec (stats_only w) 0); [done|]. cbn [negb andb].
  destruct (Z.ltb_spec 1 (git_commit_parentcount commit)) as [|Hcount]; [discriminate|].
  destruct (git_commit_tree (w_repo w) commit) as [tree|]; [|discriminate].
  destruct (first_parent_tree (w_repo w) commit) as [right_tree|]; [|discriminate].
  cbn [rugged_exception_check mbind rb_result_bind rb_bind].
  destruct (git_diff_tree_to_tree (w_repo w) right_tree (Some tree)) as [diff|];
    [|discriminate].
  cbn [rugged_exception_check mbind rb_result_bind rb_bind].
  match goal with |- context [git_diff_foreach diff rb_git_walker_stats_cb ?s] =>
    pose proof (foreach_walker_oid diff s) as Hkeep;
    destruct (git_diff_foreach diff rb_git_walker_stats_cb s) as [[e|] stats]
  end; [discriminate|].
  cbn. intros [= <-]. exists id, commit, stats. done.
Qed.

Lemma do_walk_loop_stats_only commits last :
  forall w,
    oid_only w = 0 -> stats_only w <> 0 -> no_merges w <> 0 ->
    Forall (stats_of_non_merge (w_repo w)) (do_walk_loop w commits last).1.
Proof.
  induction commits as [|c rest IH]; intros w Hoid Hstats Hmerges; [constructor|].
  cbn [do_walk_loop]. destruct (0 <? offset w).
  - by apply (IH (set_offset w _)).
  - destruct (walk_visit w c) as [|v|e] eqn:Hvisit; [by apply IH| |constructor].
    apply walk_visit_stats_only in Hvisit; [|done..].
    cbn [limit set_limit]. destruct (_ =? 0); [by repeat constructor|].
    specialize (IH (set_limit w (to_uint64 (limit w - 1))) Hoid Hstats Hmerges).
    destruct (do_walk_loop _ rest last) as [yielded r]. by constructor.
Qed.

(** What [load_all_options] leaves in the fields of [w]. *)
Lemma load_all_options_fields (w w' : walk_options) (rb_options : rb_hash) :
  load_all_options w rb_options = rb_return w' ->
  w_repo w' = w_repo w /\
  oid_only w' = (if RTEST (rb_hash_lookup rb_options "oid_only") then 1 else oid_only w) /\
  (RTEST (rb_hash_lookup rb_options "stats_only") = true ->
     stats_only w' = 1 /\ no_merges w' = 1).
Proof.
  unfold load_all_options. intros Hload.
  apply rb_bind_return_inv in Hload as (w1 & H1 & Hload).
  apply rb_bind_return_inv in Hload as (w2 & H2 & Hload).
  apply rb_bind_return_inv in Hload as (w3 & H3 & Hload).
  apply rb_bind_return_inv in Hload as (w4 & H4 & Hload).
  injection Hload as <-.
  apply load_walk_limits_fields in H1 as (_ & Hrepo & _ & Honly & Hstats & _).
  assert (Hsame : forall (wa wb : walk_options) (m : rb_result walk_options),
            m = rb_return wb ->
            (m = rb_return wa \/
             exists walk, m = (walk' ← walk; rb_return (set_walk wa walk'))) ->
            w_repo wb = w_repo wa /\ oid_only wb = oid_only wa /\
            stats_only wb = stats_only wa /\ no_merges wb = no_merges wa).
  { intros wa wb m -> [[= ->]|[walk Hm]]; [done|].
    symmetry in Hm. apply rb_bind_return_inv in Hm as (walk' & _ & [= <-]). done. }
  assert (H2' : w_repo w2 = w_repo w1 /\ oid_only w2 = oid_only w1 /\
                stats_only w2 = stats_only w1 /\ no_merges w2 = no_merges w1).
  { destruct (rb_hash_lookup rb_options "sort"); cbn [Check_Type_T_FIXNUM] in H2;
      try destruct (FIXABLE _); cbn [mbind rb_result_bind rb_bind] in H2;
      try destruct (FIX2INT _); cbn [mbind rb_result_bind rb_bind] in H2;
      try discriminate; injection H2 as <-; done. }
  assert (H3' : w_repo w3 = w_repo w2 /\ oid_only w3 = oid_only w2 /\
                stats_only w3 = stats_only w2 /\ no_merges w3 = no_merges w2).
  { apply (Hsame w2 w3 _ H3). destruct (rb_hash_lookup rb_options "show");
      first [by left | right; by eexists]. }
  assert (H4' : w_repo w4 = w_repo w3 /\ oid_only w4 = oid_only w3 /\
                stats_only w4 = stats_only w3 /\ no_merges w4 = no_merges w3).
  { apply (Hsame w3 w4 _ H4). destruct (rb_hash_lookup rb_options "hide");
      first [by left | right; by eexists]. }
  destruct H2' as (? & ? & ? & ?), H3' as (? & ? & ? & ?), H4' as (? & ? & ? & ?).
  destruct (RTEST (rb_hash_lookup rb_options "simplify")),
           (RTEST (rb_hash_lookup rb_options "oid_only"));
    cbn [w_repo oid_only stats_only no_merges set_walk set_oid_only];
    (split; [congruence|split; [congruence|]]);
    intros Hs; destruct (Hstats Hs); split; congruence.
Qed.

End StatsOnly.

(** X30: [stats_only] sets [no_merges] as well, and a bulk walk with
    [stats_only] set and [oid_only] not set yields nothing but the stats of
    commits with one parent at most. *)
Theorem walk_stats_only_yields_stats `{Libgit2} (repo : git_repository)
    (rb_options : rb_hash) (uninitialized : Z) :
  RTEST (rb_hash_lookup rb_options "stats_only") = true ->
  (forall w w', load_walk_limits w rb_options = rb_return w' ->
     stats_only w' = 1 /\ no_merges w' = 1) /\
  (RTEST (rb_hash_lookup rb_options "oid_only") = false ->
   Forall (stats_of_non_merge repo)
     (rb_git_walk repo (Some rb_options) uninitialized).1).
Proof.
  intros Hstats. split.
  - intros w w' Hload.
    apply load_walk_limits_fields in Hload as (_ & _ & _ & _ & Hs & _). auto.
  - intros Honly. unfold rb_git_walk.
    destruct (load_all_options _ rb_options) as [w'|e] eqn:Hload; [|constructor].
    apply load_all_options_fields in Hload as (Hrepo & Hoid & Hs).
    rewrite Honly in Hoid. cbn [oid_only w_repo] in *. destruct (Hs Hstats) as [Hso Hnm].
    unfold do_walk. destruct (revwalk_commits (w_walk w')) as [commits last].
    rewrite <- Hrepo. apply do_walk_loop_stats_only; [done|lia|lia].
Qed.

Lemma walk_stats_only_yields_stats_witness :
  Forall (stats_of_non_merge sample_repo)
    (rb_git_walk (H := sample_libgit2) sample_repo
       (sample_walk_options [("stats_only", Qtrue)]) 7).1.
Proof.
  apply (proj2 (walk_stats_only_yields_stats (H := sample_libgit2) sample_repo
     (sample_walk_hash [("stats_only", Qtrue)]) 7 ltac:(vm_compute; reflexivity))).
  vm_compute. reflexivity.
Defined.

(** C8: with [oid_only] set beside [stats_only], the walk of the sample
    repository from its merge commit yields the ids of all four commits as
    strings, the id of the merge commit first: no stats, and the merge is
    not left out, against what the documentation of [stats_only] and
    [no_merges] says. *)
Lemma walk_stats_only_with_oid_only :
  git_commit_parentcount commit_merge = 2 /\
  (rb_git_walk (H := sample_libgit2) sample_repo
     (sample_walk_options [("stats_only", Qtrue); ("oid_only", Qtrue)]) 0).1 =
    [rugged_create_oid (git_commit_id commit_merge);
     rugged_create_oid (git_commit_id commit_second);
     rugged_create_oid (git_commit_id commit_side);
     rugged_create_oid (git_commit_id commit_root)] /\
  rugged_create_oid (git_commit_id commit_merge) =
    rb_str "0000000000000000000000000000000000000004".
Proof. vm_compute. repeat split. Qed.

Example walk_stats_only_sample :
  map (fun v => match v with
                | rb_commit_stats s => Some (oid s, adds s, dels s)
                | _ => None
                end)
    (rb_git_walk (H := sample_libgit2) sample_repo
       (sample_walk_options [("stats_only", Qtrue)]) 0).1 =
  [Some (2, 2, 2); Some (3, 0, 0); Some (1, 3, 0)].
Proof. vm_compute. reflexivity. Qed.

(** ** Commits of one repository that another lacks *)

Lemma diff_between_repos_probe_spec repo1 odb2 id n found :
  first_parent_probe repo1 odb2 id n found ->
  forall fuel, (n <= fuel)%nat ->
    diff_between_repos_probe fuel repo1 odb2 id = Some (git_ok found).
Proof.
  induction 1 as [id Hin|id commit Hout Hc Hp|id commit parent others n found Hout Hc Hp _ IH];
    intros fuel Hfuel.
  - destruct fuel; simpl; unfold git_odb_exists; by rewrite bool_decide_eq_true_2.
  - destruct fuel as [|fuel]; [lia|]. simpl. unfold git_odb_exists.
    rewrite bool_decide_eq_false_2 by (rewrite Hout; by intros [? ?]).
    rewrite Hc. unfold git_commit_parent_id. by rewrite Hp.
  - destruct fuel as [|fuel]; [lia|]. simpl. unfold git_odb_exists.
    rewrite bool_decide_eq_false_2 by (rewrite Hout; by intros [? ?]).
    rewrite Hc. unfold git_commit_parent_id. rewrite Hp. simpl. apply IH. lia.
Qed.

(** C2: when the first-parent search from [commit1] passes [n] commits, the
    call returns (any fuel from [n] on is enough) the array of every id that
    libgit2 hands out, in its order and as 40-digit strings, for a walk of
    [repo2] sorted by time to which [commit2] alone was pushed, or raises
    the error that ended that walk before its end.  Nothing is hidden from
    the walk when the search left the root behind or when the match has no
    merge base with [commit2]; the first merge base is hidden otherwise. *)
Theorem diff_between_repos_cutoff `{Libgit2} (repo1 repo2 : git_repository)
    (commit1 commit2 : string) (oid1 oid2 : git_oid) (n : nat)
    (found : option git_oid) :
  RSTRING_LEN commit1 = GIT_OID_HEXSZ ->
  RSTRING_LEN commit2 = GIT_OID_HEXSZ ->
  git_oid_fromstr commit1 = git_ok oid1 ->
  git_oid_fromstr commit2 = git_ok oid2 ->
  first_parent_probe repo1 (repo_odb repo2) oid1 n found ->
  revwalk_push_error repo2 oid2 = None ->
  forall fuel, (n <= fuel)%nat ->
    let result :=
      rb_git_commit_diff_between_repos fuel (rb_repo repo1) (rb_str commit1)
        (rb_repo repo2) (rb_str commit2) in
    let history hidden :=
      revwalk_commits (mk_revwalk repo2 GIT_SORT_TIME [oid2] hidden false) in
    let walk_hiding hidden :=
      if error_code (history hidden).2 =? GIT_ITEROVER
      then rb_return (rb_ary (map rugged_create_oid (history hidden).1))
      else rb_raise (rb_eRuggedError (history hidden).2) in
    match found with
    | None => result = Some (walk_hiding [])
    | Some matched =>
        match git_merge_bases_many repo2 [matched; oid2] with
        | git_ok (base, _) =>
            revwalk_push_error repo2 base = None ->
            result = Some (walk_hiding [base])
        | git_fail e =>
            error_code e = GIT_ENOTFOUND -> result = Some (walk_hiding [])
        end
    end.
Proof.
  intros Hlen1 Hlen2 Hoid1 Hoid2 Hprobe Hpush fuel Hfuel result history walk_hiding.
  assert (Hcollect : forall hidden,
            revwalk_collect_oids (mk_revwalk repo2 GIT_SORT_TIME [oid2] hidden false) =
            walk_hiding hidden).
  { intros hidden. subst walk_hiding history. unfold revwalk_collect_oids. cbv beta.
    by destruct (revwalk_commits _) as [commits last]. }
  subst result. unfold rb_git_commit_diff_between_repos.
  cbn [rugged_check_repo Check_Type_T_STRING mbind rb_result_bind rb_bind].
  rewrite Hlen1, Hlen2, Z.ltb_irrefl. cbn [orb].
  rewrite Hoid1, Hoid2. cbn [rugged_exception_check mbind rb_result_bind rb_bind].
  unfold git_repository_odb.
  rewrite (diff_between_repos_probe_spec _ _ _ _ _ Hprobe fuel Hfuel).
  unfold git_revwalk_push, git_revwalk_hide, git_revwalk_sorting, git_revwalk_new.
  cbn [walk_repo walk_sorting walk_pushed walk_hidden walk_first_parent].
  rewrite Hpush. destruct found as [matched|].
  - destruct (git_merge_bases_many repo2 [matched; oid2]) as [[base others]|e].
    + intros Hhide. cbn [mbind rb_result_bind rb_bind walk_repo]. rewrite Hhide.
      cbn [rugged_exception_check mbind rb_result_bind rb_bind app].
      by rewrite Hcollect.
    + intros ->. cbn [rugged_exception_check mbind rb_result_bind rb_bind Z.eqb].
      change (GIT_ENOTFOUND =? GIT_ENOTFOUND) with true.
      cbn [rugged_exception_check mbind rb_result_bind rb_bind].
      by rewrite Hcollect.
  - cbn [rugged_exception_check mbind rb_result_bind rb_bind]. by rewrite Hcollect.
Qed.

Lemma diff_between_repos_cutoff_witness :
  rb_git_commit_diff_between_repos (H := sample_libgit2) 2
    (rb_repo sample_repo) (rb_str "0000000000000000000000000000000000000005")
    (rb_repo sample_repo_b) (rb_str "0000000000000000000000000000000000000006") =
  Some (rb_return (rb_ary [rugged_create_oid 6])).
Proof.
  assert (Hbases : git_merge_bases_many (Libgit2 := sample_libgit2) sample_repo_b
                     [2 : git_oid; 6 : git_oid] =
                   git_ok (2, [1])) by (vm_compute; reflexivity).
  assert (Hprobe : first_parent_probe sample_repo (repo_odb sample_repo_b) 5 2 (Some 2)).
  { eapply probe_step; [vm_compute; reflexivity..|].
    eapply probe_step; [vm_compute; reflexivity..|].
    apply probe_found. vm_compute. eauto. }
  pose proof (diff_between_repos_cutoff (H := sample_libgit2) sample_repo sample_repo_b
                "0000000000000000000000000000000000000005" "0000000000000000000000000000000000000006" 5 6 2 (Some 2) eq_refl eq_refl
                ltac:(vm_compute; reflexivity) ltac:(vm_compute; reflexivity)
                Hprobe ltac:(vm_compute; reflexivity) 2%nat ltac:(lia)) as Hthm.
  cbv zeta beta iota in Hthm. rewrite Hbases in Hthm.
  etransitivity; [apply Hthm; vm_compute; reflexivity|].
  vm_compute. reflexivity.
Defined.

(** On the sample repositories: the search from commit 5 of the first
    repository passes the merge commit by its first parent and ends on
    commit 2, which the second repository has; commit 6 alone is new. *)
Example diff_between_repos_sample :
  rb_git_commit_diff_between_repos (H := sample_libgit2) 2
    (rb_repo sample_repo) (rb_str "0000000000000000000000000000000000000005")
    (rb_repo sample_repo_b) (rb_str "0000000000000000000000000000000000000006") =
  Some (rb_return (rb_ary [rb_str "0000000000000000000000000000000000000006"])).
Proof. vm_compute. reflexivity. Qed.

(** ** The stats of a batch of commits *)

Section Batch.
Context `{Libgit2}.

Lemma stats_cb_never_stops lines :
  forall args, (diff_foreach_lines git_commit_stats_cb lines args).1 = None.
Proof.
  induction lines as [|[[delta hunk] line] rest IH]; intros args; [done|].
  cbn [diff_foreach_lines].
  assert (Hcode : (git_commit_stats_cb delta hunk line args).1 = GIT_OK).
  { unfold git_commit_stats_cb. repeat case_match; done. }
  destruct (git_commit_stats_cb delta hunk line args) as [code args'].
  cbn [fst] in Hcode. rewrite Hcode. cbn. apply IH.
Qed.

Lemma git_commit_stats_of_error repo tree parent_tree filter a0 d0 e a d :
  git_commit_stats_of repo tree parent_tree filter a0 d0 = (Some e, a, d) ->
  error_code e < 0.
Proof.
  unfold git_commit_stats_of.
  destruct (git_diff_tree_to_tree repo parent_tree tree) as [diff|e'] eqn:Hdiff.
  - unfold git_diff_foreach.
    pose proof (stats_cb_never_stops (diff_lines diff) (mk_cb_args 0 0 filter)) as Hnone.
    destruct (diff_foreach_lines _ _ _) as [stopped args]. cbn [fst] in Hnone. subst stopped.
    intros [= Herr _ _]. by eapply git_diff_foreach_fails.
  - intros [= <- _ _]. by eapply git_diff_tree_to_tree_fails.
Qed.

(** Where the diff can be made, the counts do not depend on what the
    counters held before. *)
Lemma git_commit_stats_of_ok repo tree parent_tree filter a0 d0 a d :
  git_commit_stats_of repo tree parent_tree filter a0 d0 = (None, a, d) ->
  forall a1 d1, git_commit_stats_of repo tree parent_tree filter a1 d1 = (None, a, d).
Proof.
  unfold git_commit_stats_of.
  destruct (git_diff_tree_to_tree repo parent_tree tree) as [diff|e']; [|discriminate].
  done.
Qed.

Lemma same_inputs_refl task : same_inputs task task.
Proof. by repeat split. Qed.

Lemma pool_inv_start repo init n :
  pool_inv repo init
    (mk_pool (mk_tasks repo 0 (Z.of_nat (List.length init)) init) (replicate n at_lock)).
Proof.
  constructor; cbn [payload threads tasks_repo tasks_nr top tasks]; try done.
  - lia.
  - apply Forall2_same_length_lookup_2; [done|].
    intros i a b Ha Hb. rewrite Ha in Hb. injection Hb as <-. apply same_inputs_refl.
  - intros t i Ht. apply lookup_replicate in Ht as [? _]. discriminate.
  - intros t Ht. apply lookup_replicate in Ht as [? _]. discriminate.
  - right. intros i task Hi. lia.
Qed.

Lemma claim_spec payload n :
  tasks_nr payload = n -> 0 <= top payload <= n -> n <= INT_MAX ->
  (top payload = n /\ claim payload = (payload, None)) \/
  (top payload < n /\
   claim payload =
     (mk_tasks (tasks_repo payload) (top payload + 1) n (tasks payload),
      Some (Z.to_nat (top payload)))).
Proof.
  intros Hnr Htop Hmax. unfold claim. rewrite Hnr.
  rewrite to_size_t_small by (unfold INT_MAX, UINT64_MAX in *; lia).
  destruct (Z.leb_spec n (top payload)); [left; split; [lia|done]|right].
  rewrite to_int_small by lia. done.
Qed.

Lemma work_spec payload i task :
  tasks payload !! i = Some task ->
  exists error a d,
    git_commit_stats_of (tasks_repo payload) (Some (task_tree task))
      (task_parent_tree task) None (adds (task_stats task)) (dels (task_stats task)) =
      (error, a, d) /\
    work payload i =
      (mk_tasks (tasks_repo payload) (top payload) (tasks_nr payload)
         (<[i := mk_task (task_tree task) (task_parent_tree task)
                   (mk_commit_stats a d (committer (task_stats task))
                      (author (task_stats task)) (oid (task_stats task)))]>
            (tasks payload)),
       match error with None => GIT_OK | Some e => error_code e end).
Proof.
  intros Htask. unfold work. rewrite Htask.
  destruct (git_commit_stats_of _ _ _ _ _ _) as [[error a] d]. by exists error, a, d.
Qed.

(** Replacing the state of a thread that was not at work on [i] keeps
    whoever is. *)
Lemma at_work_kept (ths : list worker) t w i :
  ths !! t <> Some (at_work i) ->
  (exists t', ths !! t' = Some (at_work i)) ->
  exists t', <[t := w]> ths !! t' = Some (at_work i).
Proof.
  intros Hne [t' Ht']. exists t'. rewrite list_lookup_insert_ne; [done|].
  intros ->. done.
Qed.

Lemma failed_kept (ths : list worker) t w :
  (forall e, ths !! t = Some (returned e) -> e = 0) ->
  (exists t' e, ths !! t' = Some (returned e) /\ e <> 0) ->
  exists t' e, <[t := w]> ths !! t' = Some (returned e) /\ e <> 0.
Proof.
  intros Hok (t' & e & Ht' & He). exists t', e. split; [|done].
  rewrite list_lookup_insert_ne; [done|]. intros ->. by apply Hok in Ht'.
Qed.

Lemma pool_inv_step repo init p ev :
  Z.of_nat (List.length init) <= INT_MAX ->
  pool_inv repo init p -> pool_inv repo init (pool_step p ev).
Proof.
  intros Hmax [Hrepo Hnr Htop Hinputs Hwork Hzero Hdone].
  assert (Hkeep : forall t w,
            threads p !! t = Some at_lock ->
            (exists t' e, threads p !! t' = Some (returned e) /\ e <> 0) ->
            exists t' e, <[t := w]> (threads p) !! t' = Some (returned e) /\ e <> 0).
  { intros t w Ht. apply failed_kept. intros e He. rewrite Ht in He. discriminate. }
  destruct ev as [t|t|t]; cbn [pool_step];
    destruct (threads p !! t) as [[|i|e]|] eqn:Ht; try (by constructor).
  - (* a thread takes the lock *)
    destruct (claim_spec (payload p) _ Hnr Htop Hmax) as [[Hfull ->]|[Hleft ->]];
      constructor; cbn [payload threads tasks_repo tasks_nr top tasks]; try done; try lia.
    + intros t' i Ht'. apply list_lookup_insert_Some in Ht' as [(_ & [=] & _)|[_ Ht']].
      by eapply Hwork.
    + destruct Hdone as [Hfail|Hdone]; [left; by apply Hkeep|right].
      intros i task Hi Htask. destruct (Hdone i task Hi Htask) as [?|Hw]; [by left|right].
      apply at_work_kept; [rewrite Ht; discriminate|done].
    + intros t' i Ht'. apply list_lookup_insert_Some in Ht' as [(_ & [= <-] & _)|[_ Ht']].
      * lia.
      * apply Hwork in Ht'. lia.
    + intros t' Ht'. apply list_lookup_insert_Some in Ht' as [(_ & [=] & _)|[_ Ht']].
      apply Hzero in Ht'. lia.
    + destruct Hdone as [Hfail|Hdone]; [left; by apply Hkeep|right].
      intros i task Hi Htask. destruct (decide (Z.of_nat i = top (payload p))) as [Heq|Hne].
      * right. exists t. rewrite list_lookup_insert_eq by (by eapply lookup_lt_Some).
        do 2 f_equal. lia.
      * destruct (Hdone i task ltac:(lia) Htask) as [?|Hw]; [by left|right].
        apply at_work_kept; [rewrite Ht; discriminate|done].
  - (* a thread works on its task *)
    pose proof (Hwork t i Ht) as Hi.
    destruct (lookup_lt_is_Some_2 (tasks (payload p)) i) as [task Htask].
    { rewrite <- (Forall2_length _ _ _ Hinputs). lia. }
    destruct (Forall2_lookup_r _ _ _ _ _ Hinputs Htask) as (task0 & Htask0 & Hsame).
    destruct (work_spec (payload p) i task Htask) as (error & a & d & Hstats & ->).
    assert (Hinputs' : Forall2 same_inputs init
              (<[i := mk_task (task_tree task) (task_parent_tree task)
                        (mk_commit_stats a d (committer (task_stats task))
                           (author (task_stats task)) (oid (task_stats task)))]>
                 (tasks (payload p)))).
    { rewrite <- (list_insert_id init i task0 Htask0). apply Forall2_insert; [done|].
      destruct Hsame as (? & ? & ? & ? & ?). by repeat split. }
    destruct error as [e|].
    + pose proof (git_commit_stats_of_error _ _ _ _ _ _ _ _ _ Hstats) as Hneg.
      destruct (Z.eqb_spec (error_code e) GIT_OK) as [H0|_]; [unfold GIT_OK in H0; lia|].
      constructor; cbn [payload threads tasks_repo tasks_nr top tasks]; try done.
      * intros t' j Ht'. apply list_lookup_insert_Some in Ht' as [(_ & [=] & _)|[_ Ht']].
        by eapply Hwork.
      * intros t' Ht'. apply list_lookup_insert_Some in Ht' as [(_ & [= H0] & _)|[_ Ht']].
        -- lia.
        -- by apply Hzero in Ht'.
      * left. exists t, (error_code e). split; [|lia].
        apply list_lookup_insert_eq. by eapply lookup_lt_Some.
    + change (GIT_OK =? GIT_OK) with true.
      constructor; cbn [payload threads tasks_repo tasks_nr top tasks]; try done.
      * intros t' j Ht'. apply list_lookup_insert_Some in Ht' as [(_ & [=] & _)|[_ Ht']].
        by eapply Hwork.
      * intros t' Ht'. apply list_lookup_insert_Some in Ht' as [(_ & [=] & _)|[_ Ht']].
        by apply Hzero in Ht'.
      * destruct Hdone as [Hfail|Hdone]; [left|right].
        { apply failed_kept; [|done]. intros e He. rewrite Ht in He. discriminate. }
        intros j task' Hj Htask'.
        apply list_lookup_insert_Some in Htask' as [(<- & <- & _)|[Hne Htask']].
        -- left. unfold task_done. cbn [task_tree task_parent_tree task_stats adds dels].
           rewrite <- Hrepo. by apply (git_commit_stats_of_ok _ _ _ _ _ _ _ _ Hstats).
        -- destruct (Hdone j task' Hj Htask') as [?|Hw]; [by left|right].
           apply at_work_kept; [|done]. rewrite Ht. intros [= ->]. done.
  - (* locking the mutex fails *)
    constructor; cbn [payload threads]; try done.
    + intros t' i Ht'. apply list_lookup_insert_Some in Ht' as [(_ & [=] & _)|[_ Ht']].
      by eapply Hwork.
    + intros t' Ht'. apply list_lookup_insert_Some in Ht' as [(_ & [=] & _)|[_ Ht']].
      by apply Hzero in Ht'.
    + left. exists t, (-1). split; [|done].
      apply list_lookup_insert_eq. by eapply lookup_lt_Some.
  - (* unlocking the mutex fails *)
    destruct (claim_spec (payload p) _ Hnr Htop Hmax) as [[Hfull ->]|[Hleft ->]];
      constructor; cbn [payload threads tasks_repo tasks_nr top tasks fst]; try done; try lia.
    + intros t' i Ht'. apply list_lookup_insert_Some in Ht' as [(_ & [=] & _)|[_ Ht']].
      by eapply Hwork.
    + left. exists t, (-1). split; [|done].
      apply list_lookup_insert_eq. by eapply lookup_lt_Some.
    + intros t' i Ht'. apply list_lookup_insert_Some in Ht' as [(_ & [=] & _)|[_ Ht']].
      apply Hwork in Ht'. lia.
    + intros t' Ht'. apply list_lookup_insert_Some in Ht' as [(_ & [=] & _)|[_ Ht']].
      apply Hzero in Ht'. lia.
    + left. exists t, (-1). split; [|done].
      apply list_lookup_insert_eq. by eapply lookup_lt_Some.
Qed.

Lemma pool_run_cons p ev schedule :
  pool_run p (ev :: schedule) = pool_run (pool_step p ev) schedule.
Proof. reflexivity. Qed.

Lemma pool_inv_run repo init schedule :
  Z.of_nat (List.length init) <= INT_MAX ->
  forall p, pool_inv repo init p -> pool_inv repo init (pool_run p schedule).
Proof.
  intros Hmax. induction schedule as [|ev schedule IH]; intros p Hinv; [done|].
  rewrite pool_run_cons. by apply IH, pool_inv_step.
Qed.

Lemma work_top payload i : top (work payload i).1 = top payload.
Proof.
  unfold work. destruct (tasks payload !! i); [|done].
  by destruct (git_commit_stats_of _ _ _ _ _ _) as [[error a] d].
Qed.

Lemma pool_step_threads p ev :
  List.length (threads (pool_step p ev)) = List.length (threads p).
Proof.
  destruct ev as [t|t|t]; cbn [pool_step];
    destruct (threads p !! t) as [[| |]|]; try done.
  - destruct (claim (payload p)). cbn. by rewrite length_insert.
  - destruct (work (payload p) _). cbn. by rewrite length_insert.
  - cbn. by rewrite length_insert.
  - cbn. by rewrite length_insert.
Qed.

Lemma pool_run_threads schedule :
  forall p, List.length (threads (pool_run p schedule)) = List.length (threads p).
Proof.
  induction schedule as [|ev schedule IH]; intros p; [done|].
  by rewrite pool_run_cons, IH, pool_step_threads.
Qed.

Lemma work_code payload i : (work payload i).2 <= 0.
Proof.
  unfold work. destruct (tasks payload !! i); [|done].
  destruct (git_commit_stats_of _ _ _ _ _ _) as [[[e|] a] d] eqn:Hstats; [|done].
  apply git_commit_stats_of_error in Hstats. cbn. lia.
Qed.

Lemma codes_nonpositive_step p ev :
  codes_nonpositive p -> codes_nonpositive (pool_step p ev).
Proof.
  intros Hcodes. destruct ev as [t|t|t]; cbn [pool_step];
    destruct (threads p !! t) as [[|i|e]|] eqn:Ht; try done.
  - destruct (claim (payload p)) as [payload' [i|]]; intros t' e' Ht'; cbn in Ht';
      apply list_lookup_insert_Some in Ht' as [(_ & [= <-] & _)|[_ Ht']];
      done || by eapply Hcodes.
  - pose proof (work_code (payload p) i) as Hcode.
    destruct (work (payload p) i) as [payload' error]. cbn [snd] in Hcode.
    intros t' e' Ht'. cbn in Ht'.
    apply list_lookup_insert_Some in Ht' as [(_ & Hw & _)|[_ Ht']]; [|by eapply Hcodes].
    destruct (error =? GIT_OK); [discriminate|]. by injection Hw as <-.
  - intros t' e' Ht'. cbn in Ht'.
    apply list_lookup_insert_Some in Ht' as [(_ & [= <-] & _)|[_ Ht']];
      done || by eapply Hcodes.
  - intros t' e' Ht'. cbn in Ht'.
    apply list_lookup_insert_Some in Ht' as [(_ & [= <-] & _)|[_ Ht']];
      done || by eapply Hcodes.
Qed.

Lemma codes_nonpositive_run schedule :
  forall p, codes_nonpositive p -> codes_nonpositive (pool_run p schedule).
Proof.
  induction schedule as [|ev schedule IH]; intros p Hp; [done|].
  rewrite pool_run_cons. by apply IH, codes_nonpositive_step.
Qed.

Lemma join_threads_is_Some ths :
  (forall t w, ths !! t = Some w -> exists e, w = returned e) ->
  is_Some (join_threads ths).
Proof.
  induction ths as [|w ths IH]; intros Hall; [by eexists|].
  destruct (Hall 0%nat w eq_refl) as [e ->]. cbn [join_threads].
  destruct (e =? GIT_OK); [|by eexists].
  apply IH. intros t w Ht. by apply (Hall (S t)).
Qed.

Lemma join_threads_zero ths :
  join_threads ths = Some 0 ->
  forall t w, ths !! t = Some w -> w = returned 0.
Proof.
  induction ths as [|w0 ths IH]; intros Hjoin t w Ht; [done|].
  destruct w0 as [| |e]; try discriminate. cbn [join_threads] in Hjoin.
  destruct (Z.eqb_spec e GIT_OK) as [->|Hne].
  - destruct t as [|t]; [by injection Ht as <-|]. by eapply IH.
  - injection Hjoin as ->. done.
Qed.

Lemma join_threads_code ths error :
  join_threads ths = Some error ->
  error = 0 \/ exists t, ths !! t = Some (returned error).
Proof.
  induction ths as [|w0 ths IH]; intros Hjoin; [left; by injection Hjoin|].
  destruct w0 as [| |e]; try discriminate. cbn [join_threads] in Hjoin.
  destruct (e =? GIT_OK).
  - destruct (IH Hjoin) as [?|[t Ht]]; [by left|right; by exists (S t)].
  - injection Hjoin as ->. right. by exists 0%nat.
Qed.

Lemma turns_left_step repo init p ev t :
  Z.of_nat (List.length init) <= INT_MAX ->
  pool_inv repo init p ->
  (turns_left (List.length init) (pool_step p ev) t <=
     turns_left (List.length init) p t - turn_of t ev)%nat.
Proof.
  intros Hmax [Hrepo Hnr Htop Hinputs Hwork Hzero Hdone].
  assert (Hset : forall t0 w payload',
            (Z.to_nat (top (payload p)) <= Z.to_nat (top payload'))%nat ->
            t0 <> t ->
            (turns_left (List.length init) (mk_pool payload' (<[t0 := w]> (threads p))) t <=
               turns_left (List.length init) p t)%nat).
  { intros t0 w payload' Hle Hne. unfold turns_left. cbn [threads payload].
    rewrite list_lookup_insert_ne by done. destruct (threads p !! t) as [[| |]|]; lia. }
  assert (Hself : forall t0 w payload' k,
            threads p !! t0 = Some w ->
            (turns_left (List.length init) (mk_pool payload' (<[t0 := k]> (threads p))) t0 =
               match k with
               | at_lock => 2 * (List.length init - Z.to_nat (top payload')) + 1
               | at_work _ => 2 * (List.length init - Z.to_nat (top payload')) + 2
               | returned _ => 0
               end)%nat).
  { intros t0 w payload' k Ht0. unfold turns_left. cbn [threads payload].
    rewrite list_lookup_insert_eq by (by eapply lookup_lt_Some). done. }
  destruct ev as [t0|t0|t0]; cbn [pool_step turn_of];
    destruct (threads p !! t0) as [[|i|e]|] eqn:Ht0;
    try (destruct (decide (t0 = t)) as [->|Hne]; unfold turns_left; rewrite ?Ht0; lia);
    try (unfold turns_left; lia).
  - destruct (claim_spec (payload p) _ Hnr Htop Hmax) as [[Hfull ->]|[Hleft ->]];
      (destruct (decide (t0 = t)) as [->|Hne];
       [erewrite Hself by done; unfold turns_left; rewrite Ht0; cbn [top]; lia
       |etransitivity; [apply Hset; [cbn [top]; lia|done]|lia]]).
  - pose proof (work_top (payload p) i) as Hsame.
    destruct (work (payload p) i) as [payload' error]. cbn [fst] in Hsame.
    destruct (decide (t0 = t)) as [->|Hne].
    + erewrite Hself by done. unfold turns_left. rewrite Ht0, Hsame.
      destruct (error =? GIT_OK); lia.
    + etransitivity; [apply Hset; [lia|done]|lia].
  - destruct (decide (t0 = t)) as [->|Hne].
    + erewrite Hself by done. lia.
    + etransitivity; [apply Hset; [lia|done]|lia].
  - destruct (claim_spec (payload p) _ Hnr Htop Hmax) as [[Hfull ->]|[Hleft ->]];
      cbn [fst];
      (destruct (decide (t0 = t)) as [->|Hne];
       [erewrite Hself by done; lia
       |etransitivity; [apply Hset; [cbn [top]; lia|done]|lia]]).
Qed.

Lemma count_runs_cons t ev schedule :
  count_runs t (ev :: schedule) = (turn_of t ev + count_runs t schedule)%nat.
Proof. reflexivity. Qed.

Lemma turns_left_run repo init schedule t :
  Z.of_nat (List.length init) <= INT_MAX ->
  forall p, pool_inv repo init p ->
    (turns_left (List.length init) (pool_run p schedule) t <=
       turns_left (List.length init) p t - count_runs t schedule)%nat.
Proof.
  intros Hmax. induction schedule as [|ev schedule IH]; intros p Hinv.
  - cbn. lia.
  - rewrite pool_run_cons, count_runs_cons.
    pose proof (turns_left_step repo init p ev t Hmax Hinv).
    pose proof (IH _ (pool_inv_step repo init p ev Hmax Hinv)). lia.
Qed.

Lemma no_failure_step repo init p t :
  Z.of_nat (List.length init) <= INT_MAX ->
  pool_inv repo init p ->
  Forall (diff_succeeds repo) init ->
  no_failure p -> no_failure (pool_step p (ev_run t)).
Proof.
  intros Hmax [Hrepo Hnr Htop Hinputs Hwork Hzero Hdone] Hok Hno.
  cbn [pool_step]. destruct (threads p !! t) as [[|i|e]|] eqn:Ht; try done.
  - destruct (claim (payload p)) as [payload' [i|]]; intros t' e' Ht'; cbn in Ht';
      apply list_lookup_insert_Some in Ht' as [(_ & [= <-] & _)|[_ Ht']];
      done || by eapply Hno.
  - pose proof (Hwork t i Ht) as Hi.
    destruct (lookup_lt_is_Some_2 (tasks (payload p)) i) as [task Htask].
    { rewrite <- (Forall2_length _ _ _ Hinputs). lia. }
    destruct (Forall2_lookup_r _ _ _ _ _ Hinputs Htask) as (task0 & Htask0 & Hsame).
    destruct (work_spec (payload p) i task Htask) as (error & a & d & Hstats & ->).
    rewrite Forall_lookup in Hok. destruct (Hok i task0 Htask0) as (a0 & d0 & Hdiff).
    destruct Hsame as (Htree & Hparent & _). rewrite Hrepo, Htree, Hparent in Hstats.
    rewrite (git_commit_stats_of_ok _ _ _ _ _ _ _ _ Hdiff) in Hstats.
    injection Hstats as <- _ _. change (GIT_OK =? GIT_OK) with true.
    intros t' e' Ht'. cbn in Ht'.
    apply list_lookup_insert_Some in Ht' as [(_ & [=] & _)|[_ Ht']]. by eapply Hno.
Qed.

Lemma no_failure_run repo init schedule :
  Z.of_nat (List.length init) <= INT_MAX ->
  Forall (diff_succeeds repo) init ->
  calm schedule ->
  forall p, pool_inv repo init p -> no_failure p -> no_failure (pool_run p schedule).
Proof.
  intros Hmax Hok. induction 1 as [|ev schedule [t ->] _ IH]; intros p Hinv Hno; [done|].
  rewrite pool_run_cons. apply IH; [by apply pool_inv_step|by eapply no_failure_step].
Qed.

End Batch.

Lemma prepare_tasks_spec (commits : list (git_repository * git_commit)) :
  forall init,
    prepare_tasks (map commit_value commits) = rb_return init ->
    Forall2 (fun oc task => prepare_task oc.1 oc.2 = git_ok task) commits init.
Proof.
  induction commits as [|[owner commit] commits IH]; intros init Hprep.
  - injection Hprep as <-. constructor.
  - cbn in Hprep. destruct (prepare_task owner commit) as [task|] eqn:Htask; [|discriminate].
    cbn in Hprep. destruct (prepare_tasks (map commit_value commits)) as [rest|] eqn:Hrest;
      [|discriminate].
    injection Hprep as <-. constructor; [done|by apply IH].
Qed.

Lemma prepare_tasks_ok (commits : list (git_repository * git_commit)) :
  Forall (fun oc => exists task, prepare_task oc.1 oc.2 = git_ok task) commits ->
  exists init, prepare_tasks (map commit_value commits) = rb_return init.
Proof.
  induction 1 as [|[owner commit] commits [task Htask] _ [rest IH]]; [by eexists|].
  exists (task :: rest). cbn in *. by rewrite Htask, IH.
Qed.

Lemma prepare_task_spec owner commit task :
  prepare_task owner commit = git_ok task <->
  exists tree parent_tree,
    git_commit_tree owner commit = git_ok tree /\
    first_parent_tree owner commit = git_ok parent_tree /\
    task = mk_task tree parent_tree
             (mk_commit_stats 0 0 (Some (git_commit_committer commit))
                (Some (git_commit_author commit)) (git_commit_id commit)).
Proof.
  unfold prepare_task. split.
  - destruct (first_parent_tree owner commit) as [parent_tree|]; [|discriminate].
    destruct (git_commit_tree owner commit) as [tree|]; [|discriminate].
    intros [= <-]. by exists tree, parent_tree.
  - intros (tree & parent_tree & -> & -> & ->). done.
Qed.

Section BatchResult.
Context `{Libgit2}.

Lemma batch_nr_threads_min arrlen :
  1 <= git_online_cpus <= INT_MAX ->
  batch_nr_threads arrlen = Z.min arrlen git_online_cpus.
Proof.
  intros Hcpus. unfold batch_nr_threads.
  rewrite to_size_t_small by (unfold INT_MAX, UINT64_MAX in *; lia).
  destruct (Z.ltb_spec arrlen git_online_cpus); lia.
Qed.

Lemma batch_unfold repo (commits : list (git_repository * git_commit)) schedule :
  rb_git_commit_stats (rb_repo repo) (rb_ary (map commit_value commits)) schedule =
    match prepare_tasks (map commit_value commits) with
    | rb_raise e => Some (rb_raise e)
    | rb_return init =>
        let finished := pool_run (batch_start repo init) schedule in
        match join_threads (threads finished) with
        | None => None
        | Some error =>
            Some (if error =? GIT_OK then
                    rb_return (rb_ary (map (fun task => rugged_commit_stats_new (task_stats task))
                                           (tasks (payload finished))))
                  else if error <? 0 then
                    rb_raise (rb_eRuggedError (mk_git_error error GITERR_NONE ""))
                  else rb_return Qnil)
        end
    end.
Proof.
  unfold rb_git_commit_stats, batch_start. cbn [rugged_check_repo].
  destruct (prepare_tasks (map commit_value commits)) as [init|e] eqn:Hprep; [|done].
  apply prepare_tasks_spec, Forall2_length in Hprep.
  by rewrite length_map, Hprep.
Qed.

Lemma pool_inv_batch_start repo init : pool_inv repo init (batch_start repo init).
Proof. apply pool_inv_start. Qed.

(** Every thread that got its turns has returned. *)
Lemma batch_complete repo init schedule :
  Z.of_nat (List.length init) <= INT_MAX ->
  (forall t, (t < Z.to_nat (batch_nr_threads (Z.of_nat (List.length init))))%nat ->
             (2 * List.length init + 1 <= count_runs t schedule)%nat) ->
  is_Some (join_threads (threads (pool_run (batch_start repo init) schedule))).
Proof.
  intros Hmax Hfair. apply join_threads_is_Some. intros t w Ht.
  pose proof (lookup_lt_Some _ _ _ Ht) as Hlt.
  rewrite pool_run_threads in Hlt. unfold batch_start in Hlt. cbn [threads] in Hlt.
  rewrite length_replicate in Hlt.
  pose proof (turns_left_run repo init schedule t Hmax _ (pool_inv_batch_start repo init))
    as Hturns.
  assert (Hstart : turns_left (List.length init) (batch_start repo init) t =
                     (2 * List.length init + 1)%nat).
  { unfold turns_left, batch_start. cbn [threads payload top].
    rewrite lookup_replicate_2 by done. change (Z.to_nat 0) with 0%nat. lia. }
  specialize (Hfair t Hlt). unfold turns_left in Hturns at 1. rewrite Ht in Hturns.
  destruct w as [| |e]; [lia|lia|by exists e].
Qed.

(** When every thread returned zero, every task holds its counts. *)
Lemma batch_all_done repo init schedule :
  1 <= git_online_cpus <= INT_MAX ->
  Z.of_nat (List.length init) <= INT_MAX ->
  join_threads (threads (pool_run (batch_start repo init) schedule)) = Some 0 ->
  Forall2 (fun task0 task => same_inputs task0 task /\ task_done repo task)
    init (tasks (payload (pool_run (batch_start repo init) schedule))).
Proof.
  intros Hcpus Hmax Hjoin.
  pose proof (pool_inv_run repo init schedule Hmax _ (pool_inv_batch_start repo init)) as Hinv.
  pose proof (join_threads_zero _ Hjoin) as Hall.
  destruct Hinv as [Hrepo Hnr Htop Hinputs Hwork Hzero Hdone].
  apply Forall2_same_length_lookup_2; [by eapply Forall2_length|].
  intros i task0 task Htask0 Htask. split; [by eapply Forall2_lookup_lr|].
  pose proof (lookup_lt_Some _ _ _ Htask0) as Hi.
  assert (Hfirst : is_Some (threads (pool_run (batch_start repo init) schedule) !! 0%nat)).
  { apply lookup_lt_is_Some_2. rewrite pool_run_threads. unfold batch_start.
    cbn [threads]. rewrite length_replicate, batch_nr_threads_min by done. lia. }
  destruct Hfirst as [w Hw]. pose proof (Hall _ _ Hw) as ->. apply Hzero in Hw.
  destruct Hdone as [(t & e & Ht & He)|Hdone].
  - apply Hall in Ht. by injection Ht as ->.
  - destruct (Hdone i task ltac:(lia) Htask) as [?|[t Ht]]; [done|].
    apply Hall in Ht. discriminate.
Qed.

End BatchResult.

(** C3: the batch starts min(CPUs, N) threads.  Every schedule that gives
    each of them 2N+1 turns lets the batch end.  Whatever the interleaving,
    a batch that returns a value returns the list of the stats of the
    commits in input order: entry [i] has the id and the signatures of
    commit [i] and the counts of the diff of its tree against the tree of
    its first parent.  And when those diffs can all be made and no mutex
    call fails, a batch that ends returns such a value. *)
Theorem stats_batch_in_order `{Libgit2} (repo : git_repository)
    (commits : list (git_repository * git_commit)) :
  1 <= git_online_cpus <= INT_MAX ->
  Z.of_nat (List.length commits) <= INT_MAX ->
  let n := List.length commits in
  let batch := rb_git_commit_stats (rb_repo repo) (rb_ary (map commit_value commits)) in
  batch_nr_threads (Z.of_nat n) = Z.min (Z.of_nat n) git_online_cpus /\
  (forall schedule,
     (forall t, (t < Z.to_nat (batch_nr_threads (Z.of_nat n)))%nat ->
                (2 * n + 1 <= count_runs t schedule)%nat) ->
     is_Some (batch schedule)) /\
  (forall schedule results,
     batch schedule = Some (rb_return results) ->
     exists l, results = rb_ary l /\ Forall2 (stats_of_commit repo) commits l) /\
  (forall schedule r,
     calm schedule ->
     Forall (fun oc => exists v, stats_of_commit repo oc v) commits ->
     batch schedule = Some r ->
     exists results, r = rb_return results).
Proof.
  intros Hcpus Hmax n batch. subst n batch. split; [by apply batch_nr_threads_min|].
  split; [|split].
  - intros schedule Hfair. rewrite batch_unfold.
    destruct (prepare_tasks (map commit_value commits)) as [init|e] eqn:Hprep; [|by eexists].
    apply prepare_tasks_spec, Forall2_length in Hprep. rewrite Hprep in *.
    cbv zeta. destruct (batch_complete repo init schedule Hmax Hfair) as [error ->].
    by eexists.
  - intros schedule results. rewrite batch_unfold.
    destruct (prepare_tasks (map commit_value commits)) as [init|e] eqn:Hprep; [|discriminate].
    apply prepare_tasks_spec in Hprep. pose proof (Forall2_length _ _ _ Hprep) as Hlen.
    rewrite Hlen in Hmax. cbv zeta.
    destruct (join_threads _) as [error|] eqn:Hjoin; [|discriminate].
    assert (Hcode : error <= 0).
    { destruct (join_threads_code _ _ Hjoin) as [->|[t Ht]]; [done|].
      eapply (codes_nonpositive_run schedule (batch_start repo init)); [|done].
      intros t' e' Ht'. unfold batch_start in Ht'. cbn [threads] in Ht'.
      apply lookup_replicate in Ht' as [? _]. discriminate. }
    destruct (Z.eqb_spec error GIT_OK) as [->|Hne].
    + intros [= <-]. eexists. split; [reflexivity|].
      pose proof (batch_all_done repo init schedule Hcpus Hmax Hjoin) as Hdone.
      apply Forall2_fmap_r, Forall2_same_length_lookup_2.
      { rewrite Hlen. by eapply Forall2_length. }
      intros i [owner commit] task Hoc Hith.
      destruct (Forall2_lookup_l _ _ _ _ _ Hprep Hoc) as (task0 & Htask0 & Hprepared).
      destruct (Forall2_lookup_lr _ _ _ _ _ _ Hdone Htask0 Hith) as [Hsame Htask].
      cbn [fst snd] in *.
      apply prepare_task_spec in Hprepared as (tree & parent_tree & Htree & Hparent & ->).
      destruct Hsame as (Ht & Hp & Hoid & Hauthor & Hcommitter).
      cbn [task_tree task_parent_tree task_stats oid author committer] in *.
      exists (task_stats task), tree, parent_tree. unfold task_done in Htask.
      rewrite Ht, Hp in Htask. by repeat split.
    + destruct (Z.ltb_spec error 0); [discriminate|]. unfold GIT_OK in Hne. lia.
  - intros schedule r Hcalm Hall. rewrite batch_unfold.
    assert (Hprep : exists init, prepare_tasks (map commit_value commits) = rb_return init).
    { apply prepare_tasks_ok. eapply Forall_impl; [exact Hall|].
      intros [owner commit] (v & stats & tree & parent_tree & _ & _ & _ & _ & Ht & Hp & _).
      cbn [fst snd] in *. eexists. apply prepare_task_spec. by exists tree, parent_tree. }
    destruct Hprep as [init Hprep]. rewrite Hprep. cbv zeta.
    apply prepare_tasks_spec in Hprep. pose proof (Forall2_length _ _ _ Hprep) as Hlen.
    rewrite Hlen in Hmax.
    destruct (join_threads _) as [error|] eqn:Hjoin; [|discriminate].
    assert (Hok : Forall (diff_succeeds repo) init).
    { apply Forall_lookup. intros i task0 Htask0.
      destruct (Forall2_lookup_r _ _ _ _ _ Hprep Htask0) as ([owner commit] & Hoc & Hprepared).
      rewrite Forall_lookup in Hall.
      destruct (Hall i _ Hoc) as (v & stats & tree & parent_tree & _ & _ & _ & _ & Ht & Hp & Hdiff).
      cbn [fst snd] in *.
      apply prepare_task_spec in Hprepared as (tree' & parent_tree' & Ht' & Hp' & ->).
      rewrite Ht in Ht'. rewrite Hp in Hp'. injection Ht' as <-. injection Hp' as <-.
      by exists (adds stats), (dels stats). }
    assert (Hzero : error = 0).
    { destruct (join_threads_code _ _ Hjoin) as [->|[t Ht]]; [done|].
      eapply (no_failure_run repo init schedule Hmax Hok Hcalm (batch_start repo init));
        [apply pool_inv_batch_start| |exact Ht].
      intros t' e' Ht'. unfold batch_start in Ht'. cbn [threads] in Ht'.
      apply lookup_replicate in Ht' as [? _]. discriminate. }
    subst error. intros [= <-]. by eexists.
Qed.

Lemma stats_batch_in_order_witness :
  exists l,
    rb_git_commit_stats (H := sample_libgit2) (rb_repo sample_repo)
      (rb_ary (map commit_value sample_batch)) sample_schedule =
      Some (rb_return (rb_ary l)) /\
    Forall2 (stats_of_commit (H := sample_libgit2) sample_repo) sample_batch l.
Proof.
  assert (Hrun : exists results,
            rb_git_commit_stats (H := sample_libgit2) (rb_repo sample_repo)
              (rb_ary (map commit_value sample_batch)) sample_schedule =
              Some (rb_return results)) by (vm_compute; eexists; reflexivity).
  destruct Hrun as [results Hrun].
  destruct (proj1 (proj2 (proj2
              (stats_batch_in_order (H := sample_libgit2) sample_repo sample_batch
                 ltac:(vm_compute; split; discriminate) ltac:(vm_compute; discriminate))))
              sample_schedule results Hrun) as (l & -> & Hstats).
  exists l. split; [exact Hrun|exact Hstats].
Defined.

(** The schedule above lets thread 1 finish the second commit before
    thread 0 finishes the first; the output is in input order all the
    same. *)
Example stats_batch_sample :
  rb_git_commit_stats (H := sample_libgit2) (rb_repo sample_repo)
    (rb_ary (map commit_value sample_batch)) sample_schedule =
  Some (rb_return (rb_ary
    [rb_commit_stats (mk_commit_stats 3 0 (Some sig_alice) (Some sig_alice) 1);
     rb_commit_stats (mk_commit_stats 2 2 (Some sig_alice) (Some sig_bob) 2);
     rb_commit_stats (mk_commit_stats 0 0 (Some sig_bob) (Some sig_alice) 3)])).
Proof. vm_compute. reflexivity. Qed.

(** ** Ids as hex strings *)

Lemma fromhex_hex_digit v : 0 <= v < 16 -> git__fromhex (hex_digit v) = v.
Proof.
  intros Hv.
  assert (Hcases : v = 0 \/ v = 1 \/ v = 2 \/ v = 3 \/ v = 4 \/ v = 5 \/ v = 6 \/ v = 7 \/
                   v = 8 \/ v = 9 \/ v = 10 \/ v = 11 \/ v = 12 \/ v = 13 \/ v = 14 \/
                   v = 15) by lia.
  repeat (destruct Hcases as [->|Hcases]; [reflexivity|]). by subst v.
Qed.

Lemma land_15_range id : 0 <= Z.land id 15 < 16.
Proof.
  change 15 with (Z.ones 4). rewrite Z.land_ones by lia.
  change (2 ^ 4) with 16. apply Z.mod_pos_bound. lia.
Qed.

Lemma oid_fmt_loop_digits n :
  forall id acc,
    list_ascii_of_string (oid_fmt_loop n id acc) =
      map hex_digit (oid_digits n id) ++ list_ascii_of_string acc.
Proof.
  induction n as [|k IH]; intros id acc; [done|].
  cbn [oid_fmt_loop oid_digits]. rewrite IH, map_app, <- app_assoc. done.
Qed.

Lemma length_oid_digits n : forall id, List.length (oid_digits n id) = n.
Proof.
  induction n as [|k IH]; intros id; [done|].
  cbn [oid_digits]. rewrite length_app, IH. cbn. lia.
Qed.

Lemma oid_fromstrn_loop_app l1 :
  forall l2 p out,
    oid_fromstrn_loop (l1 ++ l2) p out =
      match oid_fromstrn_loop l1 p out with
      | git_ok out' => oid_fromstrn_loop l2 (p + Z.of_nat (List.length l1)) out'
      | git_fail e => git_fail e
      end.
Proof.
  induction l1 as [|c l1 IH]; intros l2 p out.
  - cbn. by rewrite Z.add_0_r.
  - cbn [app oid_fromstrn_loop List.length]. destruct (git__fromhex c <? 0); [done|].
    rewrite IH. replace (p + 1 + Z.of_nat (List.length l1))
      with (p + Z.of_nat (S (List.length l1))) by lia. done.
Qed.

(** One more digit below [k] bits of the digits above it. *)
Lemma land_ones_digit id k :
  0 <= k ->
  Z.lor (Z.shiftl (Z.land (Z.shiftr id 4) (Z.ones k)) 4) (Z.land id 15) =
    Z.land id (Z.ones (k + 4)).
Proof.
  intros Hk. apply Z.bits_inj'. intros i Hi.
  rewrite Z.lor_spec, !Z.land_spec, Z.shiftl_spec by done.
  change 15 with (Z.ones 4).
  rewrite (Z.testbit_ones_nonneg 4 i), (Z.testbit_ones_nonneg (k + 4) i) by lia.
  destruct (Z.ltb_spec i 4) as [Hlow|Hhigh].
  - rewrite (Z.testbit_neg_r _ (i - 4)) by lia.
    destruct (Z.ltb_spec i (k + 4)); [|lia]. by rewrite andb_true_r.
  - rewrite Z.land_spec, Z.shiftr_spec, Z.testbit_ones_nonneg by lia.
    replace (i - 4 + 4) with i by lia. rewrite andb_false_r, orb_false_r.
    destruct (Z.ltb_spec (i - 4) k), (Z.ltb_spec i (k + 4)); done || lia.
Qed.

(** Reading the digits of an id back: digit [p] and the ones after it fill
    the nibbles from [39 - p] down. *)
Lemma oid_fromstrn_loop_digits n :
  forall id p out,
    0 <= p -> p + Z.of_nat n <= 40 ->
    oid_fromstrn_loop (map hex_digit (oid_digits n id)) p out =
      git_ok (Z.lor out (Z.shiftl (Z.land id (Z.ones (4 * Z.of_nat n)))
                                  (4 * (40 - p - Z.of_nat n)))).
Proof.
  induction n as [|k IH]; intros id p out Hp Hn.
  - cbn. change (Z.ones 0) with 0. by rewrite Z.land_0_r, Z.shiftl_0_l, Z.lor_0_r.
  - cbn [oid_digits]. rewrite map_app, oid_fromstrn_loop_app, IH by lia.
    rewrite length_map, length_oid_digits. cbn [map oid_fromstrn_loop].
    pose proof (land_15_range id) as Hd. rewrite fromhex_hex_digit by done.
    destruct (Z.ltb_spec (Z.land id 15) 0); [lia|]. f_equal.
    rewrite <- Z.lor_assoc. f_equal.
    replace (4 * Z.of_nat (S k)) with (4 * Z.of_nat k + 4) by lia.
    rewrite <- land_ones_digit by lia. rewrite Z.shiftl_lor, Z.shiftl_shiftl by lia.
    f_equal; f_equal; lia.
Qed.

Lemma length_git_oid_fmt id : String.length (git_oid_fmt id) = 40%nat.
Proof.
  rewrite <- length_list_ascii_of_string. unfold git_oid_fmt.
  rewrite oid_fmt_loop_digits, length_app, length_map, length_oid_digits. done.
Qed.

(** The hex string of an id reads back as the id. *)
Lemma git_oid_fromstr_fmt id :
  oid_in_range id -> git_oid_fromstr (git_oid_fmt id) = git_ok id.
Proof.
  intros Hid. unfold git_oid_fromstr, git_oid_fromstrn, GIT_OID_HEXSZ.
  change (40 =? 0) with false. change (40 <? 40) with false. cbv iota.
  rewrite length_list_ascii_of_string, length_git_oid_fmt.
  change (Z.of_nat 40 <? 40) with false. cbv iota.
  rewrite firstn_all2 by (rewrite length_list_ascii_of_string, length_git_oid_fmt; lia).
  unfold git_oid_fmt. rewrite oid_fmt_loop_digits. cbn [list_ascii_of_string].
  rewrite app_nil_r, (oid_fromstrn_loop_digits 40 id 0 0) by lia.
  rewrite Z.lor_0_l. change (4 * (40 - 0 - Z.of_nat 40)) with 0. rewrite Z.shiftl_0_r.
  rewrite Z.land_ones by lia. change (4 * Z.of_nat 40) with 160.
  f_equal. apply Z.mod_small. exact Hid.
Qed.

Lemma git_oid_fmt_inj a b :
  oid_in_range a -> oid_in_range b -> git_oid_fmt a = git_oid_fmt b -> a = b.
Proof.
  intros Ha Hb Heq. apply git_oid_fromstr_fmt in Ha, Hb.
  rewrite Heq in Ha. rewrite Ha in Hb. by injection Hb.
Qed.

(** ** Objects by id *)

Lemma git_object_lookup_ok repo id type o :
  git_object_lookup repo id type = git_ok o ->
  repo_odb repo !! id = Some o /\ (type = GIT_OBJ_ANY \/ git_object_type o = type).
Proof.
  unfold git_object_lookup. destruct (repo_odb repo !! id) as [o'|]; [|discriminate].
  destruct (bool_decide_reflect (type = GIT_OBJ_ANY)) as [->|Hany]; cbn [orb].
  - intros [= <-]. auto.
  - destruct (bool_decide_reflect (git_object_type o' = type)); [|discriminate].
    intros [= <-]. auto.
Qed.

Lemma git_object_lookup_prefix_ok repo id len type o :
  0 <= len <= GIT_OID_HEXSZ ->
  git_object_lookup_prefix repo id len type = git_ok o ->
  exists key,
    repo_odb repo !! key = Some o /\
    oid_prefix key len = oid_prefix id len /\
    (type = GIT_OBJ_ANY \/ git_object_type o = type).
Proof.
  unfold git_object_lookup_prefix, GIT_OID_HEXSZ, GIT_OID_MINPREFIXLEN. intros Hlen.
  destruct (Z.ltb_spec len 4); [discriminate|].
  destruct (Z.ltb_spec 40 len); [lia|].
  destruct (Z.eqb_spec len 40) as [->|Hne].
  - intros Hlookup. apply git_object_lookup_ok in Hlookup as [Hid Htype]. by exists id.
  - destruct (odb_prefix_matches (repo_odb repo) id len) as [|[key o'] [|kv l]] eqn:Hmatch;
      try discriminate.
    assert (Hin : (key, o') ∈ odb_prefix_matches (repo_odb repo) id len).
    { rewrite Hmatch. by left. }
    unfold odb_prefix_matches in Hin. apply list_elem_of_filter in Hin as [Hpre Hin].
    apply elem_of_map_to_list in Hin. cbn [fst] in Hpre.
    unfold object_of_type.
    destruct (bool_decide_reflect (type = GIT_OBJ_ANY)) as [->|Hany]; cbn [orb].
    + intros [= <-]. exists key. auto.
    + destruct (bool_decide_reflect (git_object_type o' = type)); [|discriminate].
      intros [= <-]. exists key. auto.
Qed.

Lemma class2otype_cases klass :
  let type := class2otype klass in
  (if bool_decide (type = GIT_OBJ_BAD) then GIT_OBJ_ANY else type) = GIT_OBJ_ANY /\
    klass = rb_cRuggedObject \/
  (if bool_decide (type = GIT_OBJ_BAD) then GIT_OBJ_ANY else type) = type /\
    type <> GIT_OBJ_ANY /\ klass <> rb_cRuggedObject.
Proof. destruct klass; cbn; auto. Qed.

(** What a string of at most 40 characters is read as. *)
Lemma oid_length_small hex :
  RSTRING_LEN hex <= INT_MAX ->
  to_int (RSTRING_LEN hex) = RSTRING_LEN hex /\
  to_size_t (to_int (RSTRING_LEN hex)) = RSTRING_LEN hex.
Proof.
  intros Hmax. assert (0 <= RSTRING_LEN hex) by (unfold RSTRING_LEN; lia).
  rewrite to_int_small by lia.
  rewrite to_size_t_small by (unfold INT_MAX, UINT64_MAX in *; lia). done.
Qed.

(** X3: [Object.lookup] returns nothing but an object of the repository that is
    stored under an id with the digits given, and of the type of the class
    it is called on. *)
Theorem object_lookup_finds_match (klass : rb_class) (repo : git_repository)
    (hex : string) (v : VALUE) :
  RSTRING_LEN hex <= INT_MAX ->
  rb_git_object_lookup klass (rb_repo repo) (rb_str hex) = rb_return v ->
  exists id key o,
    git_oid_fromstrn hex (RSTRING_LEN hex) = git_ok id /\
    repo_odb repo !! key = Some o /\
    oid_prefix key (RSTRING_LEN hex) = oid_prefix id (RSTRING_LEN hex) /\
    v = rb_object repo o /\
    (klass = rb_cRuggedObject \/ git_object_type o = class2otype klass).
Proof.
  intros Hmax. unfold rb_git_object_lookup.
  cbn [Check_Type_T_STRING rugged_check_repo mbind rb_result_bind rb_bind].
  destruct (oid_length_small hex Hmax) as [-> ->].
  assert (Hlen0 : 0 <= RSTRING_LEN hex) by (unfold RSTRING_LEN; lia).
  destruct (Z.ltb_spec GIT_OID_HEXSZ (RSTRING_LEN hex)) as [|Hlen]; [discriminate|].
  destruct (git_oid_fromstrn hex (RSTRING_LEN hex)) as [id|] eqn:Hid; [|discriminate].
  cbn [rugged_exception_check mbind rb_result_bind rb_bind].
  set (type := if bool_decide (class2otype klass = GIT_OBJ_BAD) then GIT_OBJ_ANY
               else class2otype klass).
  assert (Htype : forall o, type = GIT_OBJ_ANY \/ git_object_type o = type ->
                    klass = rb_cRuggedObject \/ git_object_type o = class2otype klass).
  { intros o. subst type.
    destruct (class2otype_cases klass) as [[-> ->]|(-> & Hany & _)]; [by left|].
    intros [?|?]; [done|by right]. }
  destruct (Z.ltb_spec (RSTRING_LEN hex) GIT_OID_HEXSZ) as [Hshort|Hfull].
  - destruct (git_object_lookup_prefix repo id (RSTRING_LEN hex) type) as [o|] eqn:Ho;
      [|discriminate].
    apply git_object_lookup_prefix_ok in Ho as (key & Hkey & Hpre & Ht); [|lia].
    intros [= <-]. exists id, key, o. auto 10.
  - destruct (git_object_lookup repo id type) as [o|] eqn:Ho; [|discriminate].
    apply git_object_lookup_ok in Ho as [Hkey Ht].
    intros [= <-]. exists id, id, o. auto 10.
Qed.

Lemma object_lookup_finds_match_witness :
  exists id key o,
    git_oid_fromstrn "0000000000000000000000000000000000000014"
      (RSTRING_LEN "0000000000000000000000000000000000000014") = git_ok id /\
    repo_odb sample_repo !! key = Some o /\
    oid_prefix key (RSTRING_LEN "0000000000000000000000000000000000000014") =
      oid_prefix id (RSTRING_LEN "0000000000000000000000000000000000000014") /\
    rb_object sample_repo (ObjTag tag_inner) = rb_object sample_repo o /\
    (rb_cRuggedTagAnnotation = rb_cRuggedObject \/
     git_object_type o = class2otype rb_cRuggedTagAnnotation).
Proof.
  apply (object_lookup_finds_match rb_cRuggedTagAnnotation sample_repo
           "0000000000000000000000000000000000000014"
           (rb_object sample_repo (ObjTag tag_inner))).
  - vm_compute. discriminate.
  - vm_compute. reflexivity.
Defined.

(** X2: [Object.exists?] answers true exactly where [Object.lookup] returns an
    object, and raises only what [lookup] raises as well. *)
Theorem object_exists_iff_lookup (klass : rb_class) (rb_repository rb_hex : VALUE) :
  (rb_git_object_exists klass rb_repository rb_hex = rb_return Qtrue <->
     exists v, rb_git_object_lookup klass rb_repository rb_hex = rb_return v) /\
  (forall e, rb_git_object_exists klass rb_repository rb_hex = rb_raise e ->
     rb_git_object_lookup klass rb_repository rb_hex = rb_raise e).
Proof.
  unfold rb_git_object_exists, rb_git_object_lookup.
  destruct (Check_Type_T_STRING rb_hex) as [hex|e0];
    cbn [mbind rb_result_bind rb_bind]; [|split; [split; [done|by intros [? ?]]|done]].
  destruct (rugged_check_repo rb_repository) as [repo|e0];
    cbn [mbind rb_result_bind rb_bind]; [|split; [split; [done|by intros [? ?]]|done]].
  set (oid_length := to_int (RSTRING_LEN hex)).
  set (type := if bool_decide (class2otype klass = GIT_OBJ_BAD) then GIT_OBJ_ANY
               else class2otype klass).
  destruct (Z.ltb_spec GIT_OID_HEXSZ oid_length) as [|Hlen];
    [split; [split; [done|by intros [? ?]]|done]|].
  destruct (git_oid_fromstrn hex (to_size_t oid_length)) as [id|e0] eqn:Hid;
    cbn [rugged_exception_check mbind rb_result_bind rb_bind];
    [|split; [split; [done|by intros [? ?]]|done]].
  assert (Hsame : (if oid_length <? GIT_OID_HEXSZ
                   then git_object_lookup_prefix repo id (to_size_t oid_length) type
                   else git_object_lookup repo id type) =
                  git_object_lookup_prefix repo id (to_size_t oid_length) type).
  { destruct (Z.ltb_spec oid_length GIT_OID_HEXSZ) as [|Hfull]; [done|].
    assert (Hforty : oid_length = 40) by (unfold GIT_OID_HEXSZ in *; lia).
    rewrite Hforty. by change (to_size_t 40) with 40. }
  rewrite Hsame.
  destruct (git_object_lookup_prefix repo id (to_size_t oid_length) type) as [o|e0];
    cbn [rugged_exception_check mbind rb_result_bind rb_bind].
  - split; [split; [by eexists|done]|done].
  - split; [split; [done|by intros [? ?]]|done].
Qed.

Lemma object_exists_iff_lookup_witness :
  exists v,
    rb_git_object_lookup rb_cRuggedCommit (rb_repo sample_repo)
      (rb_str "0000000000000000000000000000000000000003") = rb_return v.
Proof.
  apply (proj1 (proj1 (object_exists_iff_lookup rb_cRuggedCommit (rb_repo sample_repo)
                         (rb_str "0000000000000000000000000000000000000003")))).
  vm_compute. reflexivity.
Defined.

Lemma sample_repo_consistent : odb_consistent sample_repo.
Proof.
  unfold odb_consistent. apply map_Forall_to_list.
  assert (Hlist : exists l, map_to_list (repo_odb sample_repo) = l /\
            Forall (fun kv : Z * git_object =>
                      git_object_id kv.2 = kv.1 /\ oid_in_range kv.1) l).
  { eexists. split; [vm_compute; reflexivity|].
    repeat (constructor; [split; [reflexivity|split; [discriminate|reflexivity]]|]).
    constructor. }
  destruct Hlist as (l & Heq & Hl). subst l.
  eapply Forall_impl; [exact Hl|]. by intros [k o].
Qed.

Lemma lookup_typed_stored repo id o klass :
  repo_odb repo !! id = Some o ->
  klass = rb_cRuggedObject \/ class2otype klass = git_object_type o ->
  git_object_lookup repo id
    (if bool_decide (class2otype klass = GIT_OBJ_BAD) then GIT_OBJ_ANY
     else class2otype klass) = git_ok o.
Proof.
  intros Hstored Hklass. unfold git_object_lookup. rewrite Hstored.
  destruct Hklass as [->|Hk]; [done|]. rewrite Hk. by destruct o.
Qed.

Lemma git_oid_fromstrn_fmt id :
  oid_in_range id -> git_oid_fromstrn (git_oid_fmt id) 40 = git_ok id.
Proof. apply git_oid_fromstr_fmt. Qed.

(** [Object.lookup] and [Object.exists?] on the 40 digits of an id under
    which the repository stores an object. *)
Lemma lookup_of_fmt klass repo id o :
  oid_in_range id ->
  repo_odb repo !! id = Some o ->
  klass = rb_cRuggedObject \/ class2otype klass = git_object_type o ->
  rb_git_object_lookup klass (rb_repo repo) (rugged_create_oid id) =
    rb_return (rb_object repo o).
Proof.
  intros Hrange Hstored Hklass. unfold rb_git_object_lookup, rugged_create_oid.
  cbn [Check_Type_T_STRING rugged_check_repo mbind rb_result_bind rb_bind].
  unfold RSTRING_LEN. rewrite length_git_oid_fmt.
  change (to_int (Z.of_nat 40)) with 40. change (to_size_t 40) with 40.
  change (GIT_OID_HEXSZ <? 40) with false. change (40 <? GIT_OID_HEXSZ) with false.
  cbv iota. rewrite git_oid_fromstrn_fmt by done.
  cbn [rugged_exception_check mbind rb_result_bind rb_bind].
  by rewrite (lookup_typed_stored repo id o).
Qed.

Lemma exists_of_fmt klass repo id o :
  oid_in_range id ->
  repo_odb repo !! id = Some o ->
  klass = rb_cRuggedObject \/ class2otype klass = git_object_type o ->
  rb_git_object_exists klass (rb_repo repo) (rugged_create_oid id) = rb_return Qtrue.
Proof.
  intros Hrange Hstored Hklass. unfold rb_git_object_exists, rugged_create_oid.
  cbn [Check_Type_T_STRING rugged_check_repo mbind rb_result_bind rb_bind].
  unfold RSTRING_LEN. rewrite length_git_oid_fmt.
  change (to_int (Z.of_nat 40)) with 40. change (to_size_t 40) with 40.
  change (GIT_OID_HEXSZ <? 40) with false. cbv iota.
  rewrite git_oid_fromstrn_fmt by done.
  unfold git_object_lookup_prefix, GIT_OID_MINPREFIXLEN, GIT_OID_HEXSZ.
  change (40 <? 4) with false. change (40 <? 40) with false. cbv iota.
  change (40 =? 40) with true. cbv iota.
  by rewrite (lookup_typed_stored repo id o).
Qed.

(** X4: The id [object.oid] spells finds the object again: in a repository that
    stores an object under its id, [Object.lookup] of that string returns
    the object, through the class of its type and through [Rugged::Object],
    and [Object.exists?] answers true. *)
Theorem object_lookup_of_oid (klass : rb_class) (repo : git_repository)
    (o : git_object) :
  oid_in_range (git_object_id o) ->
  repo_odb repo !! git_object_id o = Some o ->
  klass = rb_cRuggedObject \/ class2otype klass = git_object_type o ->
  rb_git_object_lookup klass (rb_repo repo) (rb_git_object_oid_GET o) =
    rb_return (rb_object repo o) /\
  rb_git_object_exists klass (rb_repo repo) (rb_git_object_oid_GET o) = rb_return Qtrue.
Proof.
  intros Hrange Hstored Hklass. unfold rb_git_object_oid_GET.
  split; [by apply lookup_of_fmt|by eapply exists_of_fmt].
Qed.

Lemma object_lookup_of_oid_witness :
  rb_git_object_lookup rb_cRuggedTree (rb_repo sample_repo)
    (rb_git_object_oid_GET (ObjTree tree_two)) =
    rb_return (rb_object sample_repo (ObjTree tree_two)) /\
  rb_git_object_exists rb_cRuggedTree (rb_repo sample_repo)
    (rb_git_object_oid_GET (ObjTree tree_two)) = rb_return Qtrue.
Proof.
  apply (object_lookup_of_oid rb_cRuggedTree sample_repo (ObjTree tree_two)).
  - vm_compute. split; [discriminate|reflexivity].
  - vm_compute. reflexivity.
  - right. reflexivity.
Defined.

(** X5: [==] answers true or false and never raises: false for anything that is
    no Rugged object, and for two objects true exactly when [oid] spells the
    same string for both, whatever their owners and types. *)
Theorem object_equal_iff_same_oid (a : git_object) (other : VALUE) :
  oid_in_range (git_object_id a) ->
  (rb_git_object_equal a other = Qtrue \/ rb_git_object_equal a other = Qfalse) /\
  (rb_git_object_equal a other = Qtrue ->
     exists owner b, other = rb_object owner b) /\
  (forall owner b,
     other = rb_object owner b -> oid_in_range (git_object_id b) ->
     (rb_git_object_equal a other = Qtrue <->
        rb_git_object_oid_GET a = rb_git_object_oid_GET b) /\
     (forall owner', rb_git_object_equal a other = rb_git_object_equal b (rb_object owner' a))).
Proof.
  intros Ha. split; [|split].
  - unfold rb_git_object_equal. destruct other; auto. case_bool_decide; auto.
  - destruct other; try discriminate. intros _. by eexists _, _.
  - intros owner b -> Hb. unfold rb_git_object_equal, rb_git_object_oid_GET, rugged_create_oid.
    split.
    + case_bool_decide as Heq.
      * split; [intros _; by rewrite Heq|done].
      * split; [discriminate|]. intros Hfmt. exfalso. apply Heq.
        apply git_oid_fmt_inj; [done..|congruence].
    + intros owner'. repeat case_bool_decide; congruence.
Qed.

Lemma object_equal_iff_same_oid_witness :
  (rb_git_object_equal (ObjCommit commit_second) (rb_object sample_repo_b (ObjCommit commit_second))
     = Qtrue \/
   rb_git_object_equal (ObjCommit commit_second) (rb_object sample_repo_b (ObjCommit commit_second))
     = Qfalse) /\
  (rb_git_object_equal (ObjCommit commit_second) (rb_object sample_repo_b (ObjCommit commit_second))
     = Qtrue ->
     exists owner b, rb_object sample_repo_b (ObjCommit commit_second) = rb_object owner b) /\
  (forall owner b,
     rb_object sample_repo_b (ObjCommit commit_second) = rb_object owner b ->
     oid_in_range (git_object_id b) ->
     (rb_git_object_equal (ObjCommit commit_second)
        (rb_object sample_repo_b (ObjCommit commit_second)) = Qtrue <->
        rb_git_object_oid_GET (ObjCommit commit_second) = rb_git_object_oid_GET b) /\
     (forall owner',
        rb_git_object_equal (ObjCommit commit_second)
          (rb_object sample_repo_b (ObjCommit commit_second)) =
        rb_git_object_equal b (rb_object owner' (ObjCommit commit_second)))).
Proof.
  apply (object_equal_iff_same_oid (ObjCommit commit_second)
           (rb_object sample_repo_b (ObjCommit commit_second))).
  vm_compute. split; [discriminate|reflexivity].
Defined.

Lemma oid_fromstrn_loop_valid chars :
  Forall (fun c => 0 <= git__fromhex c) chars ->
  forall p out, exists id, oid_fromstrn_loop chars p out = git_ok id.
Proof.
  induction 1 as [|c rest Hc _ IH]; intros p out; [by eexists|].
  cbn [oid_fromstrn_loop]. destruct (Z.ltb_spec (git__fromhex c) 0); [lia|]. apply IH.
Qed.

Lemma git_oid_fromstr_valid s :
  RSTRING_LEN s = 40 -> valid_hex s -> exists id, git_oid_fromstr s = git_ok id.
Proof.
  unfold RSTRING_LEN, valid_hex, git_oid_fromstr, git_oid_fromstrn, GIT_OID_HEXSZ.
  intros Hlen Hhex. change (40 =? 0) with false. change (40 <? 40) with false. cbv iota.
  rewrite length_list_ascii_of_string, Hlen. change (40 <? 40) with false. cbv iota.
  rewrite firstn_all2 by (rewrite length_list_ascii_of_string; lia).
  by apply oid_fromstrn_loop_valid.
Qed.

(** X6: [rugged_oid_get] gives the id of a Rugged object, and the same id for
    the string [oid] spells for it; a string of 40 hex digits is taken as
    the id it spells without the repository being consulted at all. *)
Theorem oid_get_of_object_and_string `{Libgit2} (repo : git_repository) :
  (forall owner o,
     rugged_oid_get repo (rb_object owner o) = rb_return (git_ok (git_object_id o))) /\
  (forall o,
     oid_in_range (git_object_id o) ->
     rugged_oid_get repo (rb_git_object_oid_GET o) = rb_return (git_ok (git_object_id o))) /\
  (forall s,
     RSTRING_LEN s = 40 -> valid_hex s ->
     exists id, git_oid_fromstr s = git_ok id /\
                rugged_oid_get repo (rb_str s) = rb_return (git_ok id)).
Proof.
  split; [done|]. split.
  - intros o Hrange. unfold rugged_oid_get, rb_git_object_oid_GET, rugged_create_oid.
    cbn [Check_Type_T_STRING mbind rb_result_bind rb_bind].
    unfold RSTRING_LEN. rewrite length_git_oid_fmt. change (Z.of_nat 40 =? 40) with true.
    cbv iota. by rewrite git_oid_fromstr_fmt.
  - intros s Hlen Hhex. destruct (git_oid_fromstr_valid s Hlen Hhex) as [id Hid].
    exists id. split; [done|]. unfold rugged_oid_get.
    cbn [Check_Type_T_STRING mbind rb_result_bind rb_bind].
    rewrite Hlen. change (40 =? 40) with true. cbv iota. by rewrite Hid.
Qed.

Lemma oid_get_of_object_and_string_witness :
  rugged_oid_get (H := sample_libgit2) sample_repo
    (rb_git_object_oid_GET (ObjCommit commit_other)) =
    rb_return (git_ok (git_object_id (ObjCommit commit_other))).
Proof.
  apply (proj1 (proj2 (oid_get_of_object_and_string (H := sample_libgit2) sample_repo))
           (ObjCommit commit_other)).
  vm_compute. split; [discriminate|reflexivity].
Defined.

(** X7: What [rugged_object_get] returns has the type that was asked for. *)
Theorem object_get_has_required_type `{Libgit2} (repo : git_repository)
    (object_value : VALUE) (type : git_otype) (o : git_object) :
  type <> GIT_OBJ_ANY ->
  rugged_object_get repo object_value type = rb_return o ->
  git_object_type o = type.
Proof.
  intros Hany. unfold rugged_object_get.
  rewrite (bool_decide_eq_false_2 (type = GIT_OBJ_ANY)) by done. cbn [negb andb].
  assert (Hcheck : forall object : git_object,
            (if negb (bool_decide (git_object_type object = type))
             then rb_raise (rb_eArgError "Object is not of the required type")
             else rb_return object) = rb_return o ->
            git_object_type o = type).
  { intros object. case_bool_decide as Ht; cbn [negb]; [|discriminate].
    by intros [= <-]. }
  assert (Hstring : forall s,
            (match (if RSTRING_LEN s =? 40 then git_oid_fromstr s
                    else git_fail (oid_error_invalid "")) with
             | git_ok id => rugged_exception_check (git_object_lookup repo id type)
             | git_fail _ =>
                 spec ← StringValueCStr s;
                 object ← rugged_exception_check (git_revparse_single repo spec);
                 if negb (bool_decide (git_object_type object = type))
                 then rb_raise (rb_eArgError "Object is not of the required type")
                 else rb_return object
             end) = rb_return o ->
            git_object_type o = type).
  { intros s. destruct (if RSTRING_LEN s =? 40 then _ else _) as [id|_].
    - destruct (git_object_lookup repo id type) as [o'|] eqn:Hlookup; [|discriminate].
      apply git_object_lookup_ok in Hlookup as [_ [?|Ht]]; [done|]. by intros [= <-].
    - destruct (StringValueCStr s) as [spec|]; [|discriminate].
      cbn [mbind rb_result_bind rb_bind].
      destruct (git_revparse_single repo spec) as [object|]; [|discriminate].
      apply Hcheck. }
  destruct object_value; try discriminate; [apply Hstring|apply Hcheck].
Qed.

Lemma object_get_has_required_type_witness :
  git_object_type (ObjTag tag_outer) = GIT_OBJ_TAG.
Proof.
  apply (object_get_has_required_type (H := sample_libgit2) sample_repo
           (rb_str "v1-signed") GIT_OBJ_TAG (ObjTag tag_outer)).
  - discriminate.
  - vm_compute. reflexivity.
Defined.

(** ** Revision parsing *)

Lemma RSTRING_PTR_nul (s1 s2 : string) :
  Ascii.zero ∉ list_ascii_of_string s1 ->
  RSTRING_PTR (s1 +:+ String Ascii.zero s2) = s1.
Proof.
  induction s1 as [|c s1 IH]; intros Hnul; [done|].
  cbn [list_ascii_of_string] in Hnul. apply not_elem_of_cons in Hnul as [Hc Hrest].
  change (String c s1 +:+ String Ascii.zero s2) with (String c (s1 +:+ String Ascii.zero s2)).
  cbn [RSTRING_PTR]. rewrite bool_decide_eq_false_2 by congruence. by rewrite IH.
Qed.

Lemma RSTRING_PTR_plain (s : string) :
  Ascii.zero ∉ list_ascii_of_string s -> RSTRING_PTR s = s.
Proof.
  induction s as [|c s IH]; intros Hnul; [done|].
  cbn [RSTRING_PTR]. cbn [list_ascii_of_string] in Hnul.
  apply not_elem_of_cons in Hnul as [Hc Hrest].
  rewrite bool_decide_eq_false_2 by congruence. by rewrite IH.
Qed.

Lemma list_ascii_of_string_app (s1 s2 : string) :
  list_ascii_of_string (s1 +:+ s2) = list_ascii_of_string s1 ++ list_ascii_of_string s2.
Proof. induction s1 as [|c s1 IH]; [done|]. simpl. by rewrite IH. Qed.

(** X8: [Object.rev_parse_oid] spells the id of the object [Object.rev_parse]
    returns, and raises what it raises. *)
Theorem rev_parse_oid_of_rev_parse `{Libgit2} (rb_repository rb_spec : VALUE) :
  (forall v,
     rb_git_object_rev_parse rb_repository rb_spec = rb_return v ->
     exists repo o,
       rb_repository = rb_repo repo /\ v = rb_object repo o /\
       rb_git_object_rev_parse_oid rb_repository rb_spec =
         rb_return (rb_git_object_oid_GET o)) /\
  (forall e,
     rb_git_object_rev_parse rb_repository rb_spec = rb_raise e ->
     rb_git_object_rev_parse_oid rb_repository rb_spec = rb_raise e) /\
  (forall s,
     rb_git_object_rev_parse_oid rb_repository rb_spec = rb_return s ->
     exists v, rb_git_object_rev_parse rb_repository rb_spec = rb_return v).
Proof.
  unfold rb_git_object_rev_parse, rb_git_object_rev_parse_oid, rugged_object_rev_parse.
  destruct (Check_Type_T_STRING rb_spec) as [s|e0]; cbn [mbind rb_result_bind rb_bind];
    [|by repeat split].
  destruct rb_repository; cbn [rugged_check_repo mbind rb_result_bind rb_bind];
    try by repeat split.
  destruct (git_revparse_single repo (RSTRING_PTR s)) as [o|e0];
    cbn [rugged_exception_check mbind rb_result_bind rb_bind]; [|by repeat split].
  split; [|split; [done|by eexists]].
  intros v [= <-]. by exists repo, o.
Qed.

Lemma rev_parse_oid_of_rev_parse_witness :
  exists repo o,
    rb_repo sample_repo = rb_repo repo /\
    rb_object sample_repo (ObjTag tag_inner) = rb_object repo o /\
    rb_git_object_rev_parse_oid (H := sample_libgit2) (rb_repo sample_repo) (rb_str "v1") =
      rb_return (rb_git_object_oid_GET o).
Proof.
  apply (proj1 (rev_parse_oid_of_rev_parse (H := sample_libgit2) (rb_repo sample_repo)
                  (rb_str "v1"))
           (rb_object sample_repo (ObjTag tag_inner))).
  vm_compute. reflexivity.
Defined.

(** X9: A NUL in the revision string: [Object.rev_parse] parses what is before
    it and ignores the rest, where [Object.commitish] and the like raise an
    ArgumentError. *)
Theorem rev_parse_stops_at_nul `{Libgit2} (rb_repository : VALUE) (s1 s2 : string)
    (fuel : nat) (is_commit as_obj : bool) :
  Ascii.zero ∉ list_ascii_of_string s1 ->
  rb_git_object_rev_parse rb_repository (rb_str (s1 +:+ String Ascii.zero s2)) =
    rb_git_object_rev_parse rb_repository (rb_str s1) /\
  rb_git_object_rev_parse_oid rb_repository (rb_str (s1 +:+ String Ascii.zero s2)) =
    rb_git_object_rev_parse_oid rb_repository (rb_str s1) /\
  rugged_commitish_or_treeish fuel rb_repository (rb_str (s1 +:+ String Ascii.zero s2))
    is_commit as_obj = Some (rb_raise (rb_eArgError "string contains null byte")).
Proof.
  intros Hnul.
  unfold rb_git_object_rev_parse, rb_git_object_rev_parse_oid, rugged_object_rev_parse.
  cbn [Check_Type_T_STRING mbind rb_result_bind rb_bind].
  rewrite RSTRING_PTR_nul, RSTRING_PTR_plain by done. split; [done|]. split; [done|].
  unfold rugged_commitish_or_treeish, StringValueCStr.
  cbn [Check_Type_T_STRING mbind rb_result_bind rb_bind].
  rewrite bool_decide_eq_true_2; [done|].
  rewrite list_ascii_of_string_app. apply elem_of_app. right. by left.
Qed.

Lemma rev_parse_stops_at_nul_witness :
  rb_git_object_rev_parse (H := sample_libgit2) (rb_repo sample_repo)
    (rb_str ("v1" +:+ String Ascii.zero "-signed")) =
    rb_git_object_rev_parse (H := sample_libgit2) (rb_repo sample_repo) (rb_str "v1") /\
  rb_git_object_rev_parse_oid (H := sample_libgit2) (rb_repo sample_repo)
    (rb_str ("v1" +:+ String Ascii.zero "-signed")) =
    rb_git_object_rev_parse_oid (H := sample_libgit2) (rb_repo sample_repo) (rb_str "v1") /\
  rugged_commitish_or_treeish (H := sample_libgit2) 2 (rb_repo sample_repo)
    (rb_str ("v1" +:+ String Ascii.zero "-signed")) true true =
    Some (rb_raise (rb_eArgError "string contains null byte")).
Proof.
  apply (rev_parse_stops_at_nul (H := sample_libgit2) (rb_repo sample_repo) "v1" "-signed"
           2 true true).
  vm_compute. intros Hin. by repeat (apply elem_of_cons in Hin as [?|Hin]; [done|]);
    apply elem_of_nil in Hin.
Defined.

(** ** Commitish, treeish and the tree of a commit *)

Lemma git_tree_lookup_ok repo id tree :
  git_tree_lookup repo id = git_ok tree -> repo_odb repo !! id = Some (ObjTree tree).
Proof.
  unfold git_tree_lookup.
  destruct (git_object_lookup repo id GIT_OBJ_TREE) as [[| t | |]|] eqn:Hlookup;
    try discriminate.
  intros [= <-]. by apply git_object_lookup_ok in Hlookup as [? _].
Qed.

(** X11: [commit.tree] is the tree stored under [commit.tree_id]: its [oid]
    spells the same string, and [Tree.lookup] of that string returns it. *)
Theorem commit_tree_has_tree_id (owner : git_repository) (commit : git_commit)
    (v : VALUE) :
  odb_consistent owner ->
  rb_git_commit_tree_GET owner commit = rb_return v ->
  exists tree,
    v = rb_object owner (ObjTree tree) /\
    rb_git_object_oid_GET (ObjTree tree) = rb_git_commit_tree_id_GET commit /\
    rb_git_object_lookup rb_cRuggedTree (rb_repo owner) (rb_git_commit_tree_id_GET commit) =
      rb_return v.
Proof.
  intros Hwf. unfold rb_git_commit_tree_GET, git_commit_tree.
  destruct (git_tree_lookup owner (commit_tree_id commit)) as [tree|] eqn:Htree;
    [|discriminate].
  cbn [rugged_exception_check mbind rb_result_bind rb_bind]. intros [= <-].
  apply git_tree_lookup_ok in Htree. destruct (Hwf _ _ Htree) as [Hid Hrange].
  exists tree. split; [done|].
  unfold rb_git_object_oid_GET, rb_git_commit_tree_id_GET, git_commit_tree_id. rewrite Hid.
  split; [done|]. apply lookup_of_fmt; [done|done|by right].
Qed.

Lemma commit_tree_has_tree_id_witness :
  exists tree,
    rb_object sample_repo (ObjTree tree_two) = rb_object sample_repo (ObjTree tree) /\
    rb_git_object_oid_GET (ObjTree tree) = rb_git_commit_tree_id_GET commit_merge /\
    rb_git_object_lookup rb_cRuggedTree (rb_repo sample_repo)
      (rb_git_commit_tree_id_GET commit_merge) =
      rb_return (rb_object sample_repo (ObjTree tree_two)).
Proof.
  apply (commit_tree_has_tree_id sample_repo commit_merge
           (rb_object sample_repo (ObjTree tree_two))).
  - exact sample_repo_consistent.
  - vm_compute. reflexivity.
Defined.

(** X10: What [Object.commitish] returns is a commit, and the three methods
    beside it follow it: [commitish_id] spells its id, [treeish] is its
    [tree], [treeish_id] spells the id of that tree; where [commitish]
    raises, or its search does not end, so do they. *)
Theorem commitish_family `{Libgit2} (fuel : nat) (rb_repository rb_spec : VALUE) :
  (forall v,
     rb_git_object_commitish fuel rb_repository rb_spec = Some (rb_return v) ->
     exists repo commit,
       rb_repository = rb_repo repo /\
       v = rb_object repo (ObjCommit commit) /\
       rb_git_object_commitish_id fuel rb_repository rb_spec =
         Some (rb_return (rb_git_object_oid_GET (ObjCommit commit))) /\
       rb_git_object_treeish fuel rb_repository rb_spec =
         Some (rb_git_commit_tree_GET repo commit) /\
       rb_git_object_treeish_id fuel rb_repository rb_spec =
         Some (tree ← rugged_exception_check (git_commit_tree repo commit);
               rb_return (rb_git_object_oid_GET (ObjTree tree)))) /\
  (forall e,
     rb_git_object_commitish fuel rb_repository rb_spec = Some (rb_raise e) ->
     rb_git_object_commitish_id fuel rb_repository rb_spec = Some (rb_raise e) /\
     rb_git_object_treeish fuel rb_repository rb_spec = Some (rb_raise e) /\
     rb_git_object_treeish_id fuel rb_repository rb_spec = Some (rb_raise e)) /\
  (rb_git_object_commitish fuel rb_repository rb_spec = None ->
     rb_git_object_commitish_id fuel rb_repository rb_spec = None /\
     rb_git_object_treeish fuel rb_repository rb_spec = None /\
     rb_git_object_treeish_id fuel rb_repository rb_spec = None).
Proof.
  unfold rb_git_object_commitish, rb_git_object_commitish_id, rb_git_object_treeish,
    rb_git_object_treeish_id, rugged_commitish_or_treeish.
  destruct (s ← Check_Type_T_STRING rb_spec; spec ← StringValueCStr s;
            repo ← rugged_check_repo rb_repository; rb_return (spec, repo))
    as [[spec repo]|e0] eqn:Hargs.
  - assert (Hrepo : rb_repository = rb_repo repo).
    { destruct (Check_Type_T_STRING rb_spec) as [s|]; [|discriminate].
      cbn [mbind rb_result_bind rb_bind] in Hargs.
      destruct (StringValueCStr s) as [spec'|]; [|discriminate].
      cbn [mbind rb_result_bind rb_bind] in Hargs.
      destruct rb_repository; try discriminate. by injection Hargs as _ <-. }
    destruct (rugged_commitish fuel repo spec) as [[commit|e0]|];
      cbn [rugged_exception_check mbind rb_result_bind rb_bind].
    + split; [|split; [discriminate|discriminate]].
      intros v [= <-]. exists repo, commit. repeat split; try done;
        unfold rb_git_commit_tree_GET;
        by destruct (git_commit_tree repo commit).
    + split; [discriminate|]. split; [|discriminate]. by intros e [= <-].
    + split; [discriminate|]. split; [discriminate|]. done.
  - split; [discriminate|]. split; [|discriminate]. by intros e [= <-].
Qed.

Lemma commitish_family_witness :
  exists repo commit,
    rb_repo sample_repo = rb_repo repo /\
    rb_object sample_repo (ObjCommit commit_second) = rb_object repo (ObjCommit commit) /\
    rb_git_object_commitish_id (H := sample_libgit2) 2 (rb_repo sample_repo)
      (rb_str "v1-signed") =
      Some (rb_return (rb_git_object_oid_GET (ObjCommit commit))) /\
    rb_git_object_treeish (H := sample_libgit2) 2 (rb_repo sample_repo) (rb_str "v1-signed") =
      Some (rb_git_commit_tree_GET repo commit) /\
    rb_git_object_treeish_id (H := sample_libgit2) 2 (rb_repo sample_repo)
      (rb_str "v1-signed") =
      Some (tree ← rugged_exception_check (git_commit_tree repo commit);
            rb_return (rb_git_object_oid_GET (ObjTree tree))).
Proof.
  apply (proj1 (commitish_family (H := sample_libgit2) 2 (rb_repo sample_repo)
                  (rb_str "v1-signed"))
           (rb_object sample_repo (ObjCommit commit_second))).
  vm_compute. reflexivity.
Defined.

(** ** The time of a commit *)

(** X12: [commit.epoch_time] is the committer's time read as an unsigned 64-bit
    number: the time itself from 1970 on, and 2^64 more than the (negative)
    time before. *)
Theorem epoch_time_is_unsigned (commit : git_commit) :
  - 2 ^ 63 <= git_commit_time commit < 2 ^ 63 ->
  exists n,
    rb_git_commit_epoch_time_GET commit = rb_fixnum n /\
    0 <= n < 2 ^ 64 /\
    (0 <= git_commit_time commit -> n = git_commit_time commit) /\
    (git_commit_time commit < 0 -> n = git_commit_time commit + 2 ^ 64).
Proof.
  intros Ht. exists (to_uint64 (git_commit_time commit)). split; [done|].
  unfold to_uint64. change (2 ^ 64) with 18446744073709551616.
  change (2 ^ 63) with 9223372036854775808 in Ht. split; [|split].
  - apply Z.mod_pos_bound. lia.
  - intros Hpos. apply Z.mod_small. lia.
  - intros Hneg. symmetry. apply Z.mod_unique with (-1); lia.
Qed.

Lemma epoch_time_is_unsigned_witness :
  exists n,
    rb_git_commit_epoch_time_GET
      (mk_commit 7 10 [] sig_alice (mk_signature "carol" "carol@example.org" (-86400) 0)
         "before the epoch") = rb_fixnum n /\
    0 <= n < 2 ^ 64 /\
    (0 <= -86400 -> n = -86400) /\
    (-86400 < 0 -> n = -86400 + 2 ^ 64).
Proof.
  apply (epoch_time_is_unsigned
           (mk_commit 7 10 [] sig_alice (mk_signature "carol" "carol@example.org" (-86400) 0)
              "before the epoch")).
  vm_compute. split; [discriminate|reflexivity].
Defined.

(** ** Counting the lines of a diff *)

Lemma count_lines_cons o e lines :
  count_lines o (e :: lines) =
    (if bool_decide (origin e.2 = o) then 1 else 0) + count_lines o lines.
Proof.
  unfold count_lines. rewrite filter_cons. case_bool_decide as Ho.
  - rewrite decide_True by done. cbn [List.length]. lia.
  - rewrite decide_False by done. lia.
Qed.

Lemma count_lines_range o lines :
  0 <= count_lines o lines <= Z.of_nat (List.length lines).
Proof.
  unfold count_lines. pose proof (length_filter (fun e => origin e.2 = o) lines). lia.
Qed.

(** Without a path filter the callback of the stats counts the additions
    and the deletions, as long as the [int] counters hold them. *)
Lemma foreach_lines_counted lines :
  forall a d,
    0 <= a -> 0 <= d ->
    a + Z.of_nat (List.length lines) <= INT_MAX ->
    d + Z.of_nat (List.length lines) <= INT_MAX ->
    diff_foreach_lines git_commit_stats_cb lines (mk_cb_args a d None) =
      (None, mk_cb_args (a + count_lines GIT_DIFF_LINE_ADDITION lines)
                        (d + count_lines GIT_DIFF_LINE_DELETION lines) None).
Proof.
  induction lines as [|[[delta hunk] line] rest IH]; intros a d Ha Hd Hamax Hdmax.
  - unfold count_lines. cbn. by rewrite !Z.add_0_r.
  - rewrite !count_lines_cons. cbn [diff_foreach_lines List.length snd] in *.
    rewrite Nat2Z.inj_succ in *.
    pose proof (count_lines_range GIT_DIFF_LINE_ADDITION rest).
    pose proof (count_lines_range GIT_DIFF_LINE_DELETION rest).
    unfold git_commit_stats_cb. cbn [path_only args_adds args_dels].
    destruct (origin line) eqn:Horigin; cbn [Z.eqb GIT_OK];
      rewrite ?to_int_small by lia; rewrite IH by lia;
      repeat case_bool_decide; try congruence; do 2 f_equal; lia.
Qed.

(** The callback of the walker counts the same lines in [size_t]. *)
Lemma foreach_lines_walker_counted lines :
  forall stats,
    0 <= adds stats -> 0 <= dels stats ->
    adds stats + Z.of_nat (List.length lines) <= UINT64_MAX ->
    dels stats + Z.of_nat (List.length lines) <= UINT64_MAX ->
    diff_foreach_lines rb_git_walker_stats_cb lines stats =
      (None, mk_commit_stats (adds stats + count_lines GIT_DIFF_LINE_ADDITION lines)
                             (dels stats + count_lines GIT_DIFF_LINE_DELETION lines)
                             (committer stats) (author stats) (oid stats)).
Proof.
  induction lines as [|[[delta hunk] line] rest IH]; intros stats Ha Hd Hamax Hdmax.
  - unfold count_lines. cbn. rewrite !Z.add_0_r. by destruct stats.
  - rewrite !count_lines_cons. cbn [diff_foreach_lines List.length snd] in *.
    rewrite Nat2Z.inj_succ in *.
    pose proof (count_lines_range GIT_DIFF_LINE_ADDITION rest).
    pose proof (count_lines_range GIT_DIFF_LINE_DELETION rest).
    unfold rb_git_walker_stats_cb.
    destruct (origin line) eqn:Horigin; cbn [Z.eqb GIT_OK];
      rewrite ?to_size_t_small by lia; rewrite IH by (cbn [adds dels]; lia);
      cbn [adds dels committer author oid];
      repeat case_bool_decide; try congruence; do 2 f_equal; lia.
Qed.

Lemma foreach_counted `{Libgit2} path_filter diff :
  Z.of_nat (List.length (diff_lines diff)) <= INT_MAX ->
  git_diff_foreach diff git_commit_stats_cb (mk_cb_args 0 0 path_filter) =
    (diff_error diff,
     mk_cb_args (count_lines GIT_DIFF_LINE_ADDITION (lines_on path_filter diff))
                (count_lines GIT_DIFF_LINE_DELETION (lines_on path_filter diff))
                path_filter).
Proof.
  intros Hmax. unfold git_diff_foreach, lines_on. destruct path_filter as [p|].
  - destruct (foreach_lines_filtered p (diff_lines diff) 0 0) as (a' & d' & -> & Hplain).
    unfold diff_on_path. cbn [diff_lines].
    pose proof (length_filter (fun e : git_diff_delta * git_diff_hunk * git_diff_line =>
                                 on_path p e.1.1) (diff_lines diff)) as Hshorter.
    rewrite foreach_lines_counted in Hplain by lia.
    injection Hplain as <- <-. by rewrite !Z.add_0_l.
  - rewrite foreach_lines_counted by lia. by rewrite !Z.add_0_l.
Qed.

(** X14: The stats of a commit count the lines the diff of its tree against the
    tree of its first parent adds and deletes (with a path filter, those of
    the deltas on the path): context lines, headers and end-of-file markers
    are not counted.  This holds while the diff has no more lines than the
    [int] counters of the callback hold. *)
Theorem stats_of_counts_lines `{Libgit2} (repo : git_repository) (commit : git_commit)
    (path_filter : option string) (tree : git_tree) (parent_tree : option git_tree)
    (diff : git_diff) :
  git_commit_tree repo commit = git_ok tree ->
  first_parent_tree repo commit = git_ok parent_tree ->
  git_diff_tree_to_tree repo parent_tree (Some tree) = git_ok diff ->
  diff_error diff = None ->
  Z.of_nat (List.length (diff_lines diff)) <= INT_MAX ->
  exists stats,
    rugged_commit_stats_of repo commit path_filter = rb_return (rb_commit_stats stats) /\
    rb_git_commit_stats_adds_GET stats =
      rb_fixnum (count_lines GIT_DIFF_LINE_ADDITION (lines_on path_filter diff)) /\
    rb_git_commit_stats_dels_GET stats =
      rb_fixnum (count_lines GIT_DIFF_LINE_DELETION (lines_on path_filter diff)) /\
    rb_git_commit_stats_oid_GET stats = rugged_create_oid (git_commit_id commit) /\
    adds stats + dels stats <= Z.of_nat (List.length (diff_lines diff)).
Proof.
  intros Htree Hparent Hdiff Herr Hmax.
  unfold rugged_commit_stats_of. rewrite Htree, Hparent.
  cbn [mbind rb_result_bind rb_bind rugged_exception_check adds dels].
  unfold git_commit_stats_of. rewrite Hdiff, foreach_counted, Herr by done.
  cbn [args_adds args_dels].
  set (counted := lines_on path_filter diff).
  assert (Hcounted : (List.length counted <= List.length (diff_lines diff))%nat).
  { subst counted. unfold lines_on, diff_on_path. destruct path_filter; [|done].
    cbn [diff_lines]. apply length_filter. }
  pose proof (count_lines_range GIT_DIFF_LINE_ADDITION counted) as Ha.
  pose proof (count_lines_range GIT_DIFF_LINE_DELETION counted) as Hd.
  assert (Hboth : count_lines GIT_DIFF_LINE_ADDITION counted +
                  count_lines GIT_DIFF_LINE_DELETION counted <=
                  Z.of_nat (List.length counted)).
  { clear. induction counted as [|e rest IH]; [done|].
    rewrite !count_lines_cons. cbn [List.length]. rewrite Nat2Z.inj_succ.
    repeat case_bool_decide; try lia. congruence. }
  rewrite !to_size_t_small by (unfold INT_MAX, UINT64_MAX in *; lia).
  eexists. split; [reflexivity|].
  unfold rb_git_commit_stats_adds_GET, rb_git_commit_stats_dels_GET,
    rb_git_commit_stats_oid_GET, INT2FIX.
  cbn [adds dels oid]. rewrite !to_int_small by lia. repeat split. lia.
Qed.

Lemma stats_of_counts_lines_witness :
  exists stats,
    rugged_commit_stats_of (H := sample_libgit2) sample_repo commit_second (Some "README") =
      rb_return (rb_commit_stats stats) /\
    rb_git_commit_stats_adds_GET stats =
      rb_fixnum (count_lines GIT_DIFF_LINE_ADDITION
                   (lines_on (Some "README")
                      (mk_diff (lines_as GIT_DIFF_LINE_DELETION "README" ["hello"; "world"] ++
                                lines_as GIT_DIFF_LINE_ADDITION "README" ["hello"; "there"])
                               None))) /\
    rb_git_commit_stats_dels_GET stats =
      rb_fixnum (count_lines GIT_DIFF_LINE_DELETION
                   (lines_on (Some "README")
                      (mk_diff (lines_as GIT_DIFF_LINE_DELETION "README" ["hello"; "world"] ++
                                lines_as GIT_DIFF_LINE_ADDITION "README" ["hello"; "there"])
                               None))) /\
    rb_git_commit_stats_oid_GET stats = rugged_create_oid (git_commit_id commit_second) /\
    adds stats + dels stats <= 4.
Proof.
  apply (stats_of_counts_lines (H := sample_libgit2) sample_repo commit_second
           (Some "README") tree_two (Some tree_one)
           (mk_diff (lines_as GIT_DIFF_LINE_DELETION "README" ["hello"; "world"] ++
                     lines_as GIT_DIFF_LINE_ADDITION "README" ["hello"; "there"]) None)).
  - vm_compute. reflexivity.
  - vm_compute. reflexivity.
  - vm_compute. reflexivity.
  - reflexivity.
  - vm_compute. discriminate.
Defined.

(** X16: A walk with [stats_only] computes for a commit it does not drop the
    stats [rugged_commit_stats_of] computes without a path filter, and
    raises what it raises; the walker counts in [size_t] and the other in
    [int], which agree while no diff has more lines than an [int] holds. *)
Theorem walk_stats_agree_with_stats_of `{Libgit2} (w : walk_options)
    (commit : git_commit) :
  stats_only w <> 0 ->
  no_merges w = 0 \/ git_commit_parentcount commit <= 1 ->
  (forall tree right_tree diff,
     git_commit_tree (w_repo w) commit = git_ok tree ->
     first_parent_tree (w_repo w) commit = git_ok right_tree ->
     git_diff_tree_to_tree (w_repo w) right_tree (Some tree) = git_ok diff ->
     Z.of_nat (List.length (diff_lines diff)) <= INT_MAX) ->
  apply_walk_options w commit = rugged_commit_stats_of (w_repo w) commit None.
Proof.
  intros Hstats Hkept Hmax. unfold apply_walk_options, rugged_commit_stats_of.
  assert (Hdrop : negb (no_merges w =? 0) && (1 <? git_commit_parentcount commit) = false).
  { destruct Hkept as [->|Hcount]; [done|].
    destruct (Z.ltb_spec 1 (git_commit_parentcount commit)); [lia|].
    apply andb_false_r. }
  rewrite Hdrop. destruct (Z.eqb_spec (stats_only w) 0); [done|]. cbn [negb].
  destruct (git_commit_tree (w_repo w) commit) as [tree|] eqn:Htree; [|done].
  cbn [rugged_exception_check mbind rb_result_bind rb_bind].
  destruct (first_parent_tree (w_repo w) commit) as [right_tree|] eqn:Hright; [|done].
  cbn [rugged_exception_check mbind rb_result_bind rb_bind adds dels].
  unfold git_commit_stats_of.
  destruct (git_diff_tree_to_tree (w_repo w) right_tree (Some tree)) as [diff|e] eqn:Hdiff;
    [|done].
  cbn [rugged_exception_check mbind rb_result_bind rb_bind].
  specialize (Hmax _ _ _ eq_refl eq_refl Hdiff). rewrite foreach_counted by done.
  unfold git_diff_foreach, lines_on.
  pose proof (count_lines_range GIT_DIFF_LINE_ADDITION (diff_lines diff)) as Ha.
  pose proof (count_lines_range GIT_DIFF_LINE_DELETION (diff_lines diff)) as Hd.
  rewrite foreach_lines_walker_counted
    by (cbn [adds dels]; unfold INT_MAX, UINT64_MAX in *; lia).
  cbn [adds dels committer author oid args_adds args_dels]. rewrite !Z.add_0_l.
  rewrite !to_size_t_small by (unfold INT_MAX, UINT64_MAX in *; lia).
  by destruct (diff_error diff).
Qed.

Lemma walk_stats_agree_with_stats_of_witness :
  apply_walk_options (H := sample_libgit2)
    (mk_walk_options sample_repo sample_repo (git_revwalk_new sample_repo) 0 1 1 0 UINT64_MAX)
    commit_second =
  rugged_commit_stats_of (H := sample_libgit2) sample_repo commit_second None.
Proof.
  apply (walk_stats_agree_with_stats_of (H := sample_libgit2)
           (mk_walk_options sample_repo sample_repo (git_revwalk_new sample_repo)
              0 1 1 0 UINT64_MAX) commit_second).
  - discriminate.
  - right. vm_compute. discriminate.
  - intros tree right_tree diff Htree Hright.
    vm_compute in Htree. injection Htree as <-.
    vm_compute in Hright. injection Hright as <-.
    intros Hdiff. vm_compute in Hdiff. injection Hdiff as <-.
    vm_compute. discriminate.
Defined.

(** ** The options of a walk *)

Lemma load_walk_limits_eq (w : walk_options) (rb_options : rb_hash) :
  load_walk_limits w rb_options =
    (off ← limit_option rb_options "offset" (offset w);
     lim ← limit_option rb_options "limit" (limit w);
     rb_return
       (mk_walk_options (rb_owner w) (w_repo w) (w_walk w) (oid_only w)
          (if RTEST (rb_hash_lookup rb_options "stats_only") then 1 else stats_only w)
          (if RTEST (rb_hash_lookup rb_options "no_merges") ||
              RTEST (rb_hash_lookup rb_options "stats_only") then 1 else no_merges w)
          off lim)).
Proof.
  unfold load_walk_limits, limit_option. destruct w as [o r wk oo so nm off lim].
  destruct (rb_hash_lookup rb_options "offset") as [| | |n| | | | |];
    cbn [Check_Type_T_FIXNUM mbind rb_result_bind rb_bind]; try done;
    try (destruct (FIXABLE n); cbn [mbind rb_result_bind rb_bind]; [|done]);
    destruct (rb_hash_lookup rb_options "limit") as [| | |m| | | | |];
    cbn [Check_Type_T_FIXNUM mbind rb_result_bind rb_bind]; try done;
    try (destruct (FIXABLE m); cbn [mbind rb_result_bind rb_bind]; [|done]);
    destruct (RTEST (rb_hash_lookup rb_options "no_merges")),
             (RTEST (rb_hash_lookup rb_options "stats_only")); done.
Qed.

Lemma limit_option_range rb_options key default n :
  0 <= default <= UINT64_MAX ->
  limit_option rb_options key default = rb_return n -> 0 <= n <= UINT64_MAX.
Proof.
  intros Hdefault. unfold limit_option, FIX2ULONG.
  assert (Hmod : forall z, 0 <= to_uint64 z <= UINT64_MAX).
  { intros z. unfold to_uint64, UINT64_MAX.
    pose proof (Z.mod_pos_bound z (2 ^ 64) ltac:(done)). lia. }
  destruct (rb_hash_lookup rb_options key) as [| | |m| | | | |]; try discriminate;
    cbn [Check_Type_T_FIXNUM mbind rb_result_bind rb_bind];
    try (destruct (FIXABLE m); cbn [mbind rb_result_bind rb_bind]; [|discriminate]);
    intros [= <-]; auto.
Qed.

Lemma FIXABLE_spec n : FIXABLE n = true <-> FIXNUM_MIN <= n <= FIXNUM_MAX.
Proof. unfold FIXABLE. rewrite andb_true_iff, !Z.leb_le. done. Qed.

Lemma limit_option_reads rb_options key default u :
  reads_as default (rb_hash_lookup rb_options key) u ->
  limit_option rb_options key default = rb_return u.
Proof.
  unfold limit_option. inversion 1 as [Hv|n Hn Hv]; [done|].
  cbn [Check_Type_T_FIXNUM]. apply FIXABLE_spec in Hn. by rewrite Hn.
Qed.

Lemma limit_option_refuses rb_options key default :
  no_fixnum (rb_hash_lookup rb_options key) ->
  limit_option rb_options key default =
    rb_raise (rb_eTypeError "wrong argument type (expected Fixnum)").
Proof.
  unfold limit_option, no_fixnum. intros [Hnil Hbig].
  destruct (rb_hash_lookup rb_options key) as [| | |n| | | | |]; try done.
  cbn [Check_Type_T_FIXNUM]. destruct (FIXABLE n) eqn:Hn; [|done].
  apply FIXABLE_spec in Hn. by destruct (Hbig n).
Qed.

Lemma limit_option_raises rb_options key default e :
  limit_option rb_options key default = rb_raise e ->
  e = rb_eTypeError "wrong argument type (expected Fixnum)".
Proof.
  unfold limit_option.
  destruct (rb_hash_lookup rb_options key) as [| | |n| | | | |];
    cbn [Check_Type_T_FIXNUM mbind rb_result_bind rb_bind];
    try destruct (FIXABLE n); cbn [mbind rb_result_bind rb_bind]; congruence.
Qed.

(** [load_walk_limits] reads four keys and no other. *)
Lemma load_walk_limits_insert (w : walk_options) (rb_options : rb_hash)
    (key : string) (v : VALUE) :
  key <> "offset" -> key <> "limit" -> key <> "no_merges" -> key <> "stats_only" ->
  load_walk_limits w (<[key := v]> rb_options) = load_walk_limits w rb_options.
Proof.
  intros Ho Hl Hn Hs. rewrite !load_walk_limits_eq.
  unfold limit_option, rb_hash_lookup, rb_hash in *.
  by rewrite !lookup_insert_ne by done.
Qed.

(** X18: [walker.each] and [walker.each_oid] read [offset], [limit], [no_merges]
    and [stats_only] from their options and nothing else: [oid_only],
    [show], [hide], [sort] and [simplify], which [Walker.walk] honours, are
    ignored, as is any other key. *)
Theorem each_ignores_other_options `{Libgit2} (self : git_revwalk) (rb_options : rb_hash)
    (key : string) (v : VALUE) (uninitialized : Z) :
  key <> "offset" -> key <> "limit" -> key <> "no_merges" -> key <> "stats_only" ->
  rb_git_walker_each self (Some (<[key := v]> rb_options)) uninitialized =
    rb_git_walker_each self (Some rb_options) uninitialized /\
  rb_git_walker_each_oid self (Some (<[key := v]> rb_options)) uninitialized =
    rb_git_walker_each_oid self (Some rb_options) uninitialized.
Proof.
  intros Ho Hl Hn Hs. unfold rb_git_walker_each, rb_git_walker_each_oid, rb_git_walk_with_opts.
  by rewrite !load_walk_limits_insert.
Qed.

Lemma each_ignores_other_options_witness :
  rb_git_walker_each (H := sample_libgit2)
    (mk_revwalk sample_repo GIT_SORT_NONE [4] [] false)
    (Some (<["oid_only" := Qtrue]> (sample_walk_hash [("limit", rb_fixnum 2)]))) 0 =
    rb_git_walker_each (H := sample_libgit2)
      (mk_revwalk sample_repo GIT_SORT_NONE [4] [] false)
      (Some (sample_walk_hash [("limit", rb_fixnum 2)])) 0 /\
  rb_git_walker_each_oid (H := sample_libgit2)
    (mk_revwalk sample_repo GIT_SORT_NONE [4] [] false)
    (Some (<["oid_only" := Qtrue]> (sample_walk_hash [("limit", rb_fixnum 2)]))) 0 =
    rb_git_walker_each_oid (H := sample_libgit2)
      (mk_revwalk sample_repo GIT_SORT_NONE [4] [] false)
      (Some (sample_walk_hash [("limit", rb_fixnum 2)])) 0.
Proof.
  apply (each_ignores_other_options (H := sample_libgit2)
           (mk_revwalk sample_repo GIT_SORT_NONE [4] [] false)
           (sample_walk_hash [("limit", rb_fixnum 2)]) "oid_only" Qtrue 0); discriminate.
Defined.

(** ** Pushing and hiding commits *)

Section Push.
Context `{Libgit2}.

Lemma walk_with_nil walk hide : walk_with walk hide [] = walk.
Proof. unfold walk_with. destruct walk, hide; cbn; by rewrite app_nil_r. Qed.

Lemma walk_with_app walk hide ids ids' :
  walk_with (walk_with walk hide ids) hide ids' = walk_with walk hide (ids ++ ids').
Proof. unfold walk_with. destruct hide; cbn; by rewrite <- ?app_assoc. Qed.

Lemma push_commit_oid_ok walk id hide walk' :
  push_commit_oid walk id hide = rb_return walk' -> walk' = walk_with walk hide [id].
Proof.
  unfold push_commit_oid, git_revwalk_hide, git_revwalk_push, walk_with.
  destruct hide; destruct (revwalk_push_error (walk_repo walk) id); try discriminate;
    by intros [= <-].
Qed.

Lemma push_commit_ref_ok walk ref hide walk' :
  push_commit_ref walk ref hide = rb_return walk' ->
  exists id, walk' = walk_with walk hide [id].
Proof.
  unfold push_commit_ref, git_revwalk_hide_ref, git_revwalk_push_ref.
  destruct hide; destruct (git_reference_name_to_id (walk_repo walk) ref) as [id|];
    try discriminate; intros Hpush; exists id.
  - by apply (push_commit_oid_ok walk id true).
  - by apply (push_commit_oid_ok walk id false).
Qed.

Lemma push_commit_1_ok walk entry hide walk' :
  push_commit_1 walk entry hide = rb_return walk' ->
  exists id, walk' = walk_with walk hide [id] /\ pushed_for entry id.
Proof.
  unfold push_commit_1, pushed_for. destruct entry; try discriminate.
  - cbn [Check_Type_T_STRING mbind rb_result_bind rb_bind].
    destruct (if RSTRING_LEN s =? 40 then _ else _) as [commit_oid|].
    + intros Hpush. exists commit_oid. split; [by apply push_commit_oid_ok|done].
    + destruct (StringValueCStr s) as [ref|]; [|discriminate].
      cbn [mbind rb_result_bind rb_bind]. intros Hpush.
      apply push_commit_ref_ok in Hpush as [id ->]. by exists id.
  - intros Hpush. exists (git_object_id o). split; [by apply push_commit_oid_ok|].
    by intros ? ? [= _ <-].
Qed.

Lemma push_entries_raise entries hide e :
  foldl (fun acc entry => walk' ← acc; push_commit_1 walk' entry hide)
        (rb_raise e) entries = rb_raise e.
Proof. induction entries as [|entry entries IH]; [done|]. cbn. apply IH. Qed.

Lemma push_entries_ok entries hide :
  forall walk walk',
    foldl (fun acc entry => walk' ← acc; push_commit_1 walk' entry hide)
          (rb_return walk) entries = rb_return walk' ->
    exists ids, walk' = walk_with walk hide ids /\ Forall2 pushed_for entries ids.
Proof.
  induction entries as [|entry entries IH]; intros walk walk' Hpush.
  - injection Hpush as <-. exists []. by rewrite walk_with_nil.
  - cbn [foldl mbind rb_result_bind rb_bind] in Hpush.
    destruct (push_commit_1 walk entry hide) as [walk1|e] eqn:Hfirst.
    + apply push_commit_1_ok in Hfirst as (id & -> & Hid).
      apply IH in Hpush as (ids & -> & Hids). exists (id :: ids).
      split; [by rewrite walk_with_app|by constructor].
    + by rewrite push_entries_raise in Hpush.
Qed.

Lemma push_entries_app l1 l2 hide walk :
  push_commit walk (rb_ary (l1 ++ l2)) hide =
    (walk' ← push_commit walk (rb_ary l1) hide; push_commit walk' (rb_ary l2) hide).
Proof.
  unfold push_commit. rewrite foldl_app.
  destruct (foldl _ (rb_return walk) l1) as [walk1|e]; [done|].
  apply push_entries_raise.
Qed.

End Push.

(** X21: [walker.push] and [walker.hide] of an array push or hide its entries one
    after the other.  A call that returns has added one id for each entry,
    in order, to the commits pushed or to the commits hidden, the id of the
    object for an entry that is a Rugged object, and has changed nothing
    else of the walker. *)
Theorem push_adds_one_id_per_entry `{Libgit2} (self : git_revwalk) :
  (forall l1 l2,
     rb_git_walker_push self (rb_ary (l1 ++ l2)) =
       (walk ← rb_git_walker_push self (rb_ary l1); rb_git_walker_push walk (rb_ary l2)) /\
     rb_git_walker_hide self (rb_ary (l1 ++ l2)) =
       (walk ← rb_git_walker_hide self (rb_ary l1); rb_git_walker_hide walk (rb_ary l2))) /\
  (forall entries walk,
     rb_git_walker_push self (rb_ary entries) = rb_return walk ->
     exists ids, walk = walk_with self false ids /\ Forall2 pushed_for entries ids) /\
  (forall entries walk,
     rb_git_walker_hide self (rb_ary entries) = rb_return walk ->
     exists ids, walk = walk_with self true ids /\ Forall2 pushed_for entries ids).
Proof.
  unfold rb_git_walker_push, rb_git_walker_hide. split; [|split].
  - intros l1 l2. split; apply push_entries_app.
  - intros entries walk. apply push_entries_ok.
  - intros entries walk. apply push_entries_ok.
Qed.

Lemma push_adds_one_id_per_entry_witness :
  exists ids,
    mk_revwalk sample_repo GIT_SORT_NONE [5; 3] [] false =
      walk_with (rb_git_walker_new sample_repo) false ids /\
    Forall2 pushed_for
      [rb_str "refs/heads/master"; rb_object sample_repo (ObjCommit commit_side)] ids.
Proof.
  apply (proj1 (proj2 (push_adds_one_id_per_entry (H := sample_libgit2)
                         (rb_git_walker_new sample_repo)))
           [rb_str "refs/heads/master"; rb_object sample_repo (ObjCommit commit_side)]
           (mk_revwalk sample_repo GIT_SORT_NONE [5; 3] [] false)).
  vm_compute. reflexivity.
Defined.

(** ** Walks through the methods of a walker *)

Section WalkMethods.
Context `{Libgit2}.

Lemma walk_yields_oid_only w commits :
  oid_only w <> 0 -> walk_yields w commits = map rugged_create_oid commits.
Proof.
  intros Hoid. induction commits as [|c rest IH]; [done|].
  cbn [walk_yields map]. unfold walk_visit.
  destruct (Z.eqb_spec (oid_only w) 0); [done|]. cbn [negb]. by rewrite IH.
Qed.

Lemma do_walk_loop_oid_only commits last :
  forall w,
    oid_only w <> 0 ->
    (do_walk_loop w commits last).2 = rb_return Qnil \/
    (do_walk_loop w commits last).2 = rb_raise (rb_eRuggedError last).
Proof.
  induction commits as [|c rest IH]; intros w Hoid; cbn [do_walk_loop].
  - destruct (error_code last =? GIT_ITEROVER); auto.
  - destruct (0 <? offset w); [by apply IH|].
    unfold walk_visit. destruct (Z.eqb_spec (oid_only w) 0); [done|]. cbn [negb].
    cbn [limit set_limit]. destruct (_ =? 0); [by left|].
    specialize (IH (set_limit w (to_uint64 (limit w - 1))) Hoid).
    by destruct (do_walk_loop _ rest last).
Qed.

(** The walker [Walker.walk] walks is the one the methods build. *)
Lemma load_all_options_eq (w : walk_options) (rb_options : rb_hash) :
  rb_hash_lookup rb_options "sort" = Qnil ->
  load_all_options w rb_options =
    (w1 ← load_walk_limits w rb_options;
     walk ← match rb_hash_lookup rb_options "show" with
            | Qnil => rb_return (w_walk w1)
            | rb_show => push_commit (w_walk w1) rb_show false
            end;
     walk ← match rb_hash_lookup rb_options "hide" with
            | Qnil => rb_return walk
            | rb_hide => push_commit walk rb_hide true
            end;
     rb_return
       (mk_walk_options (rb_owner w1) (w_repo w1)
          (if RTEST (rb_hash_lookup rb_options "simplify")
           then git_revwalk_simplify_first_parent walk else walk)
          (if RTEST (rb_hash_lookup rb_options "oid_only") then 1 else oid_only w1)
          (stats_only w1) (no_merges w1) (offset w1) (limit w1))).
Proof.
  intros Hsort. unfold load_all_options. rewrite Hsort.
  destruct (load_walk_limits w rb_options) as [w1|e]; [|done].
  cbn [mbind rb_result_bind rb_bind]. destruct w1 as [o r wk oo so nm off lim].
  cbn [w_walk rb_owner w_repo oid_only stats_only no_merges offset limit].
  assert (Hshow : forall m : rb_result git_revwalk,
            (m ≫= λ walk, rb_return (set_walk (mk_walk_options o r wk oo so nm off lim) walk)) =
            (m ≫= λ walk, rb_return (mk_walk_options o r walk oo so nm off lim))) by done.
  destruct (rb_hash_lookup rb_options "show");
    cbn [mbind rb_result_bind rb_bind set_walk w_walk rb_owner w_repo oid_only stats_only
         no_merges offset limit];
    try (destruct (push_commit wk _ false) as [walk1|e];
         cbn [mbind rb_result_bind rb_bind]; [|done]);
    destruct (rb_hash_lookup rb_options "hide");
    cbn [mbind rb_result_bind rb_bind set_walk w_walk rb_owner w_repo oid_only stats_only
         no_merges offset limit];
    try (destruct (push_commit _ _ true) as [walk2|e];
         cbn [mbind rb_result_bind rb_bind]; [|done]);
    destruct (RTEST (rb_hash_lookup rb_options "simplify")),
             (RTEST (rb_hash_lookup rb_options "oid_only")); done.
Qed.

End WalkMethods.

Lemma push_commit_repo `{Libgit2} walk rb_commit hide walk' :
  push_commit walk rb_commit hide = rb_return walk' -> walk_repo walk' = walk_repo walk.
Proof.
  intros Hpush.
  assert (Hids : exists ids, walk' = walk_with walk hide ids).
  { destruct rb_commit; cbn [push_commit] in Hpush;
      first [apply push_commit_1_ok in Hpush as (id & -> & _); by eexists
            |apply push_entries_ok in Hpush as (ids & -> & _); by eexists]. }
  by destruct Hids as [ids ->].
Qed.

Lemma walker_of_options_repo `{Libgit2} repo rb_options walk :
  walker_of_options repo rb_options = rb_return walk -> walk_repo walk = repo.
Proof.
  unfold walker_of_options, rb_git_walker_push, rb_git_walker_hide, rb_git_walker_new.
  intros Hwalk. apply rb_bind_return_inv in Hwalk as (walk1 & Hshow & Hwalk).
  apply rb_bind_return_inv in Hwalk as (walk2 & Hhide & Hwalk).
  injection Hwalk as <-.
  assert (H1 : walk_repo walk1 = repo).
  { destruct (rb_hash_lookup rb_options "show");
      try (by injection Hshow as <-); by apply push_commit_repo in Hshow. }
  assert (H2 : walk_repo walk2 = repo).
  { rewrite <- H1. destruct (rb_hash_lookup rb_options "hide");
      try (by injection Hhide as <-); by apply push_commit_repo in Hhide. }
  by destruct (RTEST _).
Qed.

(** The field [no_merges] is read for being zero or not, and not at all
    where [oid_only] is set. *)
Lemma walk_visit_no_merges `{Libgit2} (w : walk_options) (nm : Z) (id : git_oid) :
  oid_only w <> 0 \/ (nm =? 0) = (no_merges w =? 0) ->
  walk_visit (set_no_merges w nm) id = walk_visit w id.
Proof.
  intros Hflag. unfold walk_visit. cbn [set_no_merges oid_only w_repo].
  destruct (Z.eqb_spec (oid_only w) 0) as [Hoid|]; [|done]. cbn [negb].
  destruct Hflag as [|Hflag]; [done|].
  destruct (git_commit_lookup (w_repo w) id) as [commit|]; [|done].
  unfold apply_walk_options. cbn [set_no_merges no_merges stats_only w_repo rb_owner].
  by rewrite Hflag.
Qed.

Lemma do_walk_loop_no_merges `{Libgit2} (commits : list git_oid) (last : git_error)
    (nm : Z) :
  forall w,
    oid_only w <> 0 \/ (nm =? 0) = (no_merges w =? 0) ->
    do_walk_loop (set_no_merges w nm) commits last = do_walk_loop w commits last.
Proof.
  induction commits as [|c rest IH]; intros w Hflag; [done|].
  cbn [do_walk_loop]. rewrite walk_visit_no_merges by done.
  change (offset (set_no_merges w nm)) with (offset w).
  change (limit (set_no_merges w nm)) with (limit w).
  destruct (0 <? offset w).
  - apply (IH (set_offset w _)). exact Hflag.
  - destruct (walk_visit w c); [by apply IH| |done].
    change (set_limit (set_no_merges w nm) (to_uint64 (limit w - 1)))
      with (set_no_merges (set_limit w (to_uint64 (limit w - 1))) nm).
    cbn [limit set_limit]. by rewrite (IH (set_limit w (to_uint64 (limit w - 1))) Hflag).
Qed.

(** X22: [Walker.walk] with options is [walker.each] with the same options, or
    [walker.each_oid] where [oid_only] is set, on a walker made by
    [Walker.new] to which [show] was pushed, on which [hide] was hidden and
    which was simplified where [simplify] is set: the same values are
    yielded and the same result or exception ends the call.  Each of the two
    calls has a [no_merges] field of its own that nothing sets unless
    [no_merges] or [stats_only] is given: without them and without
    [oid_only], the calls agree when these two fields agree on being
    zero. *)
Theorem walk_is_each_on_walker `{Libgit2} (repo : git_repository) (rb_options : rb_hash)
    (walk : git_revwalk) (unset_in_walk unset_in_each : Z) :
  rb_hash_lookup rb_options "sort" = Qnil ->
  walker_of_options repo rb_options = rb_return walk ->
  (RTEST (rb_hash_lookup rb_options "no_merges") = false ->
   RTEST (rb_hash_lookup rb_options "stats_only") = false ->
   RTEST (rb_hash_lookup rb_options "oid_only") = false ->
   (unset_in_walk =? 0) = (unset_in_each =? 0)) ->
  rb_git_walk repo (Some rb_options) unset_in_walk =
    if RTEST (rb_hash_lookup rb_options "oid_only")
    then rb_git_walker_each_oid walk (Some rb_options) unset_in_each
    else rb_git_walker_each walk (Some rb_options) unset_in_each.
Proof.
  intros Hsort Hwalk Hunset. pose proof (walker_of_options_repo _ _ _ Hwalk) as Hrepo.
  unfold rb_git_walk, rb_git_walker_each_oid, rb_git_walker_each, rb_git_walk_with_opts.
  rewrite load_all_options_eq by done. rewrite !load_walk_limits_eq.
  cbn [rb_owner w_repo w_walk oid_only stats_only no_merges offset limit].
  destruct (limit_option rb_options "offset" 0) as [off|e];
    cbn [mbind rb_result_bind rb_bind]; [|by destruct (RTEST (rb_hash_lookup rb_options "oid_only"))].
  destruct (limit_option rb_options "limit" UINT64_MAX) as [lim|e];
    cbn [mbind rb_result_bind rb_bind rb_owner w_repo w_walk oid_only stats_only
         no_merges offset limit]; [|by destruct (RTEST (rb_hash_lookup rb_options "oid_only"))].
  assert (Hsame : forall (oid_flag : Z) (walk' : git_revwalk),
            oid_flag = (if RTEST (rb_hash_lookup rb_options "oid_only") then 1 else 0) ->
            do_walk
              (mk_walk_options repo repo walk' oid_flag
                 (if RTEST (rb_hash_lookup rb_options "stats_only") then 1 else 0)
                 (if RTEST (rb_hash_lookup rb_options "no_merges") ||
                     RTEST (rb_hash_lookup rb_options "stats_only")
                  then 1 else unset_in_walk) off lim) =
            do_walk
              (mk_walk_options repo repo walk' oid_flag
                 (if RTEST (rb_hash_lookup rb_options "stats_only") then 1 else 0)
                 (if RTEST (rb_hash_lookup rb_options "no_merges") ||
                     RTEST (rb_hash_lookup rb_options "stats_only")
                  then 1 else unset_in_each) off lim)).
  { intros oid_flag walk' Hflag. unfold do_walk. cbn [w_walk].
    destruct (revwalk_commits walk') as [commits last].
    destruct (RTEST (rb_hash_lookup rb_options "no_merges")) eqn:Hnm; [done|].
    destruct (RTEST (rb_hash_lookup rb_options "stats_only")) eqn:Hso; [done|].
    cbn [orb].
    apply (do_walk_loop_no_merges commits last unset_in_walk
             (mk_walk_options repo repo walk' oid_flag 0 unset_in_each off lim)).
    cbn [oid_only no_merges].
    destruct (RTEST (rb_hash_lookup rb_options "oid_only")); subst oid_flag;
      [by left|right; by apply Hunset]. }
  revert Hwalk.
  unfold walker_of_options, rb_git_walker_push, rb_git_walker_hide, rb_git_walker_new.
  destruct (rb_hash_lookup rb_options "show"); cbn [mbind rb_result_bind rb_bind];
    try (destruct (push_commit (git_revwalk_new repo) _ false) as [walk1|e];
         cbn [mbind rb_result_bind rb_bind]; [|discriminate]);
    destruct (rb_hash_lookup rb_options "hide"); cbn [mbind rb_result_bind rb_bind];
    try (destruct (push_commit _ _ true) as [walk2|e];
         cbn [mbind rb_result_bind rb_bind]; [|discriminate]);
    intros [= Hwalk]; rewrite Hwalk, Hrepo; rewrite Hsame by done;
    by destruct (RTEST (rb_hash_lookup rb_options "oid_only")).
Qed.

Lemma walk_is_each_on_walker_witness :
  rb_git_walk (H := sample_libgit2) sample_repo
    (Some (sample_walk_hash [("limit", rb_fixnum 2); ("no_merges", Qtrue)])) 0 =
  rb_git_walker_each (H := sample_libgit2)
    (mk_revwalk sample_repo GIT_SORT_NONE [4] [] false)
    (Some (sample_walk_hash [("limit", rb_fixnum 2); ("no_merges", Qtrue)])) 7.
Proof.
  apply (walk_is_each_on_walker (H := sample_libgit2) sample_repo
           (sample_walk_hash [("limit", rb_fixnum 2); ("no_merges", Qtrue)])
           (mk_revwalk sample_repo GIT_SORT_NONE [4] [] false) 0 7).
  - vm_compute. reflexivity.
  - vm_compute. reflexivity.
  - vm_compute. discriminate.
Defined.

(** Without any of the three options the two calls go by their own unset
    fields: on the sample repository [Walker.walk] yields the merge commit
    where its field holds zero, and [walker.each] leaves it out where its
    field does not. *)
Example walk_and_each_on_unset_fields :
  List.length
    (rb_git_walk (H := sample_libgit2) sample_repo (Some (sample_walk_hash [])) 0).1 =
    4%nat /\
  List.length
    (rb_git_walker_each (H := sample_libgit2)
       (mk_revwalk sample_repo GIT_SORT_NONE [4] [] false)
       (Some (sample_walk_hash [])) 1).1 = 3%nat.
Proof. vm_compute. done. Qed.

(** X19: [walker.each_oid] yields the ids of the walk as 40-digit strings, the
    first [offset] of them left out and no more than [limit] of them, where
    [offset] and [limit] are missing or Fixnums; it looks no commit up, so
    [no_merges] and [stats_only] change nothing, and the call ends with nil
    or with the error that ended the revision walk.  An [offset] or [limit]
    that is no Fixnum, a Bignum for one, is a TypeError before anything is
    yielded. *)
Theorem each_oid_yields_ids `{Libgit2} (self : git_revwalk) (rb_options : rb_hash)
    (uninitialized : Z) :
  (forall off lim,
     reads_as 0 (rb_hash_lookup rb_options "offset") off ->
     reads_as UINT64_MAX (rb_hash_lookup rb_options "limit") lim ->
     (rb_git_walker_each_oid self (Some rb_options) uninitialized).1 =
       map rugged_create_oid
         (take (Z.to_nat (effective_limit lim))
            (drop (Z.to_nat off) (revwalk_commits self).1)) /\
     ((rb_git_walker_each_oid self (Some rb_options) uninitialized).2 = rb_return Qnil \/
      (rb_git_walker_each_oid self (Some rb_options) uninitialized).2 =
        rb_raise (rb_eRuggedError (revwalk_commits self).2))) /\
  (no_fixnum (rb_hash_lookup rb_options "offset") \/
   no_fixnum (rb_hash_lookup rb_options "limit") ->
   rb_git_walker_each_oid self (Some rb_options) uninitialized =
     ([], rb_raise (rb_eTypeError "wrong argument type (expected Fixnum)"))).
Proof.
  unfold rb_git_walker_each_oid, rb_git_walk_with_opts.
  rewrite load_walk_limits_eq.
  cbn [rb_owner w_repo w_walk oid_only stats_only no_merges offset limit]. split.
  - intros off lim Hoff Hlim.
    apply limit_option_reads in Hoff, Hlim.
    rewrite Hoff, Hlim. cbn [mbind rb_result_bind rb_bind].
    apply limit_option_range in Hoff; [|done]. apply limit_option_range in Hlim; [|done].
    unfold do_walk. cbn [w_walk].
    destruct (revwalk_commits self) as [commits last]. cbn [fst snd]. split.
    + rewrite do_walk_loop_yields by done. cbn [offset limit].
      rewrite walk_yields_oid_only by done. by rewrite firstn_map.
    + by apply do_walk_loop_oid_only.
  - intros [Hoff|Hlim].
    + rewrite (limit_option_refuses _ _ _ Hoff). done.
    + rewrite (limit_option_refuses _ "limit" _ Hlim).
      destruct (limit_option rb_options "offset" 0) as [off|e] eqn:Hoff;
        cbn [mbind rb_result_bind rb_bind]; [done|].
      by rewrite (limit_option_raises _ _ _ _ Hoff).
Qed.

Lemma each_oid_yields_ids_witness :
  (rb_git_walker_each_oid (H := sample_libgit2)
     (mk_revwalk sample_repo GIT_SORT_NONE [4] [] false)
     (Some (list_to_map [("offset", rb_fixnum 1); ("stats_only", Qtrue)] : rb_hash)) 0).1 =
    map rugged_create_oid [2; 3; 1] /\
  (rb_git_walker_each_oid (H := sample_libgit2)
     (mk_revwalk sample_repo GIT_SORT_NONE [4] [] false)
     (Some (list_to_map [("limit", rb_fixnum (2 ^ 62))] : rb_hash)) 0) =
    ([], rb_raise (rb_eTypeError "wrong argument type (expected Fixnum)")).
Proof.
  split.
  - apply (proj1 (proj1 (each_oid_yields_ids (H := sample_libgit2)
             (mk_revwalk sample_repo GIT_SORT_NONE [4] [] false)
             (list_to_map [("offset", rb_fixnum 1); ("stats_only", Qtrue)] : rb_hash) 0)
           1 UINT64_MAX
           (reads_fixnum 0 1 ltac:(vm_compute; split; discriminate))
           (reads_default UINT64_MAX))).
  - apply (proj2 (each_oid_yields_ids (H := sample_libgit2)
             (mk_revwalk sample_repo GIT_SORT_NONE [4] [] false)
             (list_to_map [("limit", rb_fixnum (2 ^ 62))] : rb_hash) 0)).
    right. split; [discriminate|].
    intros n [= <-]. vm_compute. intros [_ Hmax]. by apply Hmax.
Defined.

(** A [sort] that is a Fixnum and more than an [int] holds is a RangeError,
    a Bignum is a TypeError, and neither lets the walk begin. *)
Example walk_sort_out_of_range :
  rb_git_walk (H := sample_libgit2) sample_repo
    (sample_walk_options [("sort", rb_fixnum (2 ^ 31))]) 0 =
    ([], rb_raise (rb_eRangeError "integer 2147483648 too big to convert to `int'")) /\
  rb_git_walk (H := sample_libgit2) sample_repo
    (sample_walk_options [("sort", rb_fixnum (2 ^ 62))]) 0 =
    ([], rb_raise (rb_eTypeError "wrong argument type (expected Fixnum)")) /\
  (rb_git_walk (H := sample_libgit2) sample_repo
     (sample_walk_options [("sort", rb_fixnum GIT_SORT_TIME)]) 0).2 = rb_return Qnil.
Proof. vm_compute. done. Qed.

(** X20: A negative [offset] is read as an [unsigned long]: it stands for 2^64
    less its size, and a walk that is not longer than that yields nothing,
    through [walker.each] and through [walker.each_oid]. *)
Theorem negative_offset_skips_the_walk `{Libgit2} (self : git_revwalk)
    (rb_options : rb_hash) (each_oid uninitialized n : Z) :
  rb_hash_lookup rb_options "offset" = rb_fixnum n ->
  - 2 ^ 63 <= n < 0 ->
  Z.of_nat (List.length (revwalk_commits self).1) <= 2 ^ 64 + n ->
  (rb_git_walk_with_opts self (Some rb_options) each_oid uninitialized).1 = [].
Proof.
  intros Hoff Hn Hlen. unfold rb_git_walk_with_opts. rewrite load_walk_limits_eq.
  cbn [rb_owner w_repo w_walk oid_only stats_only no_merges offset limit].
  assert (Hopt : limit_option rb_options "offset" 0 =
                 if FIXABLE n then rb_return (FIX2ULONG n)
                 else rb_raise (rb_eTypeError "wrong argument type (expected Fixnum)")).
  { unfold limit_option. rewrite Hoff. cbn [Check_Type_T_FIXNUM]. by destruct (FIXABLE n). }
  rewrite Hopt. destruct (FIXABLE n); cbn [mbind rb_result_bind rb_bind]; [|done].
  assert (Hwrap : FIX2ULONG n = 2 ^ 64 + n).
  { unfold FIX2ULONG, to_uint64. change (2 ^ 64) with 18446744073709551616.
    change (2 ^ 63) with 9223372036854775808 in Hn.
    symmetry. apply Z.mod_unique with (-1); lia. }
  destruct (limit_option rb_options "limit" UINT64_MAX) as [lim|e] eqn:Hlim; [|done].
  cbn [mbind rb_result_bind rb_bind]. apply limit_option_range in Hlim; [|done].
  unfold do_walk. cbn [w_walk]. destruct (revwalk_commits self) as [commits last].
  cbn [fst] in Hlen. rewrite do_walk_loop_yields; cbn [offset limit]; try done.
  - rewrite Hwrap, drop_ge by lia. cbn [walk_yields]. apply take_nil.
  - rewrite Hwrap. unfold UINT64_MAX. change (2 ^ 63) with 9223372036854775808 in Hn.
    change (2 ^ 64) with 18446744073709551616. lia.
Qed.

Lemma negative_offset_skips_the_walk_witness :
  (rb_git_walk_with_opts (H := sample_libgit2)
     (mk_revwalk sample_repo GIT_SORT_NONE [4] [] false)
     (Some (list_to_map [("offset", rb_fixnum (-1))] : rb_hash)) 0 0).1 = [].
Proof.
  apply (negative_offset_skips_the_walk (H := sample_libgit2)
           (mk_revwalk sample_repo GIT_SORT_NONE [4] [] false)
           (list_to_map [("offset", rb_fixnum (-1))] : rb_hash) 0 0 (-1)).
  - vm_compute. reflexivity.
  - vm_compute. split; [discriminate|reflexivity].
  - vm_compute. discriminate.
Defined.

(** ** What a walk yields and what it raises *)

Section WalkResults.
Context `{Libgit2}.

(** The fields [load_all_options] leaves as [load_walk_limits] set them. *)
Lemma load_all_options_flags (w w' : walk_options) (rb_options : rb_hash) :
  load_all_options w rb_options = rb_return w' ->
  exists w1,
    load_walk_limits w rb_options = rb_return w1 /\
    rb_owner w' = rb_owner w1 /\ w_repo w' = w_repo w1 /\
    stats_only w' = stats_only w1 /\ no_merges w' = no_merges w1 /\
    offset w' = offset w1 /\ limit w' = limit w1 /\
    oid_only w' = (if RTEST (rb_hash_lookup rb_options "oid_only") then 1 else oid_only w1).
Proof.
  unfold load_all_options. intros Hload.
  apply rb_bind_return_inv in Hload as (w1 & H1 & Hload).
  apply rb_bind_return_inv in Hload as (w2 & H2 & Hload).
  apply rb_bind_return_inv in Hload as (w3 & H3 & Hload).
  apply rb_bind_return_inv in Hload as (w4 & H4 & Hload).
  injection Hload as <-. exists w1. split; [done|].
  assert (Hsame : forall (wa wb : walk_options) (m : rb_result walk_options),
            m = rb_return wb ->
            (m = rb_return wa \/
             exists walk, m = (walk' ← walk; rb_return (set_walk wa walk'))) ->
            rb_owner wb = rb_owner wa /\ w_repo wb = w_repo wa /\
            stats_only wb = stats_only wa /\ no_merges wb = no_merges wa /\
            offset wb = offset wa /\ limit wb = limit wa /\ oid_only wb = oid_only wa).
  { intros wa wb m -> [[= ->]|[walk Hm]]; [done|].
    symmetry in Hm. apply rb_bind_return_inv in Hm as (walk' & _ & [= <-]). done. }
  assert (H2' : rb_owner w2 = rb_owner w1 /\ w_repo w2 = w_repo w1 /\
                stats_only w2 = stats_only w1 /\ no_merges w2 = no_merges w1 /\
                offset w2 = offset w1 /\ limit w2 = limit w1 /\ oid_only w2 = oid_only w1).
  { destruct (rb_hash_lookup rb_options "sort"); cbn [Check_Type_T_FIXNUM] in H2;
      try destruct (FIXABLE _); cbn [mbind rb_result_bind rb_bind] in H2;
      try destruct (FIX2INT _); cbn [mbind rb_result_bind rb_bind] in H2;
      try discriminate; injection H2 as <-; done. }
  assert (H3' := Hsame w2 w3 _ H3). assert (H4' := Hsame w3 w4 _ H4).
  destruct H3' as (? & ? & ? & ? & ? & ? & ?).
  { destruct (rb_hash_lookup rb_options "show"); first [by left | right; by eexists]. }
  destruct H4' as (? & ? & ? & ? & ? & ? & ?).
  { destruct (rb_hash_lookup rb_options "hide"); first [by left | right; by eexists]. }
  destruct H2' as (? & ? & ? & ? & ? & ? & ?).
  destruct (RTEST (rb_hash_lookup rb_options "simplify")),
           (RTEST (rb_hash_lookup rb_options "oid_only"));
    cbn [rb_owner w_repo oid_only stats_only no_merges offset limit set_walk set_oid_only];
    repeat split; congruence.
Qed.

(** A commit visited with neither [oid_only] nor [stats_only]. *)
Lemma walk_visit_commit w id v :
  oid_only w = 0 -> stats_only w = 0 ->
  walk_visit w id = visit_yield v ->
  exists commit,
    git_commit_lookup (w_repo w) id = git_ok commit /\
    v = rb_object (rb_owner w) (ObjCommit commit) /\
    (no_merges w <> 0 -> git_commit_parentcount commit <= 1).
Proof.
  intros Hoid Hstats. unfold walk_visit, apply_walk_options. rewrite Hoid, Hstats.
  cbn [Z.eqb negb].
  destruct (git_commit_lookup (w_repo w) id) as [commit|]; [|discriminate].
  destruct (Z.eqb_spec (no_merges w) 0) as [Hnm|Hnm]; cbn [negb andb].
  - intros [= <-]. by exists commit.
  - destruct (Z.ltb_spec 1 (git_commit_parentcount commit)); [discriminate|].
    intros [= <-]. by exists commit.
Qed.

Lemma do_walk_loop_commits commits last :
  forall w,
    oid_only w = 0 -> stats_only w = 0 ->
    Forall (fun v => exists commit,
              v = rb_object (rb_owner w) (ObjCommit commit) /\
              (exists id, git_commit_lookup (w_repo w) id = git_ok commit) /\
              (no_merges w <> 0 -> git_commit_parentcount commit <= 1))
      (do_walk_loop w commits last).1.
Proof.
  induction commits as [|c rest IH]; intros w Hoid Hstats; [constructor|].
  cbn [do_walk_loop]. destruct (0 <? offset w).
  - by apply (IH (set_offset w _)).
  - destruct (walk_visit w c) as [|v|e] eqn:Hvisit; [by apply IH| |constructor].
    apply walk_visit_commit in Hvisit as (commit & Hlookup & -> & Hcount); [|done..].
    assert (Hv : exists commit0,
              rb_object (rb_owner w) (ObjCommit commit) =
                rb_object (rb_owner w) (ObjCommit commit0) /\
              (exists id, git_commit_lookup (w_repo w) id = git_ok commit0) /\
              (no_merges w <> 0 -> git_commit_parentcount commit0 <= 1)).
    { exists commit. split; [done|]. split; [by exists c|done]. }
    cbn [limit set_limit]. destruct (_ =? 0); [by repeat constructor|].
    specialize (IH (set_limit w (to_uint64 (limit w - 1))) Hoid Hstats).
    destruct (do_walk_loop _ rest last) as [yielded r]. by constructor.
Qed.

(** What a turn of the loop of [do_walk] raises is the failure to look the
    commit up. *)
Lemma walk_visit_raise w id e :
  walk_visit w id = visit_raise e ->
  oid_only w = 0 /\
  exists e', git_commit_lookup (w_repo w) id = git_fail e' /\ e = rb_eRuggedError e'.
Proof.
  unfold walk_visit. destruct (Z.eqb_spec (oid_only w) 0) as [Hoid|]; [|discriminate].
  cbn [negb]. destruct (git_commit_lookup (w_repo w) id) as [commit|e'].
  - destruct (apply_walk_options w commit) as [[]|]; discriminate.
  - intros [= <-]. split; [done|]. by exists e'.
Qed.

Lemma do_walk_loop_raise commits last :
  forall w e,
    (do_walk_loop w commits last).2 = rb_raise e ->
    (e = rb_eRuggedError last /\ error_code last <> GIT_ITEROVER) \/
    (oid_only w = 0 /\
     exists id e', id ∈ commits /\ git_commit_lookup (w_repo w) id = git_fail e' /\
                   e = rb_eRuggedError e').
Proof.
  induction commits as [|c rest IH]; intros w e; cbn [do_walk_loop].
  - destruct (Z.eqb_spec (error_code last) GIT_ITEROVER); [discriminate|].
    intros [= <-]. by left.
  - assert (Hrest : forall w', oid_only w' = oid_only w -> w_repo w' = w_repo w ->
              (do_walk_loop w' rest last).2 = rb_raise e ->
              (e = rb_eRuggedError last /\ error_code last <> GIT_ITEROVER) \/
              (oid_only w = 0 /\
               exists id e', id ∈ c :: rest /\
                             git_commit_lookup (w_repo w) id = git_fail e' /\
                             e = rb_eRuggedError e')).
    { intros w' Hoid Hrepo Hraise.
      destruct (IH w' e Hraise) as [?|(Hzero & id & e' & Hin & Hlookup & ->)]; [by left|].
      right. rewrite <- Hoid. split; [done|]. exists id, e'. rewrite <- Hrepo.
      split; [by right|done]. }
    destruct (0 <? offset w); [by apply Hrest|].
    destruct (walk_visit w c) as [|v|e0] eqn:Hvisit.
    + by apply Hrest.
    + cbn [limit set_limit]. destruct (_ =? 0); [discriminate|].
      specialize (Hrest (set_limit w (to_uint64 (limit w - 1))) eq_refl eq_refl).
      by destruct (do_walk_loop _ rest last).
    + intros [= <-]. apply walk_visit_raise in Hvisit as (Hoid & e' & Hlookup & ->).
      right. split; [done|]. exists c, e'. split; [by left|done].
Qed.

End WalkResults.

(** X23: [Walker.walk] with neither [oid_only] nor [stats_only] yields commits of
    the repository as objects of the repository, and with [no_merges] none
    that has more than one parent (a root commit, which has none, is
    yielded). *)
Theorem walk_yields_commits `{Libgit2} (repo : git_repository) (rb_options : rb_hash)
    (uninitialized : Z) :
  RTEST (rb_hash_lookup rb_options "oid_only") = false ->
  RTEST (rb_hash_lookup rb_options "stats_only") = false ->
  Forall (fun v => exists commit,
            yielded_commit repo v commit /\
            (RTEST (rb_hash_lookup rb_options "no_merges") = true ->
               git_commit_parentcount commit <= 1))
    (rb_git_walk repo (Some rb_options) uninitialized).1.
Proof.
  intros Hoid Hstats. unfold rb_git_walk.
  destruct (load_all_options _ rb_options) as [w'|e] eqn:Hload; [|constructor].
  apply load_all_options_flags in Hload
    as (w1 & Hlimits & Howner & Hrepo & Hso & Hnm & _ & _ & Hoo).
  rewrite load_walk_limits_eq in Hlimits.
  apply rb_bind_return_inv in Hlimits as (off & _ & Hlimits).
  apply rb_bind_return_inv in Hlimits as (lim & _ & Hlimits).
  injection Hlimits as <-.
  cbn [rb_owner w_repo oid_only stats_only no_merges] in *.
  rewrite Hoid in Hoo. rewrite Hstats in Hso. rewrite Hstats, orb_false_r in Hnm.
  unfold do_walk. destruct (revwalk_commits (w_walk w')) as [commits last].
  eapply Forall_impl; [apply do_walk_loop_commits; done|].
  intros v (commit & -> & Hlookup & Hcount). exists commit.
  rewrite Howner. rewrite Hrepo in Hlookup. split; [done|].
  intros Hflag. apply Hcount. rewrite Hnm, Hflag. done.
Qed.

Lemma walk_yields_commits_witness :
  Forall (fun v => exists commit,
            yielded_commit sample_repo v commit /\
            (RTEST (rb_hash_lookup (sample_walk_hash [("no_merges", Qtrue)]) "no_merges") = true ->
               git_commit_parentcount commit <= 1))
    (rb_git_walk (H := sample_libgit2) sample_repo
       (Some (sample_walk_hash [("no_merges", Qtrue)])) 0).1.
Proof.
  apply (walk_yields_commits (H := sample_libgit2) sample_repo
           (sample_walk_hash [("no_merges", Qtrue)]) 0).
  - vm_compute. reflexivity.
  - vm_compute. reflexivity.
Defined.

(** X24: A walk raises nothing but the error that ends the revision walk and the
    failure to look a commit of the walk up.  An exception raised while the
    stats of a commit are computed is dropped: the commit is passed over as
    if a filter had dropped it, and the walk goes on. *)
Theorem walk_passes_over_failed_stats `{Libgit2} (w : walk_options) (last : git_error) :
  (forall commits e,
     (do_walk_loop w commits last).2 = rb_raise e ->
     (e = rb_eRuggedError last /\ error_code last <> GIT_ITEROVER) \/
     (oid_only w = 0 /\
      exists id e', id ∈ commits /\ git_commit_lookup (w_repo w) id = git_fail e' /\
                    e = rb_eRuggedError e')) /\
  (forall id rest commit e,
     offset w = 0 -> oid_only w = 0 ->
     git_commit_lookup (w_repo w) id = git_ok commit ->
     apply_walk_options w commit = rb_raise e ->
     do_walk_loop w (id :: rest) last = do_walk_loop w rest last).
Proof.
  split.
  - intros commits e. apply do_walk_loop_raise.
  - intros id rest commit e Hoff Hoid Hlookup Hraise. cbn [do_walk_loop].
    rewrite Hoff. change (0 <? 0) with false. cbv iota.
    unfold walk_visit. rewrite Hoid, Hlookup, Hraise. done.
Qed.

Lemma walk_passes_over_failed_stats_witness :
  do_walk_loop (H := sample_libgit2)
    (mk_walk_options sample_repo_no_trees sample_repo_no_trees
       (git_revwalk_new sample_repo_no_trees) 0 1 1 0 UINT64_MAX)
    [1; 1] err_iterover =
  do_walk_loop (H := sample_libgit2)
    (mk_walk_options sample_repo_no_trees sample_repo_no_trees
       (git_revwalk_new sample_repo_no_trees) 0 1 1 0 UINT64_MAX)
    [1] err_iterover.
Proof.
  apply (proj2 (walk_passes_over_failed_stats (H := sample_libgit2)
                  (mk_walk_options sample_repo_no_trees sample_repo_no_trees
                     (git_revwalk_new sample_repo_no_trees) 0 1 1 0 UINT64_MAX)
                  err_iterover)
           1 [1] commit_root (rb_eRuggedError err_not_found)).
  - reflexivity.
  - reflexivity.
  - vm_compute. reflexivity.
  - vm_compute. reflexivity.
Defined.

(** ** Writing a commit *)

Lemma StringValueCStr_plain s :
  Ascii.zero ∉ list_ascii_of_string s -> StringValueCStr s = rb_return s.
Proof. intros Hnul. unfold StringValueCStr. by rewrite bool_decide_eq_false_2. Qed.

Lemma create_parents_loop_resolved repo entries resolved :
  Forall2 (parent_entry repo) entries resolved ->
  forall parents,
    create_parents_loop repo entries parents = rb_return (parents ++ omap id resolved).
Proof.
  induction 1 as [|entry r entries resolved Hentry _ IH]; intros parents.
  - cbn. by rewrite app_nil_r.
  - destruct Hentry as [|owner commit|s oid commit Hnul Hid Hlookup];
      cbn [create_parents_loop omap list_omap id].
    + apply IH.
    + rewrite IH. by rewrite <- app_assoc.
    + rewrite StringValueCStr_plain by done. cbn [mbind rb_result_bind rb_bind].
      rewrite Hid. cbn [rugged_exception_check mbind rb_result_bind rb_bind].
      rewrite Hlookup. cbn [rugged_exception_check mbind rb_result_bind rb_bind].
      rewrite IH. by rewrite <- app_assoc.
Qed.

Lemma create_parents_loop_invalid repo entries :
  Exists invalid_parent entries ->
  forall parents, exists e, create_parents_loop repo entries parents = rb_raise e.
Proof.
  induction entries as [|entry entries IH]; intros Hbad parents;
    [by apply Exists_nil in Hbad|].
  apply Exists_cons in Hbad. cbn [create_parents_loop].
  destruct entry as [| | | |s| |owner [commit| | |]| |]; cbn in Hbad;
    try (by eexists).
  - destruct Hbad as [[]|Hbad]. by apply IH.
  - destruct Hbad as [[]|Hbad].
    destruct (StringValueCStr s) as [cstr|]; [|by eexists].
    cbn [mbind rb_result_bind rb_bind].
    destruct (git_oid_fromstr cstr) as [oid|]; [|by eexists].
    cbn [rugged_exception_check mbind rb_result_bind rb_bind].
    destruct (git_commit_lookup repo oid) as [parent|]; [|by eexists].
    cbn [rugged_exception_check mbind rb_result_bind rb_bind]. by apply IH.
  - destruct Hbad as [[]|Hbad]. by apply IH.
Qed.

Lemma parents_all_read (entries : list VALUE) :
  Z.of_nat (List.length entries) <= INT_MAX ->
  take (Z.to_nat (to_int (Z.of_nat (List.length entries)))) entries = entries.
Proof.
  intros Hmax. rewrite to_int_small by lia. rewrite Nat2Z.id. apply firstn_all.
Qed.

(** X25: [Commit.create] hands libgit2 the parents in the order of [:parents]:
    the nil entries are left out, a string stands for the commit stored
    under the id it spells, a commit for itself.  The call returns the id
    libgit2 gives the new commit as a string, or raises its error. *)
Theorem create_passes_the_parents `{Libgit2} `{Libgit2Write} (repo : git_repository)
    (rb_data : rb_hash) (committer author : git_signature) (message : string)
    (update_ref : option string) (tree : git_tree) (entries : list VALUE)
    (resolved : list (option git_commit)) :
  ref_entry (rb_hash_aref rb_data "update_ref") update_ref ->
  rb_hash_aref rb_data "message" = rb_str message ->
  Ascii.zero ∉ list_ascii_of_string message ->
  rb_hash_aref rb_data "parents" = rb_ary entries ->
  Z.of_nat (List.length entries) <= INT_MAX ->
  Forall2 (parent_entry repo) entries resolved ->
  rugged_object_get repo (rb_hash_aref rb_data "tree") GIT_OBJ_TREE =
    rb_return (ObjTree tree) ->
  rb_git_commit_create (rb_repo repo) rb_data (rb_return committer) (rb_return author) =
    (Some (git_commit_create repo update_ref author committer message tree
             (omap id resolved)).1,
     commit_oid ← rugged_exception_check
                    (git_commit_create repo update_ref author committer message tree
                       (omap id resolved)).2;
     rb_return (rugged_create_oid commit_oid)).
Proof.
  intros Href Hmessage Hnul Hparents Hmax Hresolved Htree.
  unfold rb_git_commit_create. cbn [rugged_check_repo mbind rb_result_bind rb_bind].
  assert (Hupdate : match rb_hash_aref rb_data "update_ref" with
                    | Qnil => rb_return None
                    | _ => s ← Check_Type_T_STRING (rb_hash_aref rb_data "update_ref");
                           cstr ← StringValueCStr s; rb_return (Some cstr)
                    end = rb_return update_ref).
  { destruct Href as [|s Hs]; [done|].
    cbn [Check_Type_T_STRING mbind rb_result_bind rb_bind].
    by rewrite StringValueCStr_plain. }
  assert (Hsame : match rb_hash_aref rb_data "update_ref" with
                  | Qnil => rb_return None
                  | Qtrue => s ← Check_Type_T_STRING Qtrue;
                             cstr ← StringValueCStr s; rb_return (Some cstr)
                  | Qfalse => s ← Check_Type_T_STRING Qfalse;
                              cstr ← StringValueCStr s; rb_return (Some cstr)
                  | rb_fixnum n => s ← Check_Type_T_STRING (rb_fixnum n);
                                   cstr ← StringValueCStr s; rb_return (Some cstr)
                  | rb_str s0 => s ← Check_Type_T_STRING (rb_str s0);
                                 cstr ← StringValueCStr s; rb_return (Some cstr)
                  | rb_repo r => s ← Check_Type_T_STRING (rb_repo r);
                                 cstr ← StringValueCStr s; rb_return (Some cstr)
                  | rb_object ow o => s ← Check_Type_T_STRING (rb_object ow o);
                                      cstr ← StringValueCStr s; rb_return (Some cstr)
                  | rb_commit_stats st => s ← Check_Type_T_STRING (rb_commit_stats st);
                                          cstr ← StringValueCStr s; rb_return (Some cstr)
                  | rb_ary l => s ← Check_Type_T_STRING (rb_ary l);
                                cstr ← StringValueCStr s; rb_return (Some cstr)
                  end = rb_return update_ref).
  { rewrite <- Hupdate. by destruct (rb_hash_aref rb_data "update_ref"). }
  rewrite Hsame, Hmessage, Hparents, Htree.
  cbn [Check_Type_T_STRING Check_Type_T_ARRAY mbind rb_result_bind rb_bind].
  rewrite parents_all_read by done.
  rewrite (create_parents_loop_resolved _ _ _ Hresolved []).
  cbn [app mbind rb_result_bind rb_bind]. rewrite StringValueCStr_plain by done.
  cbn [mbind rb_result_bind rb_bind].
  by destruct (git_commit_create repo update_ref author committer message tree _).
Qed.

Lemma not_nul_in (s : string) :
  forallb (fun c => negb (Ascii.eqb c Ascii.zero)) (list_ascii_of_string s) = true ->
  Ascii.zero ∉ list_ascii_of_string s.
Proof.
  intros Hall Hin. rewrite forallb_forall in Hall.
  apply list_elem_of_In in Hin. apply Hall in Hin.
  by rewrite Ascii.eqb_refl in Hin.
Qed.

Lemma create_passes_the_parents_witness :
  rb_git_commit_create (H := sample_libgit2) (H0 := sample_writer) (rb_repo sample_repo)
    sample_commit_data (rb_return sig_bob) (rb_return sig_alice) =
    (Some (git_commit_create (Libgit2Write := sample_writer) sample_repo None sig_alice sig_bob
             "more" tree_one
             (omap id [Some commit_merge; None; Some commit_side])).1,
     commit_oid ← rugged_exception_check
                    (git_commit_create (Libgit2Write := sample_writer) sample_repo None
                       sig_alice sig_bob "more" tree_one
                       (omap id [Some commit_merge; None; Some commit_side])).2;
     rb_return (rugged_create_oid commit_oid)).
Proof.
  apply (create_passes_the_parents (H := sample_libgit2) (H0 := sample_writer) sample_repo
           sample_commit_data sig_bob sig_alice "more" None tree_one
           [rb_str "0000000000000000000000000000000000000004"; Qnil;
            rb_object sample_repo (ObjCommit commit_side)]
           [Some commit_merge; None; Some commit_side]).
  - vm_compute. constructor.
  - vm_compute. reflexivity.
  - apply not_nul_in. vm_compute. reflexivity.
  - vm_compute. reflexivity.
  - vm_compute. discriminate.
  - constructor; [|constructor; [constructor|constructor; [constructor|constructor]]].
    apply (entry_id sample_repo _ 4).
    + apply not_nul_in. vm_compute. reflexivity.
    + vm_compute. reflexivity.
    + vm_compute. reflexivity.
  - vm_compute. reflexivity.
Defined.

(** X26: [Commit.create] writes nothing when an entry of [:parents] is neither
    nil, a string nor a commit: the call raises before libgit2 is asked to
    create the commit, whatever the other entries and arguments are. *)
Theorem create_refuses_invalid_parent `{Libgit2} `{Libgit2Write} (rb_repository : VALUE)
    (rb_data : rb_hash) (committer_get author_get : rb_result git_signature)
    (entries : list VALUE) :
  rb_hash_aref rb_data "parents" = rb_ary entries ->
  Z.of_nat (List.length entries) <= INT_MAX ->
  Exists invalid_parent entries ->
  exists e,
    rb_git_commit_create rb_repository rb_data committer_get author_get =
      (None, rb_raise e).
Proof.
  intros Hparents Hmax Hbad. unfold rb_git_commit_create.
  destruct (rugged_check_repo rb_repository) as [repo|];
    cbn [mbind rb_result_bind rb_bind]; [|by eexists].
  destruct (match rb_hash_aref rb_data "update_ref" with Qnil => _ | _ => _ end)
    as [update_ref|]; cbn [mbind rb_result_bind rb_bind]; [|by eexists].
  destruct (Check_Type_T_STRING (rb_hash_aref rb_data "message")) as [rb_message|];
    cbn [mbind rb_result_bind rb_bind]; [|by eexists].
  destruct committer_get as [committer|]; cbn [mbind rb_result_bind rb_bind]; [|by eexists].
  destruct author_get as [author|]; cbn [mbind rb_result_bind rb_bind]; [|by eexists].
  rewrite Hparents. cbn [Check_Type_T_ARRAY mbind rb_result_bind rb_bind].
  destruct (rugged_object_get repo (rb_hash_aref rb_data "tree") GIT_OBJ_TREE)
    as [[|tree| |]|]; cbn [mbind rb_result_bind rb_bind]; try (by eexists).
  rewrite parents_all_read by done.
  destruct (create_parents_loop_invalid repo entries Hbad []) as [e ->].
  by eexists.
Qed.

Lemma create_refuses_invalid_parent_witness :
  exists e,
    rb_git_commit_create (H := sample_libgit2) (H0 := sample_writer) (rb_repo sample_repo)
      (<["parents" := rb_ary [rb_object sample_repo (ObjTree tree_one)]]> sample_commit_data)
      (rb_return sig_bob) (rb_return sig_alice) = (None, rb_raise e).
Proof.
  apply (create_refuses_invalid_parent (H := sample_libgit2) (H0 := sample_writer)
           (rb_repo sample_repo)
           (<["parents" := rb_ary [rb_object sample_repo (ObjTree tree_one)]]> sample_commit_data)
           (rb_return sig_bob) (rb_return sig_alice)
           [rb_object sample_repo (ObjTree tree_one)]).
  - vm_compute. reflexivity.
  - vm_compute. discriminate.
  - constructor. exact I.
Defined.

(** ** The arguments of [diff_between_repos] *)

Lemma oid_fromstrn_loop_fail chars :
  forall p out e,
    oid_fromstrn_loop chars p out = git_fail e ->
    error_code e = GIT_ERROR /\ klass e = GITERR_INVALID.
Proof.
  induction chars as [|c rest IH]; intros p out e; cbn [oid_fromstrn_loop]; [discriminate|].
  destruct (git__fromhex c <? 0); [by intros [= <-]|]. apply IH.
Qed.

Lemma git_oid_fromstrn_fail s n e :
  git_oid_fromstrn s n = git_fail e -> error_code e = GIT_ERROR /\ klass e = GITERR_INVALID.
Proof.
  unfold git_oid_fromstrn. destruct (n =? 0); [by intros [= <-]|].
  destruct (GIT_OID_HEXSZ <? n); [by intros [= <-]|].
  destruct (_ <? n); [by intros [= <-]|]. apply oid_fromstrn_loop_fail.
Qed.

Lemma git_oid_fromstr_invalid s :
  RSTRING_LEN s = GIT_OID_HEXSZ -> ~ valid_hex s ->
  exists e, git_oid_fromstr s = git_fail e /\
            error_code e = GIT_ERROR /\ klass e = GITERR_INVALID.
Proof.
  intros Hlen Hhex. unfold git_oid_fromstr. rewrite <- Hlen.
  destruct (git_oid_fromstrn s (RSTRING_LEN s)) as [id|e] eqn:Hid.
  - by apply git_oid_fromstrn_ok in Hid.
  - exists e. split; [done|]. by eapply git_oid_fromstrn_fail.
Qed.

(** X27: [Commit.diff_between_repos] takes full ids only: a string that has not
    exactly 40 characters is an ArgumentError (too short, when one of the
    two is shorter), and a string of 40 characters that are not all hex
    digits an invalid-id error of libgit2, whatever the repositories hold. *)
Theorem diff_between_repos_wants_full_ids `{Libgit2} (fuel : nat)
    (repo1 repo2 : git_repository) (commit1 commit2 : string) :
  (RSTRING_LEN commit1 <> GIT_OID_HEXSZ \/ RSTRING_LEN commit2 <> GIT_OID_HEXSZ ->
   rb_git_commit_diff_between_repos fuel (rb_repo repo1) (rb_str commit1)
     (rb_repo repo2) (rb_str commit2) =
     Some (rb_raise (rb_eArgError
       (if (RSTRING_LEN commit1 <? GIT_OID_HEXSZ) || (RSTRING_LEN commit2 <? GIT_OID_HEXSZ)
        then "The given OID is too short" else "The given OID is too long")))) /\
  (RSTRING_LEN commit1 = GIT_OID_HEXSZ -> RSTRING_LEN commit2 = GIT_OID_HEXSZ ->
   ~ valid_hex commit1 \/ ~ valid_hex commit2 ->
   exists e,
     rb_git_commit_diff_between_repos fuel (rb_repo repo1) (rb_str commit1)
       (rb_repo repo2) (rb_str commit2) = Some (rb_raise (rb_eRuggedError e)) /\
     error_code e = GIT_ERROR /\ klass e = GITERR_INVALID).
Proof.
  unfold rb_git_commit_diff_between_repos.
  cbn [rugged_check_repo Check_Type_T_STRING mbind rb_result_bind rb_bind]. split.
  - intros Hlen.
    destruct ((RSTRING_LEN commit1 <? GIT_OID_HEXSZ) || (RSTRING_LEN commit2 <? GIT_OID_HEXSZ))
      eqn:Hshort; [done|].
    apply orb_false_iff in Hshort as [H1 H2].
    apply Z.ltb_ge in H1, H2.
    destruct (Z.ltb_spec GIT_OID_HEXSZ (RSTRING_LEN commit1)),
             (Z.ltb_spec GIT_OID_HEXSZ (RSTRING_LEN commit2)); cbn [orb]; try done.
    lia.
  - intros Hlen1 Hlen2 Hhex. rewrite Hlen1, Hlen2, Z.ltb_irrefl. cbn [orb].
    destruct (git_oid_fromstr commit1) as [oid1|e1] eqn:H1.
    + cbn [rugged_exception_check mbind rb_result_bind rb_bind].
      destruct Hhex as [Hhex|Hhex].
      * exfalso. apply Hhex. apply (git_oid_fromstrn_ok commit1 oid1). by rewrite Hlen1.
      * destruct (git_oid_fromstr_invalid commit2 Hlen2 Hhex) as (e & -> & Hcode & Hklass).
        by exists e.
    + exists e1. cbn [rugged_exception_check mbind rb_result_bind rb_bind].
      split; [done|]. by eapply git_oid_fromstrn_fail.
Qed.

Lemma diff_between_repos_wants_full_ids_witness :
  rb_git_commit_diff_between_repos (H := sample_libgit2) 0 (rb_repo sample_repo)
    (rb_str "0000005") (rb_repo sample_repo_b)
    (rb_str "00000000000000000000000000000000000000006") =
    Some (rb_raise (rb_eArgError
      (if (RSTRING_LEN "0000005" <? GIT_OID_HEXSZ) ||
          (RSTRING_LEN "00000000000000000000000000000000000000006" <? GIT_OID_HEXSZ)
       then "The given OID is too short" else "The given OID is too long"))).
Proof.
  apply (proj1 (diff_between_repos_wants_full_ids (H := sample_libgit2) 0 sample_repo
                  sample_repo_b "0000005" "00000000000000000000000000000000000000006")).
  left. vm_compute. discriminate.
Defined.

(** ** The three ways to the stats of a commit *)

Lemma stats_of_commit_single `{Libgit2} (repo : git_repository) (commit : git_commit)
    (v : VALUE) :
  stats_of_commit repo (repo, commit) v ->
  rugged_commit_stats_of repo commit None = rb_return v.
Proof.
  intros (stats & tree & parent_tree & -> & Hoid & Hauthor & Hcommitter & Htree & Hparent
          & Hcounts).
  cbn [fst snd] in *. unfold rugged_commit_stats_of. rewrite Htree, Hparent.
  cbn [rugged_exception_check mbind rb_result_bind rb_bind adds dels].
  rewrite Hcounts. cbn [committer author oid]. unfold rugged_commit_stats_new.
  destruct stats as [a d c au o]. cbn [adds dels committer author oid] in *.
  by rewrite Hoid, Hauthor, Hcommitter.
Qed.

(** X17: [Commit.stats] on commits of the repository it is given returns, when it
    returns, for each commit what [rugged_commit_stats_of] returns for it
    without a path filter, in the order of the commits and whatever the
    interleaving of the threads was. *)
Theorem stats_batch_agrees_with_stats_of `{Libgit2} (repo : git_repository)
    (commits : list git_commit) (schedule : list event) (results : VALUE) :
  1 <= git_online_cpus <= INT_MAX ->
  Z.of_nat (List.length commits) <= INT_MAX ->
  rb_git_commit_stats (rb_repo repo)
    (rb_ary (map (fun commit => rb_object repo (ObjCommit commit)) commits)) schedule =
    Some (rb_return results) ->
  exists l,
    results = rb_ary l /\
    Forall2 (fun commit v => rugged_commit_stats_of repo commit None = rb_return v)
      commits l.
Proof.
  intros Hcpus Hmax.
  replace (map (fun commit => rb_object repo (ObjCommit commit)) commits)
    with (map commit_value (map (fun commit => (repo, commit)) commits))
    by (rewrite map_map; done).
  set (owned := map (fun commit => (repo, commit)) commits).
  assert (Hlen_owned : List.length owned = List.length commits)
    by (subst owned; apply length_map).
  rewrite batch_unfold.
  destruct (prepare_tasks (map commit_value owned)) as [init|e] eqn:Hprep; [|discriminate].
  apply prepare_tasks_spec in Hprep. pose proof (Forall2_length _ _ _ Hprep) as Hlen.
  rewrite <- Hlen_owned, Hlen in Hmax. cbv zeta.
  destruct (join_threads _) as [error|] eqn:Hjoin; [|discriminate].
  assert (Hcode : error <= 0).
  { destruct (join_threads_code _ _ Hjoin) as [->|[t Ht]]; [done|].
    eapply (codes_nonpositive_run schedule (batch_start repo init)); [|done].
    intros t' e' Ht'. unfold batch_start in Ht'. cbn [threads] in Ht'.
    apply lookup_replicate in Ht' as [? _]. discriminate. }
  destruct (Z.eqb_spec error GIT_OK) as [->|Hne].
  - intros [= <-]. eexists. split; [reflexivity|].
    pose proof (batch_all_done repo init schedule Hcpus Hmax Hjoin) as Hdone.
    apply Forall2_fmap_r, Forall2_same_length_lookup_2.
    { rewrite <- Hlen_owned, Hlen. by eapply Forall2_length. }
    intros i commit task Hcommit Hith.
    assert (Hoc : owned !! i = Some (repo, commit)).
    { subst owned. by rewrite list_lookup_fmap, Hcommit. }
    destruct (Forall2_lookup_l _ _ _ _ _ Hprep Hoc) as (task0 & Htask0 & Hprepared).
    destruct (Forall2_lookup_lr _ _ _ _ _ _ Hdone Htask0 Hith) as [Hsame Htask].
    cbn [fst snd] in *.
    apply prepare_task_spec in Hprepared as (tree & parent_tree & Htree & Hparent & ->).
    destruct Hsame as (Ht & Hp & Hoid & Hauthor & Hcommitter).
    cbn [task_tree task_parent_tree task_stats oid author committer] in *.
    apply stats_of_commit_single.
    exists (task_stats task), tree, parent_tree. unfold task_done in Htask.
    rewrite Ht, Hp in Htask. by repeat split.
  - destruct (Z.ltb_spec error 0); [discriminate|]. unfold GIT_OK in Hne. lia.
Qed.

Lemma stats_batch_agrees_with_stats_of_witness :
  exists l,
    rb_ary [rb_commit_stats (mk_commit_stats 3 0 (Some sig_alice) (Some sig_alice) 1);
            rb_commit_stats (mk_commit_stats 2 2 (Some sig_alice) (Some sig_bob) 2);
            rb_commit_stats (mk_commit_stats 0 0 (Some sig_bob) (Some sig_alice) 3)] =
      rb_ary l /\
    Forall2 (fun commit v =>
               rugged_commit_stats_of (H := sample_libgit2) sample_repo commit None =
                 rb_return v)
      [commit_root; commit_second; commit_side] l.
Proof.
  apply (stats_batch_agrees_with_stats_of (H := sample_libgit2) sample_repo
           [commit_root; commit_second; commit_side] sample_schedule
           (rb_ary [rb_commit_stats (mk_commit_stats 3 0 (Some sig_alice) (Some sig_alice) 1);
                    rb_commit_stats (mk_commit_stats 2 2 (Some sig_alice) (Some sig_bob) 2);
                    rb_commit_stats (mk_commit_stats 0 0 (Some sig_bob) (Some sig_alice) 3)])).
  - vm_compute. split; discriminate.
  - vm_compute. discriminate.
  - vm_compute. reflexivity.
Defined.

(** ** Parents, once more *)

Lemma parent_ids_and_parents_agree_witness :
  List.length [rb_object sample_repo (ObjCommit commit_second);
               rb_object sample_repo (ObjCommit commit_side)] =
    List.length (rb_git_commit_parent_ids_GET commit_merge).
Proof.
  apply (proj2 (parent_ids_and_parents_agree sample_repo commit_merge)
           [rb_object sample_repo (ObjCommit commit_second);
            rb_object sample_repo (ObjCommit commit_side)]).
  vm_compute. reflexivity.
Defined.

Lemma git_commit_lookup_ok repo id commit :
  git_commit_lookup repo id = git_ok commit -> repo_odb repo !! id = Some (ObjCommit commit).
Proof.
  unfold git_commit_lookup.
  destruct (git_object_lookup repo id GIT_OBJ_COMMIT) as [[c| | |]|] eqn:Hlookup;
    try discriminate.
  intros [= <-]. by apply git_object_lookup_ok in Hlookup as [? _].
Qed.

Lemma parents_GET_loop_ids owner commit remaining :
  forall n ret_arr l,
    parents_GET_loop owner commit remaining (Z.of_nat n) ret_arr = rb_return l ->
    exists found,
      l = ret_arr ++ found /\
      Forall2 (fun v id => exists c, git_commit_lookup owner id = git_ok c /\
                                     v = rb_object owner (ObjCommit c))
        found (take remaining (drop n (commit_parent_ids commit))).
Proof.
  induction remaining as [|k IH]; intros n ret_arr l Hl; cbn [parents_GET_loop] in Hl.
  - injection Hl as <-. exists []. rewrite app_nil_r, take_0. by split.
  - unfold git_commit_parent, git_commit_parent_id in Hl.
    destruct (Z.ltb_spec (Z.of_nat n) 0); [lia|]. rewrite Nat2Z.id in Hl.
    destruct (commit_parent_ids commit !! n) as [id|] eqn:Hn; [|discriminate].
    destruct (git_commit_lookup owner id) as [parent|] eqn:Hparent; [|discriminate].
    cbn [rugged_exception_check mbind rb_result_bind rb_bind] in Hl.
    replace (Z.of_nat n + 1) with (Z.of_nat (S n)) in Hl by lia.
    apply IH in Hl as (found & -> & Hfound).
    exists (rugged_object_new owner (ObjCommit parent) :: found).
    rewrite <- app_assoc. split; [done|].
    rewrite (drop_S _ _ _ Hn). cbn [take]. constructor; [by exists parent|done].
Qed.

(** X13: [commit.parents] and [commit.parent_ids] agree entry by entry: in a
    repository that stores its objects under their ids, the commit at each
    place of [parents] is an object of the owner of the commit and has the
    id at the same place of [parent_ids]. *)
Theorem parents_have_the_parent_ids (owner : git_repository) (commit : git_commit)
    (ps : list VALUE) :
  odb_consistent owner ->
  rb_git_commit_parents_GET owner commit = rb_return (rb_ary ps) ->
  Forall2 (fun v id => exists parent,
             v = rb_object owner (ObjCommit parent) /\ git_commit_id parent = id)
    ps (rb_git_commit_parent_ids_GET commit).
Proof.
  intros Hwf Hps.
  assert (Hids : rb_git_commit_parent_ids_GET commit = commit_parent_ids commit).
  { unfold rb_git_commit_parent_ids_GET, git_commit_parentcount.
    rewrite Nat2Z.id. rewrite (parent_ids_GET_loop_spec commit _ 0%nat []).
    by rewrite drop_0, firstn_all. }
  rewrite Hids. unfold rb_git_commit_parents_GET, git_commit_parentcount in Hps.
  rewrite Nat2Z.id in Hps.
  destruct (parents_GET_loop owner commit _ 0 []) as [l|] eqn:Hl; [|discriminate].
  injection Hps as <-.
  apply (parents_GET_loop_ids owner commit _ 0%nat) in Hl as (found & -> & Hfound).
  rewrite drop_0, firstn_all in Hfound. cbn [app].
  eapply Forall2_impl; [exact Hfound|].
  intros v id (parent & Hlookup & ->). exists parent. split; [done|].
  apply git_commit_lookup_ok in Hlookup. by destruct (Hwf _ _ Hlookup) as [Hid _].
Qed.

Lemma parents_have_the_parent_ids_witness :
  Forall2 (fun v id => exists parent,
             v = rb_object sample_repo (ObjCommit parent) /\ git_commit_id parent = id)
    [rb_object sample_repo (ObjCommit commit_second);
     rb_object sample_repo (ObjCommit commit_side)]
    (rb_git_commit_parent_ids_GET commit_merge).
Proof.
  apply (parents_have_the_parent_ids sample_repo commit_merge
           [rb_object sample_repo (ObjCommit commit_second);
            rb_object sample_repo (ObjCommit commit_side)]).
  - exact sample_repo_consistent.
  - vm_compute. reflexivity.
Defined.

(** ** A first parent that cannot be found *)

Lemma git_commit_lookup_fail repo id e :
  git_commit_lookup repo id = git_fail e -> error_code e = GIT_ENOTFOUND.
Proof.
  unfold git_commit_lookup, git_object_lookup.
  destruct (repo_odb repo !! id) as [o|]; [|by intros [= <-]].
  destruct (_ || _); [destruct o; try discriminate|]; by intros [= <-].
Qed.

(** X15: The stats of a commit whose first parent is not in the object database
    (or is no commit there) are those of a commit without parents: the
    failure to find the parent is taken for the lack of one, and every line
    of the tree counts as added. *)
Theorem stats_of_missing_parent_as_root `{Libgit2} (repo : git_repository)
    (commit : git_commit) (path_filter : option string) (parent : git_oid)
    (others : list git_oid) (e : git_error) :
  commit_parent_ids commit = parent :: others ->
  git_commit_lookup repo parent = git_fail e ->
  first_parent_tree repo commit = git_ok None /\
  rugged_commit_stats_of repo commit path_filter =
    rugged_commit_stats_of repo
      (mk_commit (commit_id commit) (commit_tree_id commit) []
         (commit_author commit) (commit_committer commit) (commit_message commit))
      path_filter.
Proof.
  intros Hparents Hlookup.
  assert (Hnone : first_parent_tree repo commit = git_ok None).
  { unfold first_parent_tree, git_commit_parent, git_commit_parent_id.
    rewrite Hparents. change (0 <? 0) with false. change (Z.to_nat 0) with 0%nat.
    cbn [lookup list_lookup]. rewrite Hlookup.
    by rewrite (git_commit_lookup_fail _ _ _ Hlookup). }
  split; [done|]. unfold rugged_commit_stats_of. rewrite Hnone.
  unfold git_commit_tree, git_commit_committer, git_commit_author, git_commit_id.
  cbn [commit_tree_id commit_committer commit_author commit_id].
  done.
Qed.

Lemma stats_of_missing_parent_as_root_witness :
  first_parent_tree sample_repo_b (mk_commit 8 11 [3] sig_bob sig_bob "grafted") = git_ok None /\
  rugged_commit_stats_of (H := sample_libgit2) sample_repo_b
    (mk_commit 8 11 [3] sig_bob sig_bob "grafted") None =
    rugged_commit_stats_of (H := sample_libgit2) sample_repo_b
      (mk_commit (commit_id (mk_commit 8 11 [3] sig_bob sig_bob "grafted"))
         (commit_tree_id (mk_commit 8 11 [3] sig_bob sig_bob "grafted")) []
         (commit_author (mk_commit 8 11 [3] sig_bob sig_bob "grafted"))
         (commit_committer (mk_commit 8 11 [3] sig_bob sig_bob "grafted"))
         (commit_message (mk_commit 8 11 [3] sig_bob sig_bob "grafted")))
      None.
Proof.
  apply (stats_of_missing_parent_as_root (H := sample_libgit2) sample_repo_b
           (mk_commit 8 11 [3] sig_bob sig_bob "grafted") None 3 [] err_not_found).
  - reflexivity.
  - vm_compute. reflexivity.
Defined.

(** ** Objects by a prefix of their id *)

Lemma list_ascii_of_substring (n : nat) :
  forall s, list_ascii_of_string (String.substring 0 n s) = take n (list_ascii_of_string s).
Proof.
  induction n as [|k IH]; intros s; destruct s as [|c s]; cbn; try done.
  by rewrite IH.
Qed.

Lemma oid_digits_add (n m : nat) :
  forall id,
    oid_digits (n + m) id = oid_digits n (Z.shiftr id (4 * Z.of_nat m)) ++ oid_digits m id.
Proof.
  induction m as [|k IH]; intros id.
  - rewrite Nat.add_0_r. cbn [oid_digits]. change (4 * Z.of_nat 0) with 0.
    by rewrite Z.shiftr_0_r, app_nil_r.
  - replace (n + S k)%nat with (S (n + k)) by lia. cbn [oid_digits].
    rewrite IH, Z.shiftr_shiftr by lia. rewrite <- app_assoc.
    by replace (4 + 4 * Z.of_nat k) with (4 * Z.of_nat (S k)) by lia.
Qed.

(** The id the first [n] digits of the hex string of [id] are read as: the
    digits of [id] above, zeros below. *)
Lemma git_oid_fromstrn_prefix (id : git_oid) (n : nat) :
  oid_in_range id -> (0 < n <= 40)%nat ->
  git_oid_fromstrn (String.substring 0 n (git_oid_fmt id)) (Z.of_nat n) =
    git_ok (Z.shiftl (Z.shiftr id (4 * (40 - Z.of_nat n))) (4 * (40 - Z.of_nat n))).
Proof.
  intros Hid Hn. unfold git_oid_fromstrn, GIT_OID_HEXSZ.
  destruct (Z.eqb_spec (Z.of_nat n) 0); [lia|].
  destruct (Z.ltb_spec 40 (Z.of_nat n)); [lia|].
  assert (Hchars : list_ascii_of_string (String.substring 0 n (git_oid_fmt id)) =
                   map hex_digit (oid_digits n (Z.shiftr id (4 * Z.of_nat (40 - n))))).
  { rewrite list_ascii_of_substring. unfold git_oid_fmt.
    rewrite oid_fmt_loop_digits. cbn [list_ascii_of_string]. rewrite app_nil_r.
    replace 40%nat with (n + (40 - n))%nat at 1 by lia.
    rewrite oid_digits_add, map_app, take_app_length'; [done|].
    by rewrite length_map, length_oid_digits. }
  rewrite Hchars, length_map, length_oid_digits.
  destruct (Z.ltb_spec (Z.of_nat n) (Z.of_nat n)); [lia|].
  rewrite Nat2Z.id, firstn_all2 by (rewrite length_map, length_oid_digits; lia).
  rewrite oid_fromstrn_loop_digits by lia. rewrite Z.lor_0_l. f_equal.
  replace (4 * Z.of_nat (40 - n)) with (4 * (40 - Z.of_nat n)) by lia.
  replace (4 * (40 - 0 - Z.of_nat n)) with (4 * (40 - Z.of_nat n)) by lia.
  f_equal. rewrite Z.land_ones by lia. apply Z.mod_small.
  rewrite Z.shiftr_div_pow2 by lia. unfold oid_in_range in Hid. split.
  - apply Z.div_pos; [lia|]. apply Z.pow_pos_nonneg; lia.
  - apply Z.div_lt_upper_bound; [apply Z.pow_pos_nonneg; lia|].
    rewrite <- Z.pow_add_r by lia.
    replace (4 * (40 - Z.of_nat n) + 4 * Z.of_nat n) with 160 by lia. lia.
Qed.

Lemma oid_prefix_of_short (id : git_oid) (n : Z) :
  0 <= n <= 40 ->
  oid_prefix (Z.shiftl (Z.shiftr id (4 * (40 - n))) (4 * (40 - n))) n = oid_prefix id n.
Proof.
  intros Hn. unfold oid_prefix, GIT_OID_HEXSZ.
  rewrite Z.shiftr_shiftl_l by lia. by rewrite Z.sub_diag, Z.shiftl_0_r.
Qed.

Lemma filter_ext_elem {A : Type} (P Q : A -> Prop) `{forall x, Decision (P x)}
    `{forall x, Decision (Q x)} (l : list A) :
  (forall x, x ∈ l -> P x <-> Q x) -> filter P l = filter Q l.
Proof.
  induction l as [|a l IH]; intros Hl; [done|].
  rewrite !filter_cons. rewrite IH by (intros x Hx; apply Hl; by right).
  destruct (decide (P a)) as [Hp|Hp], (decide (Q a)) as [Hq|Hq]; try done.
  - exfalso. apply Hq, (Hl a); [by left|done].
  - exfalso. apply Hp, (Hl a); [by left|done].
Qed.

Lemma prefix_matches_unique repo id o short n :
  repo_odb repo !! id = Some o ->
  oid_prefix short n = oid_prefix id n ->
  unique_prefix repo id n ->
  odb_prefix_matches (repo_odb repo) short n = [(id, o)].
Proof.
  intros Hstored Hshort Hunique. unfold odb_prefix_matches. rewrite Hshort.
  etransitivity; [|apply (filter_key_map_to_list (repo_odb repo) id o Hstored)].
  apply filter_ext_elem. intros [key o'] Hin. apply elem_of_map_to_list in Hin.
  cbn [fst]. split; [by apply (Hunique key o')|by intros ->].
Qed.

Lemma prefix_matches_shared repo id o other o' short n :
  repo_odb repo !! id = Some o ->
  repo_odb repo !! other = Some o' -> other <> id ->
  oid_prefix short n = oid_prefix id n ->
  oid_prefix other n = oid_prefix id n ->
  exists kv1 kv2 rest, odb_prefix_matches (repo_odb repo) short n = kv1 :: kv2 :: rest.
Proof.
  intros Hstored Hother Hne Hshort Hshare. unfold odb_prefix_matches. rewrite Hshort.
  assert (H1 : (id, o) ∈ filter (fun kv : Z * git_object => oid_prefix kv.1 n = oid_prefix id n)
                          (map_to_list (repo_odb repo))).
  { apply list_elem_of_filter. split; [done|by apply elem_of_map_to_list]. }
  assert (H2 : (other, o') ∈ filter (fun kv : Z * git_object =>
                                       oid_prefix kv.1 n = oid_prefix id n)
                               (map_to_list (repo_odb repo))).
  { apply list_elem_of_filter. split; [done|by apply elem_of_map_to_list]. }
  destruct (filter _ _) as [|kv1 [|kv2 rest]]; [by apply elem_of_nil in H1| |by eexists _, _, _].
  apply list_elem_of_singleton in H1, H2. congruence.
Qed.

(** X28: [Object.lookup] by the first [n] digits of [object.oid], for [n] from 4
    to 39: the object is returned when no other object of the repository
    has an id with the same [n] digits first, and the lookup raises
    libgit2's ambiguity error (and [Object.exists?] answers false) when
    another object has. *)
Theorem object_lookup_by_prefix (klass : rb_class) (repo : git_repository)
    (o : git_object) (n : nat) :
  oid_in_range (git_object_id o) ->
  repo_odb repo !! git_object_id o = Some o ->
  klass = rb_cRuggedObject \/ class2otype klass = git_object_type o ->
  (4 <= n < 40)%nat ->
  let hex := rb_str (String.substring 0 n (git_oid_fmt (git_object_id o))) in
  (unique_prefix repo (git_object_id o) (Z.of_nat n) ->
   rb_git_object_lookup klass (rb_repo repo) hex = rb_return (rb_object repo o) /\
   rb_git_object_exists klass (rb_repo repo) hex = rb_return Qtrue) /\
  (forall other o',
     repo_odb repo !! other = Some o' -> other <> git_object_id o ->
     oid_prefix other (Z.of_nat n) = oid_prefix (git_object_id o) (Z.of_nat n) ->
     rb_git_object_lookup klass (rb_repo repo) hex =
       rb_raise (rb_eRuggedError err_ambiguous) /\
     rb_git_object_exists klass (rb_repo repo) hex = rb_return Qfalse).
Proof.
  intros Hrange Hstored Hklass Hn hex. subst hex.
  set (id := git_object_id o) in *.
  set (short := Z.shiftl (Z.shiftr id (4 * (40 - Z.of_nat n))) (4 * (40 - Z.of_nat n))).
  set (type := if bool_decide (class2otype klass = GIT_OBJ_BAD) then GIT_OBJ_ANY
               else class2otype klass).
  assert (Hlen : RSTRING_LEN (String.substring 0 n (git_oid_fmt id)) = Z.of_nat n).
  { unfold RSTRING_LEN. rewrite <- length_list_ascii_of_string, list_ascii_of_substring.
    rewrite length_take, length_list_ascii_of_string, length_git_oid_fmt. lia. }
  assert (Hint : to_int (Z.of_nat n) = Z.of_nat n)
    by (apply to_int_small; unfold INT_MAX; lia).
  assert (Hsize : to_size_t (Z.of_nat n) = Z.of_nat n)
    by (apply to_size_t_small; unfold UINT64_MAX; lia).
  assert (Hshort : oid_prefix short (Z.of_nat n) = oid_prefix id (Z.of_nat n))
    by (apply oid_prefix_of_short; lia).
  assert (Hprefix : git_object_lookup_prefix repo short (Z.of_nat n) type =
                    match odb_prefix_matches (repo_odb repo) short (Z.of_nat n) with
                    | [] => git_fail err_not_found
                    | [(_, o0)] => object_of_type o0 type
                    | _ => git_fail err_ambiguous
                    end).
  { unfold git_object_lookup_prefix, GIT_OID_MINPREFIXLEN, GIT_OID_HEXSZ.
    destruct (Z.ltb_spec (Z.of_nat n) 4); [lia|].
    destruct (Z.ltb_spec 40 (Z.of_nat n)); [lia|].
    destruct (Z.eqb_spec (Z.of_nat n) 40); [lia|done]. }
  assert (Htyped : object_of_type o type = git_ok o).
  { unfold object_of_type. subst type. destruct Hklass as [->|Hk]; [done|].
    rewrite Hk. by destruct o. }
  unfold rb_git_object_lookup, rb_git_object_exists.
  cbn [Check_Type_T_STRING rugged_check_repo mbind rb_result_bind rb_bind].
  rewrite Hlen, Hint, Hsize.
  destruct (Z.ltb_spec GIT_OID_HEXSZ (Z.of_nat n)); [unfold GIT_OID_HEXSZ in *; lia|].
  destruct (Z.ltb_spec (Z.of_nat n) GIT_OID_HEXSZ); [|unfold GIT_OID_HEXSZ in *; lia].
  rewrite git_oid_fromstrn_prefix by (done || lia).
  cbn [rugged_exception_check mbind rb_result_bind rb_bind].
  fold short type. rewrite Hprefix. split.
  - intros Hunique.
    rewrite (prefix_matches_unique repo id o short (Z.of_nat n)) by done.
    by rewrite Htyped.
  - intros other o' Hother Hne Hshare.
    destruct (prefix_matches_shared repo id o other o' short (Z.of_nat n))
      as (kv1 & kv2 & rest & ->); try done.
    by destruct kv1.
Qed.

Lemma sample_blob_prefix_unique :
  unique_prefix sample_repo_blobs (git_object_id (ObjBlob blob_abcd)) 4.
Proof.
  unfold unique_prefix. apply map_Forall_to_list.
  assert (Hlist : exists l, map_to_list (repo_odb sample_repo_blobs) = l /\
            Forall (fun kv : Z * git_object =>
                      oid_prefix kv.1 4 = oid_prefix (git_object_id (ObjBlob blob_abcd)) 4 ->
                      kv.1 = git_object_id (ObjBlob blob_abcd)) l).
  { eexists. split; [vm_compute; reflexivity|].
    constructor; [|constructor; [|constructor]]; cbn [fst]; intros Hp; vm_compute in Hp;
      first [reflexivity|discriminate]. }
  destruct Hlist as (l & Heq & Hl). subst l.
  eapply Forall_impl; [exact Hl|]. by intros [k o].
Qed.

Lemma object_lookup_by_prefix_witness :
  rb_git_object_lookup rb_cRuggedBlob (rb_repo sample_repo_blobs)
    (rb_str (String.substring 0 4 (git_oid_fmt (git_object_id (ObjBlob blob_abcd))))) =
    rb_return (rb_object sample_repo_blobs (ObjBlob blob_abcd)) /\
  rb_git_object_exists rb_cRuggedBlob (rb_repo sample_repo_blobs)
    (rb_str (String.substring 0 4 (git_oid_fmt (git_object_id (ObjBlob blob_abcd))))) =
    rb_return Qtrue.
Proof.
  apply (proj1 (object_lookup_by_prefix rb_cRuggedBlob sample_repo_blobs (ObjBlob blob_abcd) 4
                  ltac:(vm_compute; split; [discriminate|reflexivity])
                  ltac:(vm_compute; reflexivity)
                  ltac:(right; reflexivity)
                  ltac:(lia))).
  exact sample_blob_prefix_unique.
Defined.

(** On the two blobs: [abcd] finds the first and [ABCE], in upper case, the
    second; the three digits [abc] are too short to find anything. *)
Example lookup_by_prefix_sample :
  rb_git_object_lookup rb_cRuggedObject (rb_repo sample_repo_blobs) (rb_str "abcd") =
    rb_return (rb_object sample_repo_blobs (ObjBlob blob_abcd)) /\
  rb_git_object_lookup rb_cRuggedObject (rb_repo sample_repo_blobs) (rb_str "ABCE") =
    rb_return (rb_object sample_repo_blobs (ObjBlob blob_abce)) /\
  rb_git_object_exists rb_cRuggedObject (rb_repo sample_repo_blobs) (rb_str "abc") =
    rb_return Qfalse.
Proof. vm_compute. repeat split. Qed.

(** ** A batch of no commits *)

Lemma pool_run_no_threads `{Libgit2} payload0 schedule :
  pool_run (mk_pool payload0 []) schedule = mk_pool payload0 [].
Proof.
  induction schedule as [|ev schedule IH]; [done|].
  rewrite pool_run_cons. by destruct ev.
Qed.

(** X29: [Commit.stats] of an empty array starts no thread and returns an empty
    array, whatever the schedule and the number of CPUs. *)
Theorem stats_batch_of_nothing `{Libgit2} (repo : git_repository) (schedule : list event) :
  batch_nr_threads 0 = 0 /\
  rb_git_commit_stats (rb_repo repo) (rb_ary []) schedule = Some (rb_return (rb_ary [])).
Proof.
  assert (Hnone : batch_nr_threads 0 = 0).
  { unfold batch_nr_threads.
    assert (0 <= to_size_t git_online_cpus).
    { unfold to_size_t, to_uint64. apply Z.mod_pos_bound. done. }
    destruct (Z.ltb_spec 0 (to_size_t git_online_cpus)); lia. }
  split; [done|]. unfold rb_git_commit_stats.
  cbn [rugged_check_repo prepare_tasks List.length]. change (Z.of_nat 0) with 0.
  rewrite Hnone. change (Z.to_nat 0) with 0%nat. cbn [replicate].
  by rewrite pool_run_no_threads.
Qed.
